(** * Pack v4 object decoder (packv4-parse.c)

    A shallow embedding of the pack v4 parser: hash references, the two
    string dictionaries, the commit reconstructor and the tree
    reconstructor with its copy ranges.

    Conventions (LP64): [unsigned long], [uintmax_t] and [size_t] are 64-bit,
    [unsigned int] and [uint32_t] are 32-bit, [int] is 32-bit; a value of
    one of these types is a [Z] kept in range with [wrap64] / [wrap32];
    pack offsets ([off_t]) and pointer differences are plain [Z].
    A byte is a [Z] in [0, 256).  A pointer into the pack window is the
    pack offset it designates. *)

From Stdlib Require Import String Ascii ZArith List Bool Lia.
Import ListNotations.
Local Open Scope Z_scope.

(** ** Machine integers and bytes *)

(** A byte is a [Z] in [0, 256). *)
Abbreviation byte := Z (only parsing).

Definition wrap64 (z : Z) : Z := z mod 2 ^ 64.
Definition wrap32 (z : Z) : Z := z mod 2 ^ 32.

(** [(int16_t) v] for a 16-bit pattern [v]. *)
Definition to_int16 (v : Z) : Z :=
  let w := v mod 2 ^ 16 in if w <? 2 ^ 15 then w else w - 2 ^ 16.

Definition len {A} (l : list A) : Z := Z.of_nat (length l).

Fixpoint bytes_of_string (s : string) : list byte :=
  match s with
  | EmptyString => []
  | String c r => Z.of_N (N_of_ascii c) :: bytes_of_string r
  end.

(** ** Outcomes

    [die()] ends the process; a load, a store or a pointer outside its
    object is undefined behaviour in C and is kept apart as [Fault];
    [OutOfFuel] is the model's bound on loops and recursion whose C
    counterpart need not terminate. *)

Inductive fatal : Type :=
| BadIndex        (* die("bad index in %s") *)
| Overflow        (* die("overflow in %s") *)
| BadIdentDict    (* die("bad pack name dictionary in %s") *)
| BadPathDict.    (* die("bad pack path dictionary in %s") *)

Inductive outcome (A : Type) : Type :=
| Done (a : A)
| Die (why : fatal)
| Fault
| OutOfFuel.

Arguments Done {A} a.
Arguments Die {A} why.
Arguments Fault {A}.
Arguments OutOfFuel {A}.

Definition obind {A B} (x : outcome A) (k : A -> outcome B) : outcome B :=
  match x with
  | Done a => k a
  | Die w => Die w
  | Fault => Fault
  | OutOfFuel => OutOfFuel
  end.

(** A load that leaves its object faults. *)
Definition must {A} (x : option A) : outcome A :=
  match x with
  | Some a => Done a
  | None => Fault
  end.

Declare Scope outcome_scope.
Delimit Scope outcome_scope with outcome.
Notation "x <- e ;; k" := (obind e (fun x => k))
  (at level 61, e at next level, right associativity) : outcome_scope.
Notation "' pat <- e ;; k" := (obind e (fun x => match x with pat => k end))
  (at level 61, pat pattern, e at next level, right associativity) : outcome_scope.
Local Open Scope outcome_scope.

(** ** The pack handle *)

Record packv4_dict : Type := {
  data : list byte;        (* the xmallocz'ed block: inflated bytes and the final NUL *)
  nb_entries : Z;
  offsets : list Z
}.

Record packed_git : Type := {
  pack_data : list byte;             (* the pack file, seen through windows *)
  num_objects : Z;                   (* uint32_t *)
  sha1_table : list byte;            (* the object p->sha1_table points to *)
  ident_dict : option packv4_dict;
  ident_dict_end : Z;
  path_dict : option packv4_dict
}.

(** Addresses the decoder handles: NULL, a byte of the pack window, a byte
    counted from [p->sha1_table], a byte counted from a dictionary's data. *)
Inductive ptr : Type :=
| Null
| InPack (off : Z)
| InTable (off : Z)
| InIdent (off : Z)
| InPath (off : Z).

Definition is_null (q : ptr) : bool :=
  match q with Null => true | _ => false end.

Definition at_off {A} (l : list A) (off : Z) : option (list A) :=
  if (0 <=? off) && (off <=? len l) then Some (skipn (Z.to_nat off) l) else None.

Definition dict_block (d : option packv4_dict) : list byte :=
  match d with Some d => data d | None => [] end.

(** The bytes of the object [q] points into, from [q] on. *)
Definition mem_from (p : packed_git) (q : ptr) : option (list byte) :=
  match q with
  | Null => None
  | InPack off => at_off (pack_data p) off
  | InTable off => at_off (sha1_table p) off
  | InIdent off => at_off (dict_block (ident_dict p)) off
  | InPath off => at_off (dict_block (path_dict p)) off
  end.

Definition ptr_add (q : ptr) (k : Z) : ptr :=
  match q with
  | Null => Null
  | InPack off => InPack (off + k)
  | InTable off => InTable (off + k)
  | InIdent off => InIdent (off + k)
  | InPath off => InPath (off + k)
  end.

(** [q[0]] *)
Definition load (p : packed_git) (q : ptr) : option byte :=
  match mem_from p q with
  | Some (b :: _) => Some b
  | _ => None
  end.

(** [n] bytes at [q]. *)
Definition load_n (p : packed_git) (q : ptr) (n : nat) : option (list byte) :=
  match mem_from p q with
  | Some bs => if (n <=? length bs)%nat then Some (firstn n bs) else None
  | None => None
  end.

(** The bytes before the first NUL of [bs]; [None] when there is no NUL. *)
Fixpoint until_nul (bs : list byte) : option (list byte) :=
  match bs with
  | [] => None
  | b :: rest =>
      if b =? 0 then Some []
      else match until_nul rest with
           | Some s => Some (b :: s)
           | None => None
           end
  end.

(** The C string at [q], as [%s] and [strlen] read it. *)
Definition load_cstr (p : packed_git) (q : ptr) : option (list byte) :=
  match mem_from p q with
  | Some bs => until_nul bs
  | None => None
  end.

(** Modelled from the spec: [use_pack] is not in the sources.  Section 6 has
    it return a readable window starting at [offset]; here the window runs to
    the end of the pack, the pointer is the offset itself and [avail] is the
    number of bytes left. *)
Definition use_pack (p : packed_git) (offset : Z) : Z * Z :=
  (offset, wrap64 (len (pack_data p) - offset)).

(** ** Varint codec *)

(** The byte read last had its high bit set; [val] is the accumulator and
    [n] the number of bytes consumed so far. *)
Fixpoint varint_more (bs : list byte) (val n : Z) : option (Z * Z) :=
  let val1 := wrap64 (val + 1) in
  if (val1 =? 0) || (2 ^ 57 <=? val1) then Some (0, 0)
  else
    match bs with
    | [] => None
    | c :: rest =>
        let val2 := Z.shiftl val1 7 + Z.land c 127 in
        if Z.testbit c 7 then varint_more rest val2 (n + 1)
        else Some (val2, n + 1)
    end.

(** Modelled from the spec: [decode_varint] (varint.h) is not in the sources.
    Section 4.1: each byte contributes seven bits, most significant group
    first, and a continuation adds one before the next shift; the result is
    the value and the number of bytes consumed.  The accumulator is a
    [uintmax_t]; when the next shift would lose bits the decoder gives value 0
    and leaves the cursor where it was, the zero-byte advance that callers
    test for.  [None] is a read past the end of [bs]. *)
Definition decode_varint (bs : list byte) : option (Z * Z) :=
  match bs with
  | [] => None
  | c :: rest =>
      let val := Z.land c 127 in
      if Z.testbit c 7 then varint_more rest val 1 else Some (val, 1)
  end.

(** [decode_varint(&scp)] with [scp] in the pack window: value and new cursor. *)
Definition varint_at (p : packed_git) (scp : Z) : outcome (Z * Z) :=
  bs <- must (at_off (pack_data p) scp) ;;
  '(v, n) <- must (decode_varint bs) ;;
  Done (v, scp + n).

(** ** Hash references *)

Definition get_sha1ref (p : packed_git) (buf : Z) : outcome (ptr * Z) :=
  b <- must (load p (InPack buf)) ;;
  if b =? 0 then Done (InPack (buf + 1), buf + 21)
  else
    '(v, buf') <- varint_at p buf ;;
    let index := wrap32 v in
    if (index <? 1) || (wrap32 (index - 1) >? num_objects p) then Die BadIndex
    else Done (InTable (wrap32 ((index - 1) * 20)), buf').

(** ** The host: zlib and the pack index

    Section 6 of the specification leaves these to the environment.
    [git_inflate z input avail_out] is one call of [git_inflate(&stream,
    Z_FINISH)] on the window [input]: the new stream state, the status, the
    number of input bytes consumed and the bytes stored at [next_out]. *)

Inductive zstatus : Type := Z_OK | Z_STREAM_END | Z_BUF_ERROR | Z_DATA_ERROR.

Definition zstatus_eqb (a b : zstatus) : bool :=
  match a, b with
  | Z_OK, Z_OK | Z_STREAM_END, Z_STREAM_END
  | Z_BUF_ERROR, Z_BUF_ERROR | Z_DATA_ERROR, Z_DATA_ERROR => true
  | _, _ => false
  end.

Class Host : Type := {
  zstate : Type;
  git_inflate_init : zstate;
  git_inflate : zstate -> list byte -> Z -> zstate * zstatus * Z * list byte;
  find_pack_entry_one : list byte -> packed_git -> Z;
  nth_packed_object_offset : packed_git -> Z -> Z;
  OBJ_PV4_TREE : Z                 (* the tree type tag of cache.h *)
}.

(** ** Machine state: the pack handle and the count of live heap blocks *)

Record machine : Type := {
  handle : packed_git;
  live : Z
}.

Definition xmalloc (m : machine) : machine :=
  {| handle := handle m; live := live m + 1 |}.

Definition free (m : machine) : machine :=
  {| handle := handle m; live := live m - 1 |}.

Definition set_ident (m : machine) (names : packv4_dict) (e : Z) : machine :=
  let p := handle m in
  {| handle := {| pack_data := pack_data p; num_objects := num_objects p;
                  sha1_table := sha1_table p; ident_dict := Some names;
                  ident_dict_end := e; path_dict := path_dict p |};
     live := live m |}.

Definition set_path (m : machine) (paths : packv4_dict) : machine :=
  let p := handle m in
  {| handle := {| pack_data := pack_data p; num_objects := num_objects p;
                  sha1_table := sha1_table p; ident_dict := ident_dict p;
                  ident_dict_end := ident_dict_end p; path_dict := Some paths |};
     live := live m |}.

(** ** Output buffers

    A cell of a malloc'ed block is indeterminate ([None]) until it is
    stored to.  A destination is the block split at the write pointer:
    [emitted] lies before it, [room] from it to the end of the block;
    [sizep] is the C variable counting the bytes still expected. *)

Abbreviation cell := (option Z) (only parsing).

Record dest : Type := {
  emitted : list cell;
  room : list cell;
  sizep : Z
}.

(** [xmallocz(size)]: [size + 1] bytes, the last one zero. *)
Definition xmallocz (size : Z) : dest :=
  {| emitted := []; room := repeat None (Z.to_nat size) ++ [Some 0]; sizep := size |}.

(** Store [bs] at [off] bytes past the write pointer. *)
Definition store (r : list cell) (off : Z) (bs : list byte) : outcome (list cell) :=
  if (0 <=? off) && (off + len bs <=? len r)
  then Done (firstn (Z.to_nat off) r ++ map Some bs
             ++ skipn (Z.to_nat off + length bs) r)
  else Fault.

(** [snprintf(dcp, size, ...)] producing [text]: at most [size - 1] bytes
    of it and a NUL are stored; the result is the full length. *)
Definition snprintf (d : dest) (text : list byte) : outcome (dest * Z) :=
  let stored :=
    if sizep d =? 0 then []
    else firstn (Z.to_nat (Z.min (len text) (sizep d - 1))) text ++ [0] in
  r <- store (room d) 0 stored ;;
  Done ({| emitted := emitted d; room := r; sizep := sizep d |}, len text).

(** [dcp += n; size -= n]. *)
Definition advance (d : dest) (n : Z) : outcome dest :=
  if (0 <=? n) && (n <=? len (room d))
  then Done {| emitted := emitted d ++ firstn (Z.to_nat n) (room d);
               room := skipn (Z.to_nat n) (room d);
               sizep := wrap64 (sizep d - n) |}
  else Fault.

(** The whole block again, as [dst] designates it. *)
Definition block (d : dest) : list cell := emitted d ++ room d.

(** ** Formatting *)

Fixpoint fmt_digits (fuel : nat) (base n : Z) (acc : list byte) : list byte :=
  match fuel with
  | O => acc
  | S f =>
      let acc' := (48 + n mod base) :: acc in
      if n / base =? 0 then acc' else fmt_digits f base (n / base) acc'
  end.

(** [%lu] *)
Definition fmt_lu (n : Z) : list byte := fmt_digits 64 10 n [].

(** [%o] *)
Definition fmt_o (n : Z) : list byte := fmt_digits 64 8 n [].

(** [%+05d] *)
Definition fmt_plus05d (v : Z) : list byte :=
  let ds := fmt_digits 64 10 (Z.abs v) [] in
  (if v <? 0 then 45 else 43) :: repeat 48 (4 - length ds) ++ ds.

Definition hex_digit (n : Z) : byte := if n <? 10 then 48 + n else 87 + n.

(** Modelled from the spec: [sha1_to_hex] is not in the sources; section 6
    has it format a hash as lowercase hexadecimal, two digits a byte. *)
Definition sha1_to_hex (sha1 : list byte) : list byte :=
  flat_map (fun b => [hex_digit (b / 16); hex_digit (b mod 16)]) sha1.

Definition tree_line (sha1 : list byte) : list byte :=
  bytes_of_string "tree " ++ sha1_to_hex sha1 ++ [10].

Definition parent_line (sha1 : list byte) : list byte :=
  bytes_of_string "parent " ++ sha1_to_hex sha1 ++ [10].

Definition person_line (role : string) (name : list byte) (time tz : Z) : list byte :=
  bytes_of_string role ++ [32] ++ name ++ [32] ++ fmt_lu time ++ [32]
  ++ fmt_plus05d tz ++ [10].

(** ["%o %s%c"] with the arguments [mode], [name], ['\0']. *)
Definition entry_text (mode : Z) (name : list byte) : list byte :=
  fmt_o mode ++ [32] ++ name ++ [0].

(** Section 4.5, step 5, in [unsigned long] arithmetic: the low bit of the
    delta is the sign, the rest the distance from the commit time. *)
Definition spec_author_time (commit_time delta : Z) : Z :=
  if Z.odd delta then (commit_time + delta / 2) mod 2 ^ 64
  else (commit_time - delta / 2) mod 2 ^ 64.

Section Decoder.

Context {host : Host}.

(** ** Inflating

    The loop of [load_dict] and [pv4_get_commit]:
    [do { src = use_pack(..); st = git_inflate(..); curpos += ..; }
     while ((st == Z_OK || st == Z_BUF_ERROR) && stream.avail_out)].
    The result is the last status, the bytes stored from [next_out] on and
    the pack offset reached. *)
Fixpoint inflate_loop (fuel : nat) (p : packed_git) (z : zstate)
    (curpos avail_out : Z) (out : list byte) : outcome (zstatus * list byte * Z) :=
  match fuel with
  | O => OutOfFuel
  | S f =>
      input <- must (at_off (pack_data p) curpos) ;;
      let '(z', st, used, produced) := git_inflate z input avail_out in
      let curpos' := curpos + used in
      let avail' := avail_out - len produced in
      let out' := out ++ produced in
      if (zstatus_eqb st Z_OK || zstatus_eqb st Z_BUF_ERROR) && negb (avail' =? 0)
      then inflate_loop f p z' curpos' avail' out'
      else Done (st, out', curpos')
  end.

(** ** Dictionaries *)

(** [strlen] at offset [cp] of the block [blk]. *)
Definition strlen_in (blk : list byte) (cp : Z) : option Z :=
  match at_off blk cp with
  | Some bs => option_map len (until_nul bs)
  | None => None
  end.

(** First pass: [while (cp < data + dict_size - 3) { cp += 2;
    cp += strlen(cp); cp += 1; nb_entries++; }], giving [cp - data] and
    [nb_entries]. *)
Fixpoint count_entries (fuel : nat) (blk : list byte) (dict_size cp nb : Z)
    : outcome (Z * Z) :=
  match fuel with
  | O => OutOfFuel
  | S f =>
      if cp <? dict_size - 3 then
        n <- must (strlen_in blk (cp + 2)) ;;
        count_entries f blk dict_size (cp + 2 + n + 1) (nb + 1)
      else Done (cp, nb)
  end.

(** Second pass: the offsets of the first [n] records. *)
Fixpoint entry_offsets (n : nat) (blk : list byte) (cp : Z) : outcome (list Z) :=
  match n with
  | O => Done []
  | S k =>
      l <- must (strlen_in blk (cp + 2)) ;;
      rest <- entry_offsets k blk (cp + 2 + l + 1) ;;
      Done (wrap32 cp :: rest)
  end.

(** [load_dict(p, &offset)]: [None] is the NULL return, otherwise the
    dictionary and the offset written back. *)
Definition load_dict (fuel : nat) (m : machine) (offset : Z)
    : outcome (option (packv4_dict * Z) * machine) :=
  let p := handle m in
  let '(src, avail) := use_pack p offset in
  '(dict_size, cp) <- varint_at p src ;;
  if dict_size <? 3 then Done (None, m)
  else
    let curpos := offset + (cp - src) in
    let m1 := xmalloc m in
    let blk0 := room (xmallocz dict_size) in
    '(st, out, curpos1) <-
      inflate_loop fuel p git_inflate_init curpos (wrap64 (dict_size + 1)) [] ;;
    blk1 <- store blk0 0 out ;;
    if negb (zstatus_eqb st Z_STREAM_END) || negb (wrap64 (len out) =? dict_size)
    then Done (None, free m1)
    else
      (* total_out = dict_size: the block is the inflated bytes and the
         NUL that xmallocz put after them *)
      let blk := out ++ [0] in
      '(cp1, nb) <- count_entries (length blk) blk dict_size 0 0 ;;
      if negb (cp1 =? dict_size) then Done (None, free m1)
      else
        let m2 := xmalloc m1 in
        offs <- entry_offsets (Z.to_nat nb) blk 0 ;;
        Done (Some ({| data := blk; nb_entries := nb; offsets := offs |}, curpos1), m2).

Definition load_ident_dict (fuel : nat) (m : machine) : outcome machine :=
  let offset := wrap32 (12 + num_objects (handle m) * 20) in
  '(r, m1) <- load_dict fuel m offset ;;
  match r with
  | None => Die BadIdentDict
  | Some (names, offset') => Done (set_ident m1 names offset')
  end.

Definition ensure_ident_dict (fuel : nat) (m : machine) : outcome machine :=
  match ident_dict (handle m) with
  | Some _ => Done m
  | None => load_ident_dict fuel m
  end.

(** The entry [index] of a loaded dictionary, NULL when out of range. *)
Definition dict_ref (mk : Z -> ptr) (d : option packv4_dict) (index : Z) : outcome ptr :=
  match d with
  | None => Fault
  | Some d =>
      if index >=? wrap32 (nb_entries d) then Done Null
      else
        o <- must (nth_error (offsets d) (Z.to_nat index)) ;;
        Done (mk o)
  end.

Definition get_identref (fuel : nat) (m : machine) (srcp : Z)
    : outcome (ptr * Z * machine) :=
  m1 <- ensure_ident_dict fuel m ;;
  '(v, srcp') <- varint_at (handle m1) srcp ;;
  q <- dict_ref InIdent (ident_dict (handle m1)) (wrap32 v) ;;
  Done (q, srcp', m1).

Definition load_path_dict (fuel : nat) (m : machine) : outcome machine :=
  m1 <- ensure_ident_dict fuel m ;;
  let offset := ident_dict_end (handle m1) in
  '(r, m2) <- load_dict fuel m1 offset ;;
  match r with
  | None => Die BadPathDict
  | Some (paths, _) => Done (set_path m2 paths)
  end.

Definition get_pathref (fuel : nat) (m : machine) (index : Z)
    : outcome (ptr * machine) :=
  m1 <- match path_dict (handle m) with
        | Some _ => Done m
        | None => load_path_dict fuel m
        end ;;
  q <- dict_ref InPath (path_dict (handle m1)) index ;;
  Done (q, m1).

(** ** Commits *)

(** Lines 209-212: the author time from the commit time and the delta. *)
Definition author_time_of (commit_time delta : Z) : Z :=
  if Z.testbit delta 0 then wrap64 (commit_time + Z.shiftr delta 1)
  else wrap64 (commit_time - Z.shiftr delta 1).

(** [(ident[0] << 8) | ident[1]] as an [int16_t]. *)
Definition read_tz (p : packed_git) (ident : ptr) : outcome Z :=
  i0 <- must (load p ident) ;;
  i1 <- must (load p (ptr_add ident 1)) ;;
  Done (to_int16 (Z.lor (Z.shiftl i0 8) i1)).

(** A line whose emit step is followed by [if (len >= size) die(..)]. *)
Definition emit_checked (d : dest) (text : list byte) : outcome dest :=
  '(d1, l) <- snprintf d text ;;
  if l >=? sizep d1 then Die Overflow else advance d1 l.

(** Lines 185-187: the tree line; nothing is tested after [snprintf]. *)
Definition emit_tree_line (d : dest) (text : list byte) : outcome dest :=
  '(d1, l) <- snprintf d text ;;
  advance d1 l.

(** [while (nb_parents--) { ... }] *)
Fixpoint emit_parents (n : nat) (p : packed_git) (scp : Z) (d : dest)
    : outcome (Z * dest) :=
  match n with
  | O => Done (scp, d)
  | S k =>
      '(sha1, scp1) <- get_sha1ref p scp ;;
      h <- must (load_n p sha1 20) ;;
      d1 <- emit_checked d (parent_line h) ;;
      emit_parents k p scp1 d1
  end.

Definition pv4_get_commit (fuel : nat) (m : machine) (offset size : Z)
    : outcome (option (list cell) * machine) :=
  let m0 := xmalloc m in
  let d0 := xmallocz size in
  let p := handle m0 in
  let '(src, avail) := use_pack p offset in
  '(sha1, scp1) <- get_sha1ref p src ;;
  h <- must (load_n p sha1 20) ;;
  d1 <- emit_tree_line d0 (tree_line h) ;;
  '(v, scp2) <- varint_at p scp1 ;;
  '(scp3, d2) <- emit_parents (Z.to_nat (wrap32 v)) p scp2 d1 ;;
  '(commit_time, scp4) <- varint_at p scp3 ;;
  '(ident, scp5, m1) <- get_identref fuel m0 scp4 ;;
  commit_tz <- read_tz (handle m1) ident ;;
  let committer := ptr_add ident 2 in
  '(delta, scp6) <- varint_at (handle m1) scp5 ;;
  '(ident', scp7, m2) <- get_identref fuel m1 scp6 ;;
  author_tz <- read_tz (handle m2) ident' ;;
  let author := ptr_add ident' 2 in
  let author_time := author_time_of commit_time delta in
  a <- must (load_cstr (handle m2) author) ;;
  d3 <- emit_checked d2 (person_line "author" a author_time author_tz) ;;
  c <- must (load_cstr (handle m2) committer) ;;
  d4 <- emit_checked d3 (person_line "committer" c commit_time commit_tz) ;;
  if wrap64 (scp7 - src) >? avail then Die Overflow
  else
    let offset1 := offset + (scp7 - src) in
    '(st, out, _) <-
      inflate_loop fuel (handle m2) git_inflate_init offset1 (wrap64 (sizep d4 + 1)) [] ;;
    r <- store (room d4) 0 out ;;
    if negb (zstatus_eqb st Z_STREAM_END) || negb (wrap64 (len out) =? sizep d4)
    then Done (None, free m2)
    else Done (Some (emitted d4 ++ r), m2).

(** ** Trees *)

(** The local variables of one [decode_entries] frame while it loops. *)
Record frame : Type := {
  f_offset : Z;             (* [offset]; [src] is the window pointer for it *)
  f_avail : Z;
  f_start : Z;
  f_count : Z;
  f_copy_objoffset : Z
}.

Inductive step_result : Type :=
| Return (ret : Z)
| Continue (f : frame).

(** [while (scp[0] & 128) if (++scp - src >= avail - 20) return -1;] then the
    type test on the last header byte.  [k] is [scp - src]; the result is the
    new [scp - src], [None] for [return -1]. *)
Fixpoint skip_object_header (bs : list byte) (k avail : Z) : outcome (option Z) :=
  match bs with
  | [] => Fault
  | b :: rest =>
      if Z.testbit b 7 then
        if wrap64 (k + 1) >=? wrap64 (avail - 20) then Done None
        else skip_object_header rest (k + 1) avail
      else if negb (Z.land b 15 =? OBJ_PV4_TREE) then Done None
      else Done (Some (k + 1))
  end.

(** The skip loop [while (scp++[0] & 128);] of the indexed hash reference. *)
Fixpoint skip_varint (bs : list byte) (k : Z) : outcome Z :=
  match bs with
  | [] => Fault
  | b :: rest => if Z.testbit b 7 then skip_varint rest (k + 1) else Done (k + 1)
  end.

(** Lines 345-363: the source object of a copy record.  [copy_count] is the
    raw varint; the result is the new [copy_objoffset] and cursor. *)
Definition copy_source (p : packed_git) (scp copy_count copy_objoffset : Z)
    : outcome (Z * Z) :=
  if Z.testbit copy_count 0 then
    '(v, scp1) <- varint_at p scp ;;
    let index := wrap32 v in
    if index =? 0 then
      h <- must (load_n p (InPack scp1) 20) ;;
      Done (find_pack_entry_one h p, scp1 + 20)
    else Done (nth_packed_object_offset p (wrap32 (index - 1)), scp1)
  else Done (copy_objoffset, scp).

(** The end of a loop iteration:
    [offset += scp - src; avail -= scp - src; src = scp;]. *)
Definition next_frame (f : frame) (src scp avail start count copy_objoffset : Z) : frame :=
  {| f_offset := f_offset f + (scp - src);
     f_avail := wrap64 (avail - (scp - src));
     f_start := start; f_count := count;
     f_copy_objoffset := copy_objoffset |}.

(** [if (avail < 20) src = use_pack(p, w_curs, offset, &avail);] at the
    head of an iteration: the window pointer and [avail]. *)
Definition frame_window (p : packed_git) (f : frame) : Z * Z :=
  if f_avail f <? 20 then use_pack p (f_offset f) else (f_offset f, f_avail f).

(** Lines 295-305: a single entry that lies before [start]; its hash
    reference is stepped over. *)
Definition skip_entry (m : machine) (f : frame) (d : dest) (src avail scp : Z)
    : outcome (step_result * machine * dest) :=
  let p := handle m in
  b <- must (load p (InPack scp)) ;;
  scp1 <- (if b =? 0 then Done (scp + 1 + 20)
           else bs <- must (at_off (pack_data p) scp) ;; k <- skip_varint bs 0 ;;
                Done (scp + k)) ;;
  Done (Continue (next_frame f src scp1 avail (wrap32 (f_start f - 1)) (f_count f)
                    (f_copy_objoffset f)), m, d).

(** Lines 306-326: an actual tree entry to recreate. *)
Definition emit_entry (fuel : nat) (m : machine) (f : frame) (d : dest)
    (src avail scp what : Z) : outcome (step_result * machine * dest) :=
  '(path, m1) <- get_pathref fuel m (Z.shiftr what 1) ;;
  '(sha1, scp1) <- get_sha1ref (handle m1) scp ;;
  if is_null path || is_null sha1 then Done (Return (-1), m1, d)
  else
    p0 <- must (load (handle m1) path) ;;
    p1 <- must (load (handle m1) (ptr_add path 1)) ;;
    let mode := Z.lor (Z.shiftl p0 8) p1 in
    name <- must (load_cstr (handle m1) (ptr_add path 2)) ;;
    '(d1, l) <- snprintf d (entry_text mode name) ;;
    if l + 20 >? sizep d1 then Done (Return (-1), m1, d1)
    else
      h <- must (load_n (handle m1) sha1 20) ;;
      r <- store (room d1) l h ;;
      d2 <- advance {| emitted := emitted d1; room := r; sizep := sizep d1 |} (l + 20) ;;
      Done (Continue (next_frame f src scp1 avail (f_start f) (wrap32 (f_count f - 1))
                        (f_copy_objoffset f)), m1, d2).

(** Lines 327-386: copy from another tree object.  [rec] is the recursive
    call [decode_entries(p, w_curs, _, _, _, dstp, sizep, 1)]. *)
Definition copy_range
    (rec : machine -> Z -> Z -> Z -> dest -> outcome (Z * machine * dest))
    (m : machine) (f : frame) (d : dest) (src avail scp what : Z)
    : outcome (step_result * machine * dest) :=
  let p := handle m in
  let copy_start := Z.shiftr what 1 in
  '(v2, scp1) <- varint_at p scp ;;
  let copy_count := wrap32 v2 in
  if copy_count =? 0 then Done (Return (-1), m, d)
  else
    '(copy_objoffset, scp2) <- copy_source p scp1 copy_count (f_copy_objoffset f) ;;
    if copy_objoffset =? 0 then Done (Return (-1), m, d)
    else
      let copy_count := Z.shiftr copy_count 1 in
      if f_start f >=? copy_count then
        Done (Continue (next_frame f src scp2 avail (wrap32 (f_start f - copy_count))
                          (f_count f) copy_objoffset), m, d)
      else
        let copy_count := wrap32 (copy_count - f_start f) in
        let copy_start := wrap32 (copy_start + f_start f) in
        let copy_count := if copy_count >? f_count f then f_count f else copy_count in
        let count := wrap32 (f_count f - copy_count) in
        '(ret, m1, d1) <- rec m copy_objoffset copy_start copy_count d ;;
        if negb (ret =? 0) then Done (Return ret, m1, d1)
        else
          (* force pack window readjustment: avail = scp - src *)
          Done (Continue (next_frame f src scp2 (wrap64 (scp2 - src)) 0 count
                            copy_objoffset), m1, d1).

(** One iteration of [while (count) { ... }]. *)
Definition entries_step
    (rec : machine -> Z -> Z -> Z -> dest -> outcome (Z * machine * dest))
    (fuel : nat) (m : machine) (f : frame) (d : dest)
    : outcome (step_result * machine * dest) :=
  let p := handle m in
  let '(src, avail) := frame_window p f in
  if avail <? 20 then Done (Return (-1), m, d)
  else
    '(v, scp) <- varint_at p src ;;
    let what := wrap32 v in
    if scp =? src then Done (Return (-1), m, d)
    else if negb (Z.testbit what 0) && negb (f_start f =? 0)
    then skip_entry m f d src avail scp
    else if negb (Z.testbit what 0)
    then emit_entry fuel m f d src avail scp what
    else copy_range rec m f d src avail scp what.

(** Lines 261-279 of [decode_entries]: the window, the optional object
    header and the entry count; [None] is [return -1], otherwise the frame
    the loop starts in. *)
Definition entries_prologue (p : packed_git) (offset start count : Z) (parse_hdr : bool)
    : outcome (option frame) :=
  let '(src, avail) := use_pack p offset in
  r <- (if parse_hdr
        then bs <- must (at_off (pack_data p) src) ;; skip_object_header bs 0 avail
        else Done (Some 0)) ;;
  match r with
  | None => Done None
  | Some k =>
      '(v, scp) <- varint_at p (src + k) ;;
      let nb_entries := wrap32 v in
      if (scp =? src) || (start >? nb_entries) || (count >? wrap32 (nb_entries - start))
      then Done None
      else Done (Some {| f_offset := offset + (scp - src);
                         f_avail := wrap64 (avail - (scp - src));
                         f_start := start; f_count := count;
                         f_copy_objoffset := 0 |})
  end.

Definition decode_entries_with
    (loop : machine -> frame -> dest -> outcome (Z * machine * dest))
    (m : machine) (offset start count : Z) (d : dest) (parse_hdr : bool)
    : outcome (Z * machine * dest) :=
  r <- entries_prologue (handle m) offset start count parse_hdr ;;
  match r with
  | None => Done (-1, m, d)
  | Some f => loop m f d
  end.

(** The [while (count)] loop; each iteration and each recursion into a
    source tree spends one unit of fuel. *)
Fixpoint entries_loop (fuel : nat) (m : machine) (f : frame) (d : dest)
    : outcome (Z * machine * dest) :=
  match fuel with
  | O => OutOfFuel
  | S k =>
      if f_count f =? 0 then Done (0, m, d)
      else
        '(r, m1, d1) <-
          entries_step (fun m' o s c d' => decode_entries_with (entries_loop k) m' o s c d' true)
                       k m f d ;;
        match r with
        | Return ret => Done (ret, m1, d1)
        | Continue f' => entries_loop k m1 f' d1
        end
  end.

Definition decode_entries (fuel : nat) (m : machine) (offset start count : Z)
    (d : dest) (parse_hdr : bool) : outcome (Z * machine * dest) :=
  decode_entries_with (entries_loop fuel) m offset start count d parse_hdr.

Definition pv4_get_tree (fuel : nat) (m : machine) (offset size : Z)
    : outcome (option (list cell) * machine) :=
  let p := handle m in
  let '(src, avail) := use_pack p offset in
  '(v, scp) <- varint_at p src ;;
  let nb_entries := wrap32 v in
  if scp =? src then Done (None, m)
  else
    let m0 := xmalloc m in
    let d0 := xmallocz size in
    '(ret, m1, d1) <- decode_entries fuel m0 offset 0 nb_entries d0 false ;;
    if (ret <? 0) || negb (sizep d1 =? 0) then Done (None, free m1)
    else Done (Some (block d1), m1).

(** ** The commit payload, field by field

    Section 6 of the specification: tree hashref, parent-count varint, that
    many parent hashrefs, commit-time varint, committer identityref,
    author-time-delta varint, author identityref, then the compressed body.
    [parse_commit] reads these fields and emits nothing; the reconstructor is
    compared with it. *)

Record commit_fields : Type := {
  c_tree : list byte;
  c_parents : list (list byte);
  c_time : Z;
  c_committer_tz : Z;
  c_committer : list byte;
  c_delta : Z;
  c_author_tz : Z;
  c_author : list byte;
  c_body : Z                       (* pack offset of the compressed body *)
}.

Fixpoint parse_parents (n : nat) (p : packed_git) (scp : Z)
    : outcome (list (list byte) * Z) :=
  match n with
  | O => Done ([], scp)
  | S k =>
      '(sha1, scp1) <- get_sha1ref p scp ;;
      h <- must (load_n p sha1 20) ;;
      '(hs, scp2) <- parse_parents k p scp1 ;;
      Done (h :: hs, scp2)
  end.

Definition parse_ident (fuel : nat) (m : machine) (scp : Z)
    : outcome (Z * list byte * Z * machine) :=
  '(ident, scp1, m1) <- get_identref fuel m scp ;;
  tz <- read_tz (handle m1) ident ;;
  name <- must (load_cstr (handle m1) (ptr_add ident 2)) ;;
  Done (tz, name, scp1, m1).

Definition parse_commit (fuel : nat) (m : machine) (offset : Z)
    : outcome (commit_fields * machine) :=
  let p := handle m in
  '(sha1, scp1) <- get_sha1ref p offset ;;
  h <- must (load_n p sha1 20) ;;
  '(v, scp2) <- varint_at p scp1 ;;
  '(hs, scp3) <- parse_parents (Z.to_nat (wrap32 v)) p scp2 ;;
  '(ct, scp4) <- varint_at p scp3 ;;
  '(ctz, cname, scp5, m1) <- parse_ident fuel m scp4 ;;
  '(delta, scp6) <- varint_at (handle m1) scp5 ;;
  '(atz, aname, scp7, m2) <- parse_ident fuel m1 scp6 ;;
  Done ({| c_tree := h; c_parents := hs; c_time := ct;
           c_committer_tz := ctz; c_committer := cname; c_delta := delta;
           c_author_tz := atz; c_author := aname; c_body := scp7 |}, m2).

(** The header the fields stand for: the tree line, a line for each parent,
    the author line, the committer line. *)
Definition commit_header_text (f : commit_fields) : list byte :=
  tree_line (c_tree f)
  ++ flat_map parent_line (c_parents f)
  ++ person_line "author" (c_author f)
       (spec_author_time (c_time f) (c_delta f)) (c_author_tz f)
  ++ person_line "committer" (c_committer f) (c_time f) (c_committer_tz f).

(** The parent count the payload declares. *)
Definition declared_parents (p : packed_git) (offset : Z) : outcome Z :=
  '(_, scp1) <- get_sha1ref p offset ;;
  '(v, _) <- varint_at p scp1 ;;
  Done (wrap32 v).

End Decoder.

(** ** Invariants of a destination

    [dest_inv total d]: what lies before the write pointer has been stored
    to, [sizep] bytes and the final NUL of [xmallocz] lie after it, and the
    two parts make up the [total] bytes the caller declared. *)
Definition dest_inv (total : Z) (d : dest) : Prop :=
  exists (bs : list byte) (junk : list cell),
    emitted d = map Some bs /\ room d = junk ++ [Some 0]
    /\ len junk = sizep d /\ len bs + sizep d = total.

(** The same destination seen from a block that starts earlier: [pre] lies
    before what [d] has emitted.  [decode_entries] only has the write
    pointer, so it cannot tell the two apart. *)
Definition rebase (pre : list cell) (d : dest) : dest :=
  {| emitted := pre ++ emitted d; room := room d; sizep := sizep d |}.

(** The destination with nothing emitted yet: the write pointer taken as the
    start of a buffer. *)
Definition fresh (d : dest) : dest :=
  {| emitted := []; room := room d; sizep := sizep d |}.

Definition omap {A B} (g : A -> B) (x : outcome A) : outcome B :=
  match x with
  | Done a => Done (g a)
  | Die w => Die w
  | Fault => Fault
  | OutOfFuel => OutOfFuel
  end.

(** A destination no checked emit step can pass: no byte is expected any
    more, or the write pointer is at the end of the block. *)
Definition dead (d : dest) : Prop := sizep d = 0 \/ room d = [].

(** The record at the head of a loop iteration: at least 20 bytes are
    available and the varint [what] ends at [scp], past the frame's offset. *)
Definition reads_record (p : packed_git) (f : frame) (what scp : Z) : Prop :=
  20 <= snd (frame_window p f)
  /\ exists v, varint_at p (f_offset f) = Done (v, scp)
               /\ what = wrap32 v /\ scp <> f_offset f.

(** What the handle owns on the heap: two blocks for each loaded dictionary. *)
Definition dict_blocks (p : packed_git) : Z :=
  (match ident_dict p with Some _ => 2 | None => 0 end)
  + (match path_dict p with Some _ => 2 | None => 0 end).

(** [m'] is [m] after some decoding: the pack, its table and its object
    count are the same, a loaded dictionary stays as it is, and every live
    block that is not a dictionary's was live before. *)
Definition same_pack (m m' : machine) : Prop :=
  pack_data (handle m') = pack_data (handle m)
  /\ num_objects (handle m') = num_objects (handle m)
  /\ sha1_table (handle m') = sha1_table (handle m)
  /\ (forall d, ident_dict (handle m) = Some d -> ident_dict (handle m') = Some d)
  /\ (forall d, path_dict (handle m) = Some d -> path_dict (handle m') = Some d)
  /\ live m' - dict_blocks (handle m') = live m - dict_blocks (handle m).

(** Properties of the recursive call that the loop body passes on. *)
Definition decoder : Type :=
  machine -> Z -> Z -> Z -> dest -> outcome (Z * machine * dest).

Definition keeps_dest (total : Z) (rec : decoder) : Prop :=
  forall m o s c d r m' d',
    dest_inv total d -> rec m o s c d = Done (r, m', d') -> dest_inv total d'.

Definition keeps_pack (rec : decoder) : Prop :=
  forall m o s c d r m' d', rec m o s c d = Done (r, m', d') -> same_pack m m'.

Definition lift {R} (pre : list cell) (x : R * machine * dest) : R * machine * dest :=
  let '(r, m, d) := x in (r, m, rebase pre d).

Definition frame_indep (rec : decoder) : Prop :=
  forall pre m o s c d, rec m o s c (rebase pre d) = omap (lift pre) (rec m o s c d).

(** Two runs of a decoder from the same machine state that both succeed
    emit the same bytes, whatever their destinations. *)
Definition same_bytes (rec : decoder) : Prop :=
  forall T T' m o s c d d' m1 d1 m2 d2,
    T < 2 ^ 64 -> T' < 2 ^ 64 -> dest_inv T d -> dest_inv T' d' ->
    rec m o s c d = Done (0, m1, d1) -> rec m o s c d' = Done (0, m2, d2) ->
    m1 = m2 /\ exists bs, emitted d1 = emitted d ++ map Some bs
                          /\ emitted d2 = emitted d' ++ map Some bs.

(** ** Dictionary records, as the specification lays them out

    Section 3: a record is 2 prefix bytes followed by a NUL-terminated
    string; a dictionary is the concatenation of its records. *)

Definition dict_record (r : byte * byte * list byte) : list byte :=
  let '(a, b, s) := r in a :: b :: s ++ [0].

Definition no_nul (s : list byte) : Prop := Forall (fun c => c <> 0) s.

Definition well_formed_record (r : byte * byte * list byte) : Prop :=
  no_nul (snd r).

Definition encode_records (rs : list (byte * byte * list byte)) : list byte :=
  flat_map dict_record rs.

(** The offsets of the records [rs] laid out from [cp] on. *)
Fixpoint record_offsets (cp : Z) (rs : list (byte * byte * list byte)) : list Z :=
  match rs with
  | [] => []
  | r :: rs' => wrap32 cp :: record_offsets (cp + len (dict_record r)) rs'
  end.

(** ** A small host and a small pack

    A stand-in for zlib, enough to run the decoder on examples: a stream is
    a length byte followed by that many literal bytes.  The index maps the
    i-th hash of the table to the i-th offset of [offs]. *)

Definition stored_inflate (z : unit) (input : list byte) (avail_out : Z)
    : unit * zstatus * Z * list byte :=
  match input with
  | [] => (tt, Z_BUF_ERROR, 0, [])
  | n :: rest =>
      if len rest <? n then (tt, Z_DATA_ERROR, 0, [])
      else if n <=? avail_out then (tt, Z_STREAM_END, n + 1, firstn (Z.to_nat n) rest)
      else (tt, Z_BUF_ERROR, 1 + avail_out, firstn (Z.to_nat avail_out) rest)
  end.

Fixpoint find_hash (h : list byte) (table : list byte) (offs : list Z) (n : nat) : Z :=
  match n, offs with
  | S k, o :: offs' =>
      if list_eq_dec Z.eq_dec (firstn 20 table) h then o
      else find_hash h (skipn 20 table) offs' k
  | _, _ => 0
  end.

Definition toy_host (offs : list Z) : Host :=
  {| zstate := unit;
     git_inflate_init := tt;
     git_inflate := stored_inflate;
     find_pack_entry_one := fun h p => find_hash h (sha1_table p) offs (length offs);
     nth_packed_object_offset := fun _ i => nth (Z.to_nat i) offs 0;
     OBJ_PV4_TREE := 10 |}.

Definition ex_table : list byte :=
  repeat 17 20 ++ repeat 34 20 ++ repeat 51 20.

Definition ex_ident_data : list byte :=
  [0; 0] ++ bytes_of_string "Alice <a@x> " ++ [0]
  ++ [0; 200] ++ bytes_of_string "Bob <b@y> " ++ [0].

Definition ex_path_data : list byte :=
  [129; 164] ++ bytes_of_string "README" ++ [0]
  ++ [64; 0] ++ bytes_of_string "src" ++ [0].

(** A dictionary on the wire: the size varint and the stream. *)
Definition ex_dict (d : list byte) : list byte := len d :: len d :: d.

(** tree 1, one parent 2, time 1700000000, committer 0, delta 0, author 1. *)
Definition ex_commit : list byte :=
  [1; 1; 2; 133; 169; 206; 225; 0; 0; 0; 1] ++ [6] ++ bytes_of_string "hello" ++ [10].

(** Tree A: header byte, four entries. *)
Definition ex_tree_a : list byte :=
  [26; 4] ++ [0; 1] ++ [2; 2] ++ [0; 3] ++ [2; 0] ++ repeat 68 20.

(** Tree B: header byte, two entries: copy 2 entries of object 2 from entry 1. *)
Definition ex_tree_b : list byte := [26; 2] ++ [3; 5; 2].

(** Tree C: one entry, a copy record that leaves the source out. *)
Definition ex_tree_c : list byte := [26; 1] ++ [3; 4].

(** Tree E: no entry. *)
Definition ex_tree_e : list byte := [26; 0].

(** A commit whose tree reference has index 9, in a pack of 3 objects. *)
Definition ex_bad_commit : list byte := [9; 0; 5; 0; 0; 1; 0].

Definition ex_prefix : list byte :=
  repeat 0 12 ++ ex_table ++ ex_dict ex_ident_data ++ ex_dict ex_path_data.

Definition ex_commit_off : Z := len ex_prefix.
Definition ex_tree_a_off : Z := ex_commit_off + len ex_commit.
Definition ex_tree_b_off : Z := ex_tree_a_off + len ex_tree_a.
Definition ex_tree_c_off : Z := ex_tree_b_off + len ex_tree_b.
Definition ex_tree_e_off : Z := ex_tree_c_off + len ex_tree_c.
Definition ex_bad_commit_off : Z := ex_tree_e_off + len ex_tree_e.

Definition ex_bytes : list byte :=
  ex_prefix ++ ex_commit ++ ex_tree_a ++ ex_tree_b ++ ex_tree_c ++ ex_tree_e
  ++ ex_bad_commit ++ repeat 0 20.

Definition ex_host : Host := toy_host [ex_commit_off; ex_tree_a_off; ex_tree_b_off].

Definition ex_pack (bs : list byte) : packed_git :=
  {| pack_data := bs; num_objects := 3; sha1_table := ex_table;
     ident_dict := None; ident_dict_end := 0; path_dict := None |}.

Definition ex_machine : machine := {| handle := ex_pack ex_bytes; live := 0 |}.

(** A pack whose identity dictionary is the single record of an empty
    string with prefix 0 0. *)
Definition ex_small_dict_machine : machine :=
  {| handle := ex_pack (repeat 0 12 ++ ex_table ++ ex_dict [0; 0; 0] ++ repeat 0 20);
     live := 0 |}.

(** What the decoder returns on the example objects. *)
Definition ex_commit_blk : list cell :=
  Eval vm_compute in
    match @pv4_get_commit ex_host 5 ex_machine ex_commit_off 175 with
    | Done (Some b, _) => b
    | _ => []
    end.

Definition ex_commit_machine : machine :=
  Eval vm_compute in
    match @pv4_get_commit ex_host 5 ex_machine ex_commit_off 175 with
    | Done (_, m) => m
    | _ => ex_machine
    end.

Definition ex_tree_b_blk : list cell :=
  Eval vm_compute in
    match @pv4_get_tree ex_host 20 ex_machine (ex_tree_b_off + 1) 64 with
    | Done (Some b, _) => b
    | _ => []
    end.

Definition ex_tree_a_blk : list cell :=
  Eval vm_compute in
    match @pv4_get_tree ex_host 20 ex_machine (ex_tree_a_off + 1) 128 with
    | Done (Some b, _) => b
    | _ => []
    end.

Definition ex_tree_b_machine : machine :=
  Eval vm_compute in
    match @pv4_get_tree ex_host 20 ex_machine (ex_tree_b_off + 1) 64 with
    | Done (_, m) => m
    | _ => ex_machine
    end.


(** The example commit decoded with one byte less declared: the body does
    not fill the buffer and NULL is returned. *)
Definition ex_null_machine : machine :=
  Eval vm_compute in
    match @pv4_get_commit ex_host 5 ex_machine ex_commit_off 174 with
    | Done (_, m) => m
    | _ => ex_machine
    end.

(** The frame in which the loop of tree B starts, and what decoding the
    entries 1 and 2 of tree A gives from there. *)
Definition ex_frame_b : frame :=
  {| f_offset := ex_tree_b_off + 2;
     f_avail := len ex_bytes - (ex_tree_b_off + 2);
     f_start := 0; f_count := 2; f_copy_objoffset := 0 |}.

Definition ex_source_machine : machine :=
  Eval vm_compute in
    match @decode_entries ex_host 19 ex_machine ex_tree_a_off 1 2 (xmallocz 64) true with
    | Done (_, m, _) => m
    | _ => ex_machine
    end.

Definition ex_source_dest : dest :=
  Eval vm_compute in
    match @decode_entries ex_host 19 ex_machine ex_tree_a_off 1 2 (xmallocz 64) true with
    | Done (_, _, d) => d
    | _ => xmallocz 64
    end.

Definition cells_of (bs : list byte) : list cell := map Some bs.

(** ** Further notions *)

(** The dictionary that [load_dict] builds from the records [rs]. *)
Definition dict_of (rs : list (byte * byte * list byte)) : packv4_dict :=
  {| data := encode_records rs ++ [0];
     nb_entries := len rs;
     offsets := record_offsets 0 rs |}.

(** An emitted tree entry: mode, name and hash; ["%o %s%c"] then the 20
    bytes of [hashcpy]. *)
Definition entry_bytes (e : Z * list byte * list byte) : list byte :=
  let '(mode, name, h) := e in entry_text mode name ++ h.

Definition entry_ok (e : Z * list byte * list byte) : Prop :=
  let '(mode, name, h) := e in no_nul name /\ length h = 20%nat.

(** The records of the example identity dictionary. *)
Definition ex_idents : list (byte * byte * list byte) :=
  [(0, 0, bytes_of_string "Alice <a@x> "); (0, 200, bytes_of_string "Bob <b@y> ")].

(** A pack whose first object is a tree of one entry that copies entry 0 of
    object 1: itself. *)
Definition ex_loop_machine : machine :=
  {| handle := ex_pack (ex_prefix ++ [26; 1; 1; 3; 1] ++ repeat 0 20); live := 0 |}.

(** A pack whose first object is a commit with committer index 7, in a
    dictionary of two identities. *)
Definition ex_lost_ident_machine : machine :=
  {| handle := ex_pack (ex_prefix ++ [1; 0; 5; 7; 0; 0] ++ repeat 0 20); live := 0 |}.

(** The frame in which the loop over tree A starts when the entries 1 and 2
    are asked for. *)
Definition ex_frame_a1 : frame :=
  {| f_offset := ex_tree_a_off + 2;
     f_avail := len ex_bytes - (ex_tree_a_off + 2);
     f_start := 1; f_count := 2; f_copy_objoffset := 0 |}.

(** The example machine once the identity dictionary is loaded. *)
Definition ex_ident_machine : machine :=
  set_ident (xmalloc (xmalloc ex_machine)) (dict_of ex_idents) 102.

(** [a] has the pack of [m] and every dictionary that [m] has loaded. *)
Definition pack_le (m a : machine) : Prop :=
  pack_data (handle a) = pack_data (handle m)
  /\ num_objects (handle a) = num_objects (handle m)
  /\ sha1_table (handle a) = sha1_table (handle m)
  /\ (forall d, ident_dict (handle m) = Some d -> ident_dict (handle a) = Some d)
  /\ (forall d, path_dict (handle m) = Some d -> path_dict (handle a) = Some d).

(** The pack index looks at the pack and its hash table only, not at the
    dictionaries the handle has loaded. *)
Definition index_only (host : Host) : Prop :=
  forall (h : list byte) (i : Z) (p p' : packed_git),
    pack_data p = pack_data p' -> num_objects p = num_objects p' ->
    sha1_table p = sha1_table p' ->
    @find_pack_entry_one host h p = @find_pack_entry_one host h p'
    /\ @nth_packed_object_offset host p i = @nth_packed_object_offset host p' i.

(** A recursive call that can be replayed from any state that has the
    dictionaries it ended with. *)
Definition replays (rec : decoder) : Prop :=
  forall m o s c d r m1 d1,
    rec m o s c d = Done (r, m1, d1) ->
    forall a, pack_le m a -> pack_le m1 a -> rec a o s c d = Done (r, a, d1).

(** ** Ranges of a tree *)

(** The window a frame reads through runs to the end of the pack. *)
Definition windowed (p : packed_git) (f : frame) : Prop :=
  frame_window p f = (f_offset f, wrap64 (len (pack_data p) - f_offset f)).

(** Two frames at the same place of the same tree: [fa] still has [s] more
    entries to skip than [fb], and [fb] that many more to emit. *)
Definition ahead (p : packed_git) (s : Z) (fa fb : frame) : Prop :=
  windowed p fa /\ windowed p fb
  /\ f_offset fa = f_offset fb
  /\ f_copy_objoffset fa = f_copy_objoffset fb
  /\ 0 <= s /\ 0 <= f_start fb /\ f_start fa = f_start fb + s /\ f_start fa < 2 ^ 32
  /\ 0 <= f_count fa /\ f_count fb = s + f_count fa /\ f_count fb < 2 ^ 32.

(** ** More example objects *)

(** Tree J: header byte, one entry declared: a copy record for 2 entries of
    object 2 from entry 1. *)
Definition ex_tree_j : list byte := [26; 1] ++ [3; 5; 2].

(** Tree K: header byte, two entries: entry 0 of object 2, then entry 2
    of the same object, the second copy record leaving the source out. *)
Definition ex_tree_k : list byte := [26; 2] ++ [1; 3; 2] ++ [5; 2].

(** Tree P: header byte, one entry, whose path index 7 is past the two
    paths of the dictionary. *)
Definition ex_tree_p : list byte := [26; 1] ++ [14; 1].

Definition ex_tree_j_off : Z := ex_tree_a_off + len ex_tree_a.
Definition ex_tree_k_off : Z := ex_tree_j_off + len ex_tree_j.
Definition ex_tree_p_off : Z := ex_tree_k_off + len ex_tree_k.

Definition ex_bytes2 : list byte :=
  ex_prefix ++ ex_commit ++ ex_tree_a ++ ex_tree_j ++ ex_tree_k ++ ex_tree_p
  ++ repeat 0 20.

Definition ex_machine2 : machine := {| handle := ex_pack ex_bytes2; live := 0 |}.


(** Tree P decoded: the state it leaves. *)
Definition ex_tree_p_machine : machine :=
  Eval vm_compute in
    match @pv4_get_tree ex_host 20 ex_machine2 (ex_tree_p_off + 1) 34 with
    | Done (_, m) => m
    | _ => ex_machine2
    end.

(** * Properties *)

Arguments Z.testbit : simpl never.
Arguments Z.shiftl : simpl never.
Arguments Z.shiftr : simpl never.
Arguments Z.land : simpl never.
Arguments Z.lor : simpl never.
Arguments Z.pow : simpl never.
Arguments Z.modulo : simpl never.
Arguments Z.div : simpl never.
Arguments Z.mul : simpl never.
Arguments Z.add : simpl never.
Arguments Z.sub : simpl never.
Arguments Z.of_nat : simpl never.
Arguments Z.to_nat : simpl never.
Arguments wrap64 : simpl never.
Arguments wrap32 : simpl never.

(** ** Inversion of the outcome monad *)

Lemma obind_done {A B} (x : outcome A) (k : A -> outcome B) (b : B) :
  obind x k = Done b -> exists a, x = Done a /\ k a = Done b.
Proof. destruct x; simpl; intros E; try discriminate. eauto. Qed.

Lemma must_done {A} (x : option A) (a : A) : must x = Done a -> x = Some a.
Proof. destruct x; simpl; congruence. Qed.

Ltac bind_inv H :=
  let a := fresh "a" in
  let E := fresh "E" in
  apply obind_done in H; destruct H as (a & E & H); cbv beta in H.

Ltac must_inv E := apply must_done in E.

Tactic Notation "bind_case" hyp(H) "as" simple_intropattern(pat) ident(E) :=
  apply obind_done in H; destruct H as (pat & E & H); cbv beta iota in H.

(** ** Ranges *)

Lemma wrap32_small (z : Z) : 0 <= z < 2 ^ 32 -> wrap32 z = z.
Proof. intros. unfold wrap32. now apply Z.mod_small. Qed.

Lemma wrap64_small (z : Z) : 0 <= z < 2 ^ 64 -> wrap64 z = z.
Proof. intros. unfold wrap64. now apply Z.mod_small. Qed.

Lemma wrap32_range (z : Z) : 0 <= wrap32 z < 2 ^ 32.
Proof. unfold wrap32. apply Z.mod_pos_bound. lia. Qed.

Lemma wrap64_range (z : Z) : 0 <= wrap64 z < 2 ^ 64.
Proof. unfold wrap64. apply Z.mod_pos_bound. lia. Qed.

Lemma land127_range (c : Z) : 0 <= Z.land c 127 < 128.
Proof.
  change 127 with (Z.ones 7). rewrite Z.land_ones by lia.
  apply Z.mod_pos_bound. lia.
Qed.

Lemma varint_more_range (bs : list byte) :
  forall val n v k, varint_more bs val n = Some (v, k) -> 0 <= v < 2 ^ 64.
Proof.
  induction bs as [|c rest IH]; intros val n v k; simpl.
  - destruct (_ || _); intros E; inversion E; lia.
  - destruct (_ || _) eqn:G.
    + intros E; inversion E; lia.
    + apply orb_false_iff in G. destruct G as [_ G].
      apply Z.leb_gt in G.
      pose proof (wrap64_range (val + 1)) as R.
      pose proof (land127_range c) as L.
      destruct (Z.testbit c 7).
      * apply IH.
      * intros E; inversion E; subst. rewrite Z.shiftl_mul_pow2 by lia. lia.
Qed.

Lemma decode_varint_range (bs : list byte) (v n : Z) :
  decode_varint bs = Some (v, n) -> 0 <= v < 2 ^ 64.
Proof.
  destruct bs as [|c rest]; simpl; [discriminate|].
  destruct (Z.testbit c 7).
  - apply varint_more_range.
  - intros E; inversion E; subst. pose proof (land127_range c). lia.
Qed.

Lemma varint_at_range (p : packed_git) (scp v scp' : Z) :
  varint_at p scp = Done (v, scp') -> 0 <= v < 2 ^ 64.
Proof.
  unfold varint_at. intros E. bind_inv E. bind_inv E. destruct a0.
  must_inv E1. inversion E; subst. eapply decode_varint_range; eauto.
Qed.

Lemma varint_more_consumed (bs : list byte) :
  forall val n v k, varint_more bs val n = Some (v, k) ->
    (v = 0 /\ k = 0) \/ n < k.
Proof.
  induction bs as [|c rest IH]; intros val n v k; cbn [varint_more].
  - destruct (_ || _); intros E; inversion E; auto.
  - destruct (_ || _); [intros E; inversion E; auto|].
    destruct (Z.testbit c 7).
    + intros E. apply IH in E. destruct E; [auto|right; lia].
    + intros E; inversion E; subst. right; lia.
Qed.

Lemma decode_varint_consumed (bs : list byte) (v n : Z) :
  decode_varint bs = Some (v, n) -> (v = 0 /\ n = 0) \/ 0 < n.
Proof.
  destruct bs as [|c rest]; cbn [decode_varint]; [discriminate|].
  destruct (Z.testbit c 7).
  - intros E. apply varint_more_consumed in E. destruct E; [auto|right; lia].
  - intros E; inversion E; subst. right; lia.
Qed.

Lemma varint_at_consumed (p : packed_git) (scp v scp' : Z) :
  varint_at p scp = Done (v, scp') -> (v = 0 /\ scp' = scp) \/ scp < scp'.
Proof.
  unfold varint_at. intros E. bind_inv E. bind_inv E. destruct a0.
  must_inv E1. inversion E; subst. apply decode_varint_consumed in E1.
  destruct E1 as [[-> ->]|]; [left; split; [reflexivity|lia]|right; lia].
Qed.

(** ** Hash references *)

(** The inline form: the hash is the 20 bytes after the tag byte and the
    cursor moves by 21. *)
Lemma get_sha1ref_inline (p : packed_git) (buf : Z) :
  load p (InPack buf) = Some 0 ->
  get_sha1ref p buf = Done (InPack (buf + 1), buf + 21).
Proof. intros E. unfold get_sha1ref. rewrite E. reflexivity. Qed.

(** An index from 1 to [num_objects] designates its entry of the table. *)
Lemma get_sha1ref_index_in_range (p : packed_git) (buf b v buf' : Z) :
  load p (InPack buf) = Some b -> b <> 0 ->
  varint_at p buf = Done (v, buf') ->
  1 <= wrap32 v <= num_objects p -> num_objects p * 20 < 2 ^ 32 ->
  get_sha1ref p buf = Done (InTable ((wrap32 v - 1) * 20), buf').
Proof.
  intros E Hb V R S. unfold get_sha1ref. rewrite E. simpl.
  destruct (Z.eqb_spec b 0); [contradiction|]. rewrite V. simpl.
  rewrite (wrap32_small (wrap32 v - 1)) by (pose proof (wrap32_range v); lia).
  destruct (Z.ltb_spec (wrap32 v) 1); [lia|].
  destruct (Z.gtb_spec (wrap32 v - 1) (num_objects p)); [lia|]. simpl.
  rewrite wrap32_small by lia. reflexivity.
Qed.

(** Index 0 is fatal. *)
Lemma get_sha1ref_index_zero (p : packed_git) (buf b v buf' : Z) :
  load p (InPack buf) = Some b -> b <> 0 ->
  varint_at p buf = Done (v, buf') -> wrap32 v = 0 ->
  get_sha1ref p buf = Die BadIndex.
Proof.
  intros E Hb V Z0. unfold get_sha1ref. rewrite E. simpl.
  destruct (Z.eqb_spec b 0); [contradiction|]. rewrite V. simpl.
  rewrite Z0. reflexivity.
Qed.

(** C3: an indexed hash reference is accepted for 1 <= i <= num_objects and
    rejected for i = 0 and i = num_objects + 1.  The code accepts
    i = num_objects + 1: the test [index - 1 > p->num_objects] lets it
    through, and the pointer returned is the end of the table, where no
    entry lies. *)
Theorem get_sha1ref_index_past_table :
  forall (p : packed_git) (buf b v buf' : Z),
    load p (InPack buf) = Some b -> b <> 0 ->
    varint_at p buf = Done (v, buf') ->
    0 <= num_objects p -> num_objects p * 20 < 2 ^ 32 ->
    len (sha1_table p) = num_objects p * 20 ->
    wrap32 v = num_objects p + 1 ->
    get_sha1ref p buf = Done (InTable (num_objects p * 20), buf')
    /\ load_n p (InTable (num_objects p * 20)) 20 = None.
Proof.
  intros p buf b v buf' E Hb V N0 S T I. split.
  - unfold get_sha1ref. rewrite E. simpl.
    destruct (Z.eqb_spec b 0); [contradiction|]. rewrite V. simpl.
    rewrite I. replace (num_objects p + 1 - 1) with (num_objects p) by lia.
    rewrite (wrap32_small (num_objects p)) by lia.
    destruct (Z.ltb_spec (num_objects p + 1) 1); [lia|].
    destruct (Z.gtb_spec (num_objects p) (num_objects p)); [lia|]. simpl.
    rewrite wrap32_small by lia. reflexivity.
  - unfold load_n, mem_from, at_off. rewrite T.
    destruct (_ && _); [|reflexivity].
    rewrite skipn_all2; [reflexivity|]. unfold len in T. lia.
Qed.

Lemma get_sha1ref_index_past_table_witness :
  get_sha1ref (ex_pack [4]) 0 = Done (InTable 60, 1)
  /\ load_n (ex_pack [4]) (InTable 60) 20 = None.
Proof.
  apply (get_sha1ref_index_past_table (ex_pack [4]) 0 4 4 1);
    try reflexivity; simpl; lia.
Defined.

(** ** Lists and blocks *)

Lemma len_app {A} (l1 l2 : list A) : len (l1 ++ l2) = len l1 + len l2.
Proof. unfold len. rewrite length_app. lia. Qed.

Lemma len_nonneg {A} (l : list A) : 0 <= len l.
Proof. unfold len. lia. Qed.

Lemma len_repeat {A} (x : A) (n : nat) : len (repeat x n) = Z.of_nat n.
Proof. unfold len. now rewrite repeat_length. Qed.

Lemma at_off_app {A} (pre l : list A) : at_off (pre ++ l) (len pre) = Some l.
Proof.
  unfold at_off. rewrite len_app.
  pose proof (len_nonneg pre). pose proof (len_nonneg l).
  destruct (Z.leb_spec 0 (len pre)); [|lia].
  destruct (Z.leb_spec (len pre) (len pre + len l)); [|lia]. simpl.
  unfold len. rewrite Nat2Z.id. rewrite skipn_app, skipn_all, Nat.sub_diag.
  reflexivity.
Qed.

Lemma until_nul_string (s rest : list byte) :
  no_nul s -> until_nul (s ++ 0 :: rest) = Some s.
Proof.
  induction 1 as [|c s Hc Hs IH]; simpl; [reflexivity|].
  destruct (Z.eqb_spec c 0); [contradiction|]. now rewrite IH.
Qed.

(** ** The dictionary loader *)

Section Loader.

Context {host : Host}.

Lemma strlen_in_record (pre : list byte) (a b : byte) (s rest : list byte) :
  no_nul s ->
  strlen_in (pre ++ dict_record (a, b, s) ++ rest) (len pre + 2) = Some (len s).
Proof.
  intros Hs. unfold strlen_in, dict_record.
  replace (pre ++ (a :: b :: s ++ [0]) ++ rest)
    with ((pre ++ [a; b]) ++ s ++ 0 :: rest)
    by (rewrite <- !app_assoc; simpl; rewrite <- app_assoc; reflexivity).
  replace (len pre + 2) with (len (pre ++ [a; b])) by (rewrite len_app; reflexivity).
  rewrite at_off_app, until_nul_string by assumption. reflexivity.
Qed.

Lemma len_dict_record (r : byte * byte * list byte) :
  len (dict_record r) = 2 + len (snd r) + 1.
Proof.
  destruct r as [[a b] s]. unfold dict_record, len. simpl.
  rewrite length_app. simpl. lia.
Qed.

Lemma len_encode_records (rs : list (byte * byte * list byte)) :
  3 * len rs <= len (encode_records rs).
Proof.
  induction rs as [|r rs IH]; [unfold len; simpl; lia|].
  unfold encode_records in *. simpl. rewrite len_app, len_dict_record.
  pose proof (len_nonneg (snd r)). unfold len in *. simpl length. lia.
Qed.

(** The first pass walks whole records as long as they start before
    [dict_size - 3], and stops at the first one that does not. *)
Lemma count_entries_walk (rs : list (byte * byte * list byte)) :
  forall (fuel : nat) (pre rest : list byte) (dict_size nb : Z),
    (length rs < fuel)%nat ->
    Forall well_formed_record rs ->
    len pre + len (encode_records rs) = dict_size - 3 ->
    count_entries fuel (pre ++ encode_records rs ++ rest) dict_size (len pre) nb
    = Done (dict_size - 3, nb + len rs).
Proof.
  induction rs as [|r rs IH]; intros fuel pre rest dict_size nb F W L.
  - destruct fuel; [simpl in F; lia|]. simpl.
    unfold encode_records, len in L. simpl in L.
    destruct (Z.ltb_spec (len pre) (dict_size - 3)); [unfold len in *; lia|].
    unfold len in *. simpl. f_equal. f_equal; lia.
  - destruct fuel; [simpl in F; lia|].
    inversion W as [|? ? Wr Wrs]; subst.
    destruct r as [[a b] s]. unfold well_formed_record in Wr. simpl in Wr.
    unfold encode_records in *. cbn [flat_map] in *.
    rewrite len_app, len_dict_record in L. simpl snd in L.
    pose proof (len_nonneg s). pose proof (len_nonneg (flat_map dict_record rs)).
    cbn [count_entries].
    destruct (Z.ltb_spec (len pre) (dict_size - 3)); [|lia].
    rewrite <- app_assoc. rewrite strlen_in_record by assumption. cbn [obind must].
    replace (len pre + 2 + len s + 1) with (len (pre ++ dict_record (a, b, s)))
      by (rewrite len_app, len_dict_record; simpl; lia).
    replace (pre ++ dict_record (a, b, s) ++ flat_map dict_record rs ++ rest)
      with ((pre ++ dict_record (a, b, s)) ++ flat_map dict_record rs ++ rest)
      by (rewrite <- app_assoc; reflexivity).
    rewrite IH.
    + f_equal. f_equal. unfold len. simpl length. lia.
    + simpl in F. lia.
    + assumption.
    + rewrite len_app, len_dict_record. simpl. lia.
Qed.

(** The first pass never runs out of the fuel [load_dict] gives it: every
    iteration moves [cp] by at least 3. *)
Lemma count_entries_terminates (blk : list byte) (dict_size : Z) (fuel : nat) :
  forall cp nb,
    dict_size - cp <= 3 * (Z.of_nat fuel + 1) ->
    count_entries (S fuel) blk dict_size cp nb <> OutOfFuel.
Proof.
  induction fuel as [|g IH]; intros cp nb B; cbn [count_entries].
  - destruct (Z.ltb_spec cp (dict_size - 3)); [lia|discriminate].
  - destruct (Z.ltb_spec cp (dict_size - 3)); [|discriminate].
    unfold strlen_in. destruct (at_off blk (cp + 2)) as [bs|]; [|discriminate].
    destruct (until_nul bs) as [s|]; [|discriminate].
    cbn [option_map must obind]. apply IH. pose proof (len_nonneg s). lia.
Qed.

Lemma count_entries_walk_all (rs : list (Z * Z * list Z)) :
  forall (fuel : nat) (pre rest : list Z) (a b : Z) (s : list Z) (dict_size nb : Z),
    (length rs + 1 < fuel)%nat ->
    Forall well_formed_record rs -> no_nul s -> s <> [] ->
    len pre + len (encode_records (rs ++ [(a, b, s)])) = dict_size ->
    count_entries fuel (pre ++ encode_records (rs ++ [(a, b, s)]) ++ rest) dict_size
                  (len pre) nb
    = Done (dict_size, nb + len rs + 1).
Proof.
  induction rs as [|r rs IH]; intros fuel pre rest a b s dict_size nb F W Ns Ne L.
  - destruct fuel as [|[|fuel]]; [simpl in F; lia|simpl in F; lia|].
    unfold encode_records in *. cbn [app flat_map] in *. rewrite app_nil_r in *.
    rewrite len_dict_record in L. cbn [snd] in L.
    assert (0 < len s) by (destruct s; [contradiction|unfold len; simpl; lia]).
    cbn [count_entries].
    destruct (Z.ltb_spec (len pre) (dict_size - 3)); [|lia].
    rewrite strlen_in_record by assumption. cbn [obind must].
    destruct (Z.ltb_spec (len pre + 2 + len s + 1) (dict_size - 3)); [lia|].
    f_equal. f_equal; [lia|]. unfold len. simpl. lia.
  - destruct fuel; [simpl in F; lia|].
    apply Forall_cons_iff in W. destruct W as [Wr Wrs].
    destruct r as [[a0 b0] s0]. unfold well_formed_record in Wr. simpl in Wr.
    unfold encode_records in *. cbn [app flat_map] in *.
    rewrite len_app, len_dict_record in L. cbn [snd] in L.
    pose proof (len_nonneg s0).
    assert (3 <= len (flat_map dict_record (rs ++ [(a, b, s)]))).
    { rewrite flat_map_app, len_app. cbn [flat_map]. rewrite app_nil_r, len_dict_record.
      pose proof (len_nonneg (flat_map dict_record rs)). pose proof (len_nonneg s).
      cbn [snd]. lia. }
    cbn [count_entries].
    destruct (Z.ltb_spec (len pre) (dict_size - 3)); [|lia].
    rewrite <- app_assoc. rewrite strlen_in_record by assumption. cbn [obind must].
    replace (len pre + 2 + len s0 + 1) with (len (pre ++ dict_record (a0, b0, s0)))
      by (rewrite len_app, len_dict_record; simpl; lia).
    replace (pre ++ dict_record (a0, b0, s0) ++ flat_map dict_record (rs ++ [(a, b, s)]) ++ rest)
      with ((pre ++ dict_record (a0, b0, s0)) ++ flat_map dict_record (rs ++ [(a, b, s)]) ++ rest)
      by (rewrite <- app_assoc; reflexivity).
    rewrite IH; auto.
    + f_equal. f_equal. unfold len. simpl length. lia.
    + simpl in F. lia.
    + rewrite len_app, len_dict_record. simpl. lia.
Qed.

Lemma entry_offsets_walk (rs : list (Z * Z * list Z)) :
  forall (pre rest : list Z),
    Forall well_formed_record rs ->
    entry_offsets (length rs) (pre ++ encode_records rs ++ rest) (len pre)
    = Done (record_offsets (len pre) rs).
Proof.
  induction rs as [|r rs IH]; intros pre rest W; cbn [length entry_offsets record_offsets];
    [reflexivity|].
  inversion W as [|? ? Wr Wrs]; subst.
  destruct r as [[a b] s]. unfold well_formed_record in Wr. simpl in Wr.
  unfold encode_records in *. cbn [flat_map].
  rewrite <- app_assoc. rewrite strlen_in_record by assumption. cbn [obind must].
  replace (len pre + 2 + len s + 1) with (len (pre ++ dict_record (a, b, s)))
    by (rewrite len_app, len_dict_record; simpl; lia).
  replace (pre ++ dict_record (a, b, s) ++ flat_map dict_record rs ++ rest)
    with ((pre ++ dict_record (a, b, s)) ++ flat_map dict_record rs ++ rest)
    by (rewrite <- app_assoc; reflexivity).
  rewrite IH by assumption. cbn [obind]. rewrite len_app. reflexivity.
Qed.

(** A dictionary whose last record has a string of at least one byte is
    loaded, with one entry for each record. *)
Lemma load_dict_accepts (fuel : nat) (m : machine) (offset dict_size cp curpos1 : Z)
    (rs : list (Z * Z * list Z)) (a b : Z) (s out : list Z) :
  out = encode_records (rs ++ [(a, b, s)]) ->
  Forall well_formed_record rs -> no_nul s -> s <> [] ->
  dict_size = len out -> dict_size < 2 ^ 64 ->
  varint_at (handle m) offset = Done (dict_size, cp) ->
  inflate_loop fuel (handle m) git_inflate_init (offset + (cp - offset))
               (wrap64 (dict_size + 1)) [] = Done (Z_STREAM_END, out, curpos1) ->
  load_dict fuel m offset
  = Done (Some ({| data := out ++ [0]; nb_entries := len rs + 1;
                   offsets := record_offsets 0 (rs ++ [(a, b, s)]) |}, curpos1),
          xmalloc (xmalloc m)).
Proof.
  intros Hout W Ns Ne Hsize Hlt V I.
  assert (Wall : Forall well_formed_record (rs ++ [(a, b, s)])).
  { apply Forall_app. split; [assumption|]. constructor; [exact Ns|constructor]. }
  pose proof (len_encode_records (rs ++ [(a, b, s)])) as Hrs.
  assert (Hl : len (rs ++ [(a, b, s)]) = len rs + 1) by (rewrite len_app; reflexivity).
  pose proof (len_nonneg rs) as Hn. pose proof (len_nonneg out) as Ho.
  assert (H3 : 3 <= len out) by (rewrite Hout; lia).
  assert (Hcount : count_entries (length (out ++ [0])) (out ++ [0]) dict_size 0 0
                   = Done (dict_size, len rs + 1)).
  { rewrite Hout at 2.
    replace (encode_records (rs ++ [(a, b, s)]) ++ [0])
      with ([] ++ encode_records (rs ++ [(a, b, s)]) ++ [0]) by reflexivity.
    apply (count_entries_walk_all rs _ [] [0] a b s dict_size 0); auto.
    - rewrite length_app. rewrite <- Hout in Hrs. unfold len in *. simpl. lia.
    - change (len (@nil Z)) with 0. rewrite <- Hout. lia. }
  assert (Hoff : entry_offsets (Z.to_nat (len rs + 1)) (out ++ [0]) 0
                 = Done (record_offsets 0 (rs ++ [(a, b, s)]))).
  { replace (Z.to_nat (len rs + 1)) with (length (rs ++ [(a, b, s)]))
      by (unfold len in *; lia).
    rewrite Hout.
    apply (entry_offsets_walk (rs ++ [(a, b, s)]) [] [0] Wall). }
  assert (Hstore : exists blk1, store (room (xmallocz dict_size)) 0 out = Done blk1).
  { unfold store, xmallocz. cbn [room]. rewrite len_app, len_repeat.
    change (len [Some 0]) with 1. rewrite Z2Nat.id by lia.
    destruct (Z.leb_spec (0 + len out) (dict_size + 1)); [|lia].
    simpl. eauto. }
  destruct Hstore as [blk1 Hstore].
  unfold load_dict, use_pack. rewrite V. cbn [obind].
  destruct (Z.ltb_spec dict_size 3); [lia|].
  rewrite I. cbn [obind]. rewrite Hstore. cbn [obind].
  rewrite wrap64_small by lia.
  destruct (Z.eqb_spec (len out) dict_size); [|lia]. simpl negb. cbn [orb].
  rewrite Hcount. cbn [obind].
  rewrite Z.eqb_refl. cbn [negb]. rewrite Hoff. reflexivity.
Qed.

(** C4: the loader accepts a dictionary exactly when the size is at least 3,
    inflate ends the stream with that many bytes and the walk over the
    records ends at the end of the data; a size-3 dictionary and a dictionary
    whose last record is a minimal 3-byte record are accepted.  The code
    rejects them: its first pass stops at [data + dict_size - 3], before the
    last record when that one has an empty string, and the size test
    that follows fails. *)
Theorem load_dict_rejects_minimal_last_record :
  forall (fuel : nat) (m : machine) (offset dict_size cp curpos1 : Z)
         (rs : list (byte * byte * list byte)) (a b : byte) (out : list byte),
    out = encode_records rs ++ dict_record (a, b, []) ->
    Forall well_formed_record rs ->
    dict_size = len out -> dict_size < 2 ^ 64 ->
    varint_at (handle m) offset = Done (dict_size, cp) ->
    inflate_loop fuel (handle m) git_inflate_init (offset + (cp - offset))
                 (wrap64 (dict_size + 1)) [] = Done (Z_STREAM_END, out, curpos1) ->
    load_dict fuel m offset = Done (None, free (xmalloc m)).
Proof.
  intros fuel m offset dict_size cp curpos1 rs a b out Hout W Hsize Hlt V I.
  assert (Hrec : len out = len (encode_records rs) + 3).
  { rewrite Hout, len_app, len_dict_record. simpl. unfold len. simpl. lia. }
  pose proof (len_encode_records rs) as Hrs. pose proof (len_nonneg rs) as Hn.
  assert (Hcount : count_entries (length (out ++ [0])) (out ++ [0]) dict_size 0 0
                   = Done (dict_size - 3, len rs)).
  { rewrite Hout at 2.
    replace ((encode_records rs ++ dict_record (a, b, [])) ++ [0])
      with ([] ++ encode_records rs ++ (dict_record (a, b, []) ++ [0]))
      by (simpl; rewrite <- app_assoc; reflexivity).
    apply (count_entries_walk rs _ [] _ dict_size 0).
    - rewrite length_app. unfold len in *. simpl. lia.
    - assumption.
    - change (len (@nil byte)) with 0. lia. }
  assert (Hstore : exists blk1, store (room (xmallocz dict_size)) 0 out = Done blk1).
  { unfold store, xmallocz. cbn [room]. rewrite len_app, len_repeat.
    change (len [Some 0]) with 1. rewrite Z2Nat.id by lia.
    destruct (Z.leb_spec (0 + len out) (dict_size + 1)); [|lia].
    simpl. eauto. }
  destruct Hstore as [blk1 Hstore].
  unfold load_dict, use_pack. rewrite V. cbn [obind].
  destruct (Z.ltb_spec dict_size 3); [lia|].
  rewrite I. cbn [obind]. rewrite Hstore. cbn [obind].
  rewrite wrap64_small by lia.
  destruct (Z.eqb_spec (len out) dict_size); [|lia]. simpl negb. cbn [orb].
  rewrite Hcount. cbn [obind].
  destruct (Z.eqb_spec (dict_size - 3) dict_size); [lia|]. reflexivity.
Qed.

End Loader.

Lemma load_dict_rejects_minimal_last_record_witness :
  @load_dict ex_host 3 ex_small_dict_machine 72
  = Done (None, free (xmalloc ex_small_dict_machine)).
Proof.
  apply (@load_dict_rejects_minimal_last_record ex_host 3 ex_small_dict_machine
           72 3 73 77 [] 0 0 [0; 0; 0]); try reflexivity.
  constructor.
Defined.

(** ** Stores and emit steps *)

Lemma store_length (r : list cell) (off : Z) (bs : list byte) (r' : list cell) :
  store r off bs = Done r' -> length r' = length r.
Proof.
  unfold store. destruct (_ && _) eqn:G; [|discriminate].
  apply andb_true_iff in G. destruct G as [G1 G2].
  apply Z.leb_le in G1, G2. unfold len in G2.
  intros E; inversion E; subst.
  rewrite !length_app, length_map, length_firstn, length_skipn. lia.
Qed.

Lemma store_head (r : list cell) (bs : list byte) :
  len bs <= len r ->
  store r 0 bs = Done (map Some bs ++ skipn (length bs) r).
Proof.
  intros L. unfold store. pose proof (len_nonneg bs).
  destruct (Z.leb_spec 0 0); [|lia].
  destruct (Z.leb_spec (0 + len bs) (len r)); [|lia]. reflexivity.
Qed.

Lemma skipn_app_cell {A} (n : nat) (l1 l2 : list A) :
  (n <= length l1)%nat -> skipn n (l1 ++ l2) = skipn n l1 ++ l2.
Proof.
  intros L. rewrite skipn_app. replace (n - length l1)%nat with O by lia.
  reflexivity.
Qed.

Lemma firstn_map_app {A B} (g : A -> B) (l : list A) (rest : list B) :
  firstn (length l) (map g l ++ rest) = map g l.
Proof.
  rewrite firstn_app, length_map, Nat.sub_diag. simpl. rewrite app_nil_r.
  rewrite <- (length_map g l). apply firstn_all.
Qed.

Lemma skipn_map_app {A B} (g : A -> B) (l : list A) (rest : list B) :
  skipn (length l) (map g l ++ rest) = rest.
Proof.
  rewrite skipn_app, length_map, Nat.sub_diag. simpl.
  rewrite <- (length_map g l) at 1. rewrite skipn_all. reflexivity.
Qed.

Lemma snprintf_result (d d1 : dest) (text : list byte) (l : Z) :
  snprintf d text = Done (d1, l) ->
  l = len text /\ sizep d1 = sizep d /\ emitted d1 = emitted d
  /\ length (room d1) = length (room d).
Proof.
  unfold snprintf. intros E. bind_inv E. inversion E; subst. cbn.
  apply store_length in E0. auto.
Qed.

(** A line that fits: what [snprintf] followed by [dcp += len; size -= len]
    does to a destination. *)
Lemma emit_fits (total : Z) (d : dest) (text : list byte) :
  total < 2 ^ 64 -> dest_inv total d -> len text < sizep d ->
  exists d1 d2,
    snprintf d text = Done (d1, len text)
    /\ advance d1 (len text) = Done d2
    /\ dest_inv total d2
    /\ emitted d2 = emitted d ++ map Some text
    /\ sizep d2 = sizep d - len text.
Proof.
  intros T (bs & junk & He & Hr & Hj & Ht) L.
  pose proof (len_nonneg text) as Nt. pose proof (len_nonneg bs) as Nb.
  unfold snprintf.
  destruct (Z.eqb_spec (sizep d) 0); [lia|].
  rewrite Z.min_l by lia. unfold len at 1. rewrite Nat2Z.id, firstn_all.
  rewrite store_head
    by (rewrite Hr, !len_app; change (len [0]) with 1; change (len [Some 0]) with 1; lia).
  cbn [obind]. eexists _, _. split; [reflexivity|].
  unfold advance. cbn [room emitted sizep].
  assert (Lj : (length text + 1 <= length junk)%nat) by (unfold len in *; lia).
  rewrite Hr, length_app, map_app, <- app_assoc. cbn [length map app].
  rewrite skipn_app_cell by lia.
  destruct (Z.leb_spec 0 (len text)); [|lia].
  match goal with |- context [len text <=? ?x] => destruct (Z.leb_spec (len text) x) as [|G] end.
  2:{ exfalso. rewrite len_app in G. unfold len in G. rewrite length_map in G. lia. }
  cbn [andb]. unfold len at 1 2. rewrite Nat2Z.id.
  rewrite firstn_map_app, skipn_map_app.
  split; [reflexivity|]. cbn [emitted room sizep].
  rewrite wrap64_small by lia.
  split; [|split; reflexivity].
  exists (bs ++ text), (Some 0 :: skipn (length text + 1) junk).
  rewrite He, map_app. split; [reflexivity|]. split; [reflexivity|].
  rewrite len_app. unfold len in *. cbn [length].
  rewrite length_skipn. cbn [sizep]. lia.
Qed.

Lemma emit_checked_inv (total : Z) (d d' : dest) (text : list byte) :
  total < 2 ^ 64 -> dest_inv total d ->
  emit_checked d text = Done d' ->
  dest_inv total d' /\ emitted d' = emitted d ++ map Some text.
Proof.
  intros T I E. unfold emit_checked in E.
  destruct (Z.ltb_spec (len text) (sizep d)) as [L|L].
  - destruct (emit_fits total d text T I L) as (d1 & d2 & S1 & A & I2 & E2 & _).
    rewrite S1 in E. cbn [obind] in E.
    apply snprintf_result in S1. destruct S1 as (_ & S1 & _). rewrite S1 in E.
    destruct (Z.geb_spec (len text) (sizep d)); [lia|].
    rewrite A in E. inversion E; subst. auto.
  - bind_inv E. destruct a as [d1 l].
    apply snprintf_result in E0. destruct E0 as (-> & S1 & _). rewrite S1 in E.
    destruct (Z.geb_spec (len text) (sizep d)); [discriminate|lia].
Qed.

Lemma emit_checked_dead (d d' : dest) (text : list byte) :
  dead d -> emit_checked d text <> Done d'.
Proof.
  intros D E. unfold emit_checked in E. bind_inv E. destruct a as [d1 l].
  pose proof E0 as S. apply snprintf_result in S. destruct S as (-> & S1 & _ & S2).
  rewrite S1 in E. pose proof (len_nonneg text).
  destruct D as [D|D].
  - rewrite D in E. destruct (Z.geb_spec (len text) 0); [discriminate|lia].
  - unfold snprintf in E0. rewrite D in E0.
    destruct (Z.eqb_spec (sizep d) 0) as [Z0|Z0].
    + rewrite Z0 in E. destruct (Z.geb_spec (len text) 0); [discriminate|lia].
    + unfold store in E0. rewrite len_app in E0. change (len [0]) with 1 in E0.
      change (len (@nil cell)) with 0 in E0.
      match type of E0 with context [0 + ?a <=? 0] => destruct (Z.leb_spec (0 + a) 0) as [G|G] end.
      * pose proof (len_nonneg (firstn (Z.to_nat (Z.min (len text) (sizep d - 1))) text)). lia.
      * rewrite andb_false_r in E0. discriminate.
Qed.

Lemma emit_tree_line_inv (total : Z) (d d' : dest) (text : list byte) :
  total < 2 ^ 64 -> dest_inv total d ->
  emit_tree_line d text = Done d' ->
  (dest_inv total d' /\ emitted d' = emitted d ++ map Some text) \/ dead d'.
Proof.
  intros T I E. unfold emit_tree_line in E.
  destruct (Z.ltb_spec (len text) (sizep d)) as [L|L].
  - left. destruct (emit_fits total d text T I L) as (d1 & d2 & S1 & A & I2 & E2 & _).
    rewrite S1 in E. cbn [obind] in E. rewrite A in E. inversion E; subst. auto.
  - right. bind_inv E. destruct a as [d1 l].
    apply snprintf_result in E0. destruct E0 as (-> & S1 & _ & S2).
    destruct I as (bs & junk & He & Hr & Hj & Ht).
    unfold advance in E. destruct (_ && _) eqn:G; [|discriminate].
    apply andb_true_iff in G. destruct G as [G1 G2]. apply Z.leb_le in G1, G2.
    inversion E; subst; clear E. unfold dead. cbn [sizep room].
    assert (R : len (room d1) = sizep d + 1).
    { unfold len. rewrite S2, Hr, length_app. cbn [length]. unfold len in Hj. lia. }
    assert (C : len text = sizep d \/ len text = sizep d + 1) by lia.
    destruct C as [C|C].
    + left. rewrite S1, C, Z.sub_diag. reflexivity.
    + right. apply skipn_all2. unfold len in *. lia.
Qed.

(** A store that stays clear of the final NUL rewrites the cells before it
    and keeps their number. *)
Lemma store_within (junk rest : list (option Z)) (off : Z) (bs : list Z) :
  0 <= off -> off + len bs <= len junk ->
  store (junk ++ rest) off bs
  = Done ((firstn (Z.to_nat off) junk ++ map Some bs
           ++ skipn (Z.to_nat off + length bs) junk) ++ rest).
Proof.
  intros Ho L. unfold store. rewrite len_app. pose proof (len_nonneg rest).
  destruct (Z.leb_spec 0 off); [|lia].
  destruct (Z.leb_spec (off + len bs) (len junk + len rest)); [|lia].
  cbn [andb]. f_equal.
  assert (A : (Z.to_nat off <= length junk)%nat) by (unfold len in *; lia).
  assert (B : (Z.to_nat off + length bs <= length junk)%nat) by (unfold len in *; lia).
  rewrite firstn_app. replace (Z.to_nat off - length junk)%nat with O by lia.
  cbn [firstn]. rewrite app_nil_r.
  rewrite skipn_app. replace (Z.to_nat off + length bs - length junk)%nat with O by lia.
  cbn [skipn]. rewrite <- !app_assoc. reflexivity.
Qed.

Lemma snprintf_inv (total : Z) (d d1 : dest) (text : list Z) (l : Z) :
  dest_inv total d -> 0 <= sizep d -> snprintf d text = Done (d1, l) -> dest_inv total d1.
Proof.
  intros (bs & junk & He & Hr & Hj & Ht) S E. unfold snprintf in E.
  set (stored := if sizep d =? 0 then []
                 else firstn (Z.to_nat (Z.min (len text) (sizep d - 1))) text ++ [0]) in *.
  assert (Ls : len stored <= len junk).
  { subst stored. destruct (Z.eqb_spec (sizep d) 0).
    - change (len (@nil Z)) with 0. apply len_nonneg.
    - rewrite len_app. change (len [0]) with 1. unfold len at 1.
      rewrite length_firstn. pose proof (len_nonneg text). unfold len in *. lia. }
  rewrite Hr, store_within in E by lia. cbn [obind] in E.
  inversion E; subst; clear E.
  eexists bs, _. cbn [emitted room sizep]. split; [assumption|].
  split; [reflexivity|]. split; [|reflexivity].
  unfold len in *. rewrite !length_app, length_map, length_skipn. lia.
Qed.

(** An entry that fits: the text, then the hash over the NUL that ended the
    text, then the pointer moves past both. *)
Lemma emit_entry_fits (total : Z) (d d1 : dest) (text h : list Z) (l : Z) :
  total < 2 ^ 64 -> dest_inv total d -> length h = 20%nat ->
  snprintf d text = Done (d1, l) -> l + 20 <= sizep d1 ->
  exists r d2,
    store (room d1) l h = Done r
    /\ advance {| emitted := emitted d1; room := r; sizep := sizep d1 |} (l + 20) = Done d2
    /\ dest_inv total d2
    /\ emitted d2 = emitted d ++ map Some (text ++ h)
    /\ sizep d2 = sizep d - (len text + 20).
Proof.
  intros T I Hh E L.
  pose proof (snprintf_result _ _ _ _ E) as (-> & S1 & S3 & _).
  rewrite S1 in L. pose proof (len_nonneg text) as Nt.
  destruct (emit_fits total d text T I ltac:(lia)) as (d1' & d2' & E' & A' & I2 & Em2 & S2).
  rewrite E in E'. inversion E'; subst d1'; clear E'.
  (* the room after the text *)
  destruct I as (bs & junk & He & Hr & Hj & Ht).
  unfold snprintf in E. destruct (Z.eqb_spec (sizep d) 0); [lia|].
  rewrite Z.min_l in E by lia. unfold len in E at 1. rewrite Nat2Z.id, firstn_all in E.
  rewrite Hr, store_within in E
    by (try rewrite len_app; change (len [0]) with 1; lia).
  cbn [obind] in E. inversion E; subst d1; clear E.
  cbn [room emitted sizep] in *. change (Z.to_nat 0) with O. cbn [firstn app].
  set (junk1 := map Some (text ++ [0]) ++ skipn (length (text ++ [0])) junk).
  assert (L1 : length junk1 = length junk).
  { subst junk1. rewrite length_app, length_map, length_skipn, length_app.
    cbn [length]. unfold len in *. lia. }
  rewrite store_within by (unfold len in *; lia).
  eexists _, _. split; [reflexivity|].
  assert (F : firstn (Z.to_nat (len text)) junk1 = map Some text).
  { subst junk1. rewrite map_app, <- app_assoc. unfold len. rewrite Nat2Z.id.
    apply firstn_map_app. }
  rewrite F.
  set (X := skipn (Z.to_nat (len text) + length h) junk1).
  assert (LX : len X = sizep d - (len text + 20)).
  { subst X. unfold len in *. rewrite length_skipn, L1, Hh. lia. }
  unfold advance. cbn [room emitted sizep].
  replace ((map Some text ++ map Some h ++ X) ++ [Some 0])
    with (map Some (text ++ h) ++ X ++ [Some 0])
    by (rewrite map_app, <- !app_assoc; reflexivity).
  assert (Lth : Z.to_nat (len text + 20) = length (text ++ h)).
  { rewrite length_app, Hh. unfold len. lia. }
  destruct (Z.leb_spec 0 (len text + 20)); [|lia].
  match goal with |- context [len text + 20 <=? ?x] =>
    destruct (Z.leb_spec (len text + 20) x) as [|G] end.
  2:{ exfalso. rewrite !len_app in G. unfold len in G. rewrite length_map, length_app in G.
      cbn [length] in G. unfold len in LX. lia. }
  cbn [andb]. rewrite Lth, firstn_map_app, skipn_map_app.
  split; [reflexivity|]. cbn [emitted room sizep].
  pose proof (len_nonneg bs). pose proof (len_nonneg X).
  rewrite wrap64_small by lia.
  split; [|split; reflexivity].
  exists (bs ++ text ++ h), X. cbn [emitted room sizep].
  split; [rewrite He, !map_app; reflexivity|]. split; [reflexivity|].
  split; [lia|]. rewrite !len_app. unfold len at 3. rewrite Hh. lia.
Qed.

Lemma load_n_length (p : packed_git) (q : ptr) (n : nat) (h : list Z) :
  load_n p q n = Some h -> length h = n.
Proof.
  unfold load_n. destruct (mem_from p q); [|discriminate].
  destruct (Nat.leb_spec n (length l)); [|discriminate].
  intros E; inversion E. apply firstn_length_le. assumption.
Qed.

Lemma dest_inv_sizep (total : Z) (d : dest) : dest_inv total d -> 0 <= sizep d.
Proof. intros (bs & junk & _ & _ & Hj & _). rewrite <- Hj. apply len_nonneg. Qed.

Lemma xmallocz_inv (size : Z) : 0 <= size -> dest_inv size (xmallocz size).
Proof.
  intros S. exists [], (repeat None (Z.to_nat size)). unfold xmallocz. cbn.
  rewrite len_repeat. repeat split; lia.
Qed.

Lemma author_time_of_spec (ct d : Z) : author_time_of ct d = spec_author_time ct d.
Proof.
  unfold author_time_of, spec_author_time, wrap64.
  rewrite Z.bit0_odd, Z.shiftr_div_pow2 by lia. reflexivity.
Qed.

(** ** The commit reconstructor *)

Section Commit.
Context {host : Host}.

Lemma emit_parents_inv (total : Z) (p : packed_git) (n : nat) :
  forall scp d scp' d',
    total < 2 ^ 64 -> dest_inv total d ->
    emit_parents n p scp d = Done (scp', d') ->
    exists hs, parse_parents n p scp = Done (hs, scp')
               /\ dest_inv total d'
               /\ emitted d' = emitted d ++ map Some (flat_map parent_line hs).
Proof.
  induction n as [|n IH]; intros scp d scp' d' T I E; cbn [emit_parents] in E.
  - inversion E; subst. exists []. cbn. rewrite app_nil_r. auto.
  - bind_inv E. destruct a as [sha1 scp1]. bind_inv E. bind_inv E.
    apply (emit_checked_inv total) in E2; auto. destruct E2 as [I2 Em].
    destruct (IH _ _ _ _ T I2 E) as (hs & PP & I3 & Em3).
    exists (a :: hs). cbn [parse_parents]. rewrite E0. cbn [obind].
    rewrite E1. cbn [obind must]. rewrite PP. cbn [obind].
    split; [reflexivity|]. split; [assumption|].
    rewrite Em3, Em. cbn [flat_map]. rewrite map_app, app_assoc. reflexivity.
Qed.

Lemma emit_parents_dead (p : packed_git) (n : nat) (scp : Z) (d : dest) scp' d' :
  dead d -> emit_parents n p scp d = Done (scp', d') -> dead d'.
Proof.
  intros D E. destruct n; cbn [emit_parents] in E.
  - inversion E; subst. assumption.
  - exfalso. bind_inv E. destruct a as [sha1 scp1]. bind_inv E. bind_inv E.
    exact (emit_checked_dead _ _ _ D E2).
Qed.

Lemma dict_ref_loaded mk d index q :
  dict_ref mk d index = Done q -> exists dct, d = Some dct.
Proof. destruct d; [eauto|discriminate]. Qed.

Lemma get_identref_loaded fuel m scp q scp' m1 :
  get_identref fuel m scp = Done (q, scp', m1) ->
  exists dct, ident_dict (handle m1) = Some dct.
Proof.
  unfold get_identref. intros E. bind_inv E. bind_inv E. destruct a0.
  bind_inv E. inversion E; subst. eapply dict_ref_loaded; eauto.
Qed.

Lemma get_identref_again fuel m scp q scp' m1 dct :
  ident_dict (handle m) = Some dct ->
  get_identref fuel m scp = Done (q, scp', m1) -> m1 = m.
Proof.
  unfold get_identref, ensure_ident_dict. intros L E. rewrite L in E.
  cbn [obind] in E. bind_inv E. destruct a. bind_inv E. inversion E; subst.
  reflexivity.
Qed.

Lemma pv4_get_commit_success fuel m offset size blk m' :
  0 <= size < 2 ^ 64 ->
  pv4_get_commit fuel m offset size = Done (Some blk, m') ->
  exists f msg curpos,
    parse_commit fuel (xmalloc m) offset = Done (f, m')
    /\ inflate_loop fuel (handle m') git_inflate_init (c_body f)
                    (wrap64 (len msg + 1)) [] = Done (Z_STREAM_END, msg, curpos)
    /\ blk = map Some (commit_header_text f ++ msg) ++ [Some 0]
    /\ len (commit_header_text f ++ msg) = size.
Proof.
  intros S E. unfold pv4_get_commit, use_pack in E.
  bind_case E as [sha1 scp1] Etree.
  bind_case E as h Eh.
  bind_case E as d1 Ed1.
  bind_case E as [v scp2] Ev.
  bind_case E as [scp3 d2] Ed2.
  bind_case E as [ct scp4] Ect.
  bind_case E as [[ident scp5] m1] Eci.
  bind_case E as ctz Ectz.
  bind_case E as [delta scp6] Edelta.
  bind_case E as [[ident' scp7] m2] Eai.
  bind_case E as atz Eatz.
  bind_case E as aname Eaname.
  bind_case E as d3 Ed3.
  bind_case E as cname Ecname.
  bind_case E as d4 Ed4.
  destruct (_ >? _); [discriminate|].
  bind_case E as [[st out] curpos] Einf.
  bind_case E as r Er.
  destruct (negb (zstatus_eqb st Z_STREAM_END) || _) eqn:G; [discriminate|].
  inversion E; subst blk m'; clear E.
  apply orb_false_iff in G. destruct G as [G1 G2].
  apply negb_false_iff in G1, G2. apply Z.eqb_eq in G2.
  assert (st = Z_STREAM_END) by (destruct st; simpl in G1; congruence). subst st.
  assert (T : size < 2 ^ 64) by lia.
  pose proof (xmallocz_inv size (proj1 S)) as I0.
  destruct (get_identref_loaded _ _ _ _ _ _ Eci) as [dct L1].
  pose proof (get_identref_again _ _ _ _ _ _ _ L1 Eai). subst m2.
  (* the tree line *)
  apply (emit_tree_line_inv size) in Ed1; auto.
  destruct Ed1 as [[I1 Em1]|D1].
  2:{ exfalso. eapply emit_parents_dead in D1; eauto.
      exact (emit_checked_dead _ _ _ D1 Ed3). }
  destruct (emit_parents_inv size _ _ _ _ _ _ T I1 Ed2) as (hs & PP & I2 & Em2).
  apply (emit_checked_inv size) in Ed3; auto. destruct Ed3 as [I3 Em3].
  apply (emit_checked_inv size) in Ed4; auto. destruct Ed4 as [I4 Em4].
  destruct I4 as (bs & junk & He & Hr & Hj & Ht).
  (* the body *)
  pose proof (len_nonneg out) as No. pose proof (len_nonneg bs) as Nb.
  assert (Lo : len out = sizep d4).
  { unfold store in Er. destruct (_ && _) eqn:G; [|discriminate].
    apply andb_true_iff in G. destruct G as [_ G]. apply Z.leb_le in G.
    rewrite Hr, len_app in G. change (len [Some 0]) with 1 in G.
    destruct (Z.eq_dec (len out) (sizep d4 + 1)) as [X|X].
    - rewrite X in G2. unfold wrap64 in G2.
      destruct (Z.eq_dec (sizep d4 + 1) (2 ^ 64)) as [Y|Y].
      + rewrite Y, Z.mod_same in G2 by lia. lia.
      + rewrite Z.mod_small in G2 by lia. lia.
    - rewrite wrap64_small in G2 by lia. lia. }
  rewrite store_head in Er
    by (rewrite Hr, len_app; change (len [Some 0]) with 1; lia).
  inversion Er; subst r; clear Er.
  rewrite Hr, skipn_app_cell by (unfold len in *; lia).
  replace (skipn (length out) junk) with (@nil (option Z))
    by (symmetry; apply skipn_all2; unfold len in *; lia).
  cbn [app].
  exists {| c_tree := h; c_parents := hs; c_time := ct; c_committer_tz := ctz;
            c_committer := cname; c_delta := delta; c_author_tz := atz;
            c_author := aname; c_body := scp7 |}, out, curpos.
  cbn [c_body].
  assert (Hbs : bs = commit_header_text
                       {| c_tree := h; c_parents := hs; c_time := ct;
                          c_committer_tz := ctz; c_committer := cname;
                          c_delta := delta; c_author_tz := atz;
                          c_author := aname; c_body := scp7 |}).
  { apply (f_equal (fun l => l)) in He.
    rewrite Em4, Em3, Em2, Em1 in He. cbn [emitted xmallocz app] in He.
    rewrite <- !map_app in He.
    assert (Inj : forall l1 l2 : list Z, map Some l1 = map Some l2 -> l1 = l2).
    { induction l1; destruct l2; simpl; intros X; try discriminate; auto.
      inversion X; subst. f_equal; auto. }
    apply Inj in He. rewrite <- He. unfold commit_header_text.
    cbn [c_tree c_parents c_time c_committer_tz c_committer c_delta c_author_tz c_author].
    rewrite author_time_of_spec, <- !app_assoc. reflexivity. }
  split.
  { unfold parse_commit. cbn [handle xmalloc] in *.
    rewrite Etree. cbn [obind]. rewrite Eh. cbn [obind].
    rewrite Ev. cbn [obind]. rewrite PP. cbn [obind].
    rewrite Ect. cbn [obind]. unfold parse_ident.
    rewrite Eci. cbn [obind]. rewrite Ectz. cbn [obind]. rewrite Ecname. cbn [obind].
    rewrite Edelta. cbn [obind]. rewrite Eai. cbn [obind].
    rewrite Eatz. cbn [obind]. rewrite Eaname. cbn [obind]. reflexivity. }
  split.
  { rewrite Lo. replace scp7 with (offset + (scp7 - offset)) at 1 by lia. exact Einf. }
  split.
  { rewrite He, Hbs, map_app, <- app_assoc. reflexivity. }
  rewrite <- Hbs, len_app. lia.
Qed.


Lemma parse_parents_length (p : packed_git) (n : nat) :
  forall scp hs scp', parse_parents n p scp = Done (hs, scp') -> length hs = n.
Proof.
  induction n as [|n IH]; intros scp hs scp' E; cbn [parse_parents] in E.
  - inversion E; reflexivity.
  - bind_case E as [sha1 scp1] Es. bind_case E as h Eh.
    bind_case E as [hs' scp2] Ep. inversion E; subst. cbn [length].
    f_equal. eapply IH; eauto.
Qed.

Lemma parse_commit_fields fuel m offset f m' :
  parse_commit fuel m offset = Done (f, m') ->
  0 <= c_time f < 2 ^ 64 /\ 0 <= c_delta f < 2 ^ 64
  /\ exists nb, declared_parents (handle m) offset = Done nb /\ len (c_parents f) = nb.
Proof.
  intros E. unfold parse_commit in E.
  bind_case E as [sha1 scp1] Etree. bind_case E as h Eh.
  bind_case E as [v scp2] Ev. bind_case E as [hs scp3] Ehs.
  bind_case E as [ct scp4] Ect.
  bind_case E as [[[ctz cname] scp5] m1] Eci.
  bind_case E as [delta scp6] Edelta.
  bind_case E as [[[atz aname] scp7] m2] Eai.
  inversion E; subst; clear E. cbn [c_time c_delta c_parents].
  split; [eapply varint_at_range; eauto|].
  split; [eapply varint_at_range; eauto|].
  exists (wrap32 v). unfold declared_parents. rewrite Etree. cbn [obind].
  rewrite Ev. cbn [obind]. split; [reflexivity|].
  apply parse_parents_length in Ehs. unfold len. rewrite Ehs.
  pose proof (wrap32_range v). lia.
Qed.

(** C5: a decoded commit is, in this order, the tree line, one parent line
    for each encoded parent (none when the count is zero), the author line,
    the committer line and the inflated body; the author line comes before
    the committer line although the payload stores the committer's time and
    identity first. *)
Theorem commit_lines_in_order :
  forall (fuel : nat) (m : machine) (offset size : Z) (blk : list cell) (m' : machine),
    0 <= size < 2 ^ 64 ->
    pv4_get_commit fuel m offset size = Done (Some blk, m') ->
    exists (f : commit_fields) (msg : list byte) (curpos : Z),
      parse_commit fuel (xmalloc m) offset = Done (f, m')
      /\ inflate_loop fuel (handle m') git_inflate_init (c_body f)
                      (wrap64 (len msg + 1)) [] = Done (Z_STREAM_END, msg, curpos)
      /\ declared_parents (handle m) offset = Done (len (c_parents f))
      /\ blk = map Some
                 (tree_line (c_tree f)
                  ++ flat_map parent_line (c_parents f)
                  ++ person_line "author" (c_author f)
                       (spec_author_time (c_time f) (c_delta f)) (c_author_tz f)
                  ++ person_line "committer" (c_committer f) (c_time f)
                       (c_committer_tz f)
                  ++ msg)
               ++ [Some 0]
      /\ (len (c_parents f) = 0 -> flat_map parent_line (c_parents f) = []).
Proof.
  intros fuel m offset size blk m' S E.
  destruct (pv4_get_commit_success _ _ _ _ _ _ S E) as (f & msg & curpos & P & I & B & L).
  exists f, msg, curpos. split; [assumption|]. split; [assumption|].
  destruct (parse_commit_fields _ _ _ _ _ P) as (_ & _ & nb & D & N).
  split; [rewrite N; exact D|].
  split.
  - rewrite B. unfold commit_header_text. rewrite <- !app_assoc. reflexivity.
  - intros Z0. destruct (c_parents f); [reflexivity|].
    unfold len in Z0. simpl in Z0. lia.
Qed.

(** C6: the author time of a decoded commit is the commit time plus
    [d >> 1] when the low bit of the author-time-delta varint [d] is 1 and
    the commit time minus [d >> 1] when it is 0, in [unsigned long]
    arithmetic; with [d = 0] it is the commit time. *)
Theorem commit_author_time :
  forall (fuel : nat) (m : machine) (offset size : Z) (blk : list cell) (m' : machine),
    0 <= size < 2 ^ 64 ->
    pv4_get_commit fuel m offset size = Done (Some blk, m') ->
    exists (f : commit_fields) (post : list byte) (author_time : Z),
      parse_commit fuel (xmalloc m) offset = Done (f, m')
      /\ blk = map Some
                 (tree_line (c_tree f) ++ flat_map parent_line (c_parents f)
                  ++ person_line "author" (c_author f) author_time (c_author_tz f)
                  ++ post)
               ++ [Some 0]
      /\ author_time = author_time_of (c_time f) (c_delta f)
      /\ author_time
         = (if Z.odd (c_delta f)
            then (c_time f + Z.shiftr (c_delta f) 1) mod 2 ^ 64
            else (c_time f - Z.shiftr (c_delta f) 1) mod 2 ^ 64)
      /\ (Z.odd (c_delta f) = true -> c_time f + Z.shiftr (c_delta f) 1 < 2 ^ 64 ->
          author_time = c_time f + Z.shiftr (c_delta f) 1)
      /\ (Z.odd (c_delta f) = false -> Z.shiftr (c_delta f) 1 <= c_time f ->
          author_time = c_time f - Z.shiftr (c_delta f) 1)
      /\ (c_delta f = 0 -> author_time = c_time f).
Proof.
  intros fuel m offset size blk m' S E.
  destruct (pv4_get_commit_success _ _ _ _ _ _ S E) as (f & msg & curpos & P & I & B & L).
  destruct (parse_commit_fields _ _ _ _ _ P) as (Rt & Rd & _).
  exists f, (person_line "committer" (c_committer f) (c_time f) (c_committer_tz f) ++ msg),
         (author_time_of (c_time f) (c_delta f)).
  split; [assumption|].
  split.
  { rewrite B. unfold commit_header_text. rewrite author_time_of_spec, <- !app_assoc.
    reflexivity. }
  split; [reflexivity|].
  assert (H2 : 0 <= Z.shiftr (c_delta f) 1) by (apply Z.shiftr_nonneg; lia).
  unfold author_time_of, wrap64. rewrite Z.bit0_odd.
  split; [reflexivity|].
  split; [intros O B1; rewrite O; apply Z.mod_small; lia|].
  split; [intros O B1; rewrite O; apply Z.mod_small; lia|].
  intros D0. rewrite D0. change (Z.odd 0) with false. cbv iota.
  change (Z.shiftr 0 1) with 0. rewrite Z.sub_0_r. apply Z.mod_small; lia.
Qed.

End Commit.

(** ** The tree reconstructor: the destination *)

Section Trees.
Context {host : Host}.

Variable total : Z.
Hypothesis total_range : total < 2 ^ 64.

Lemma emit_entry_inv fuel m f d src avail scp what r m' d' :
  dest_inv total d ->
  emit_entry fuel m f d src avail scp what = Done (r, m', d') ->
  dest_inv total d'.
Proof.
  intros I E. unfold emit_entry in E.
  bind_case E as [path m1] Ep. bind_case E as [sha1 scp1] Es.
  destruct (_ || _); [inversion E; subst; assumption|].
  bind_case E as p0 E0. bind_case E as p1 E1. bind_case E as name En.
  bind_case E as [d1 l] Ed1.
  destruct (Z.gtb_spec (l + 20) (sizep d1)) as [G|G].
  - inversion E; subst. eapply snprintf_inv; eauto. eapply dest_inv_sizep; eauto.
  - bind_case E as h Eh. apply must_done, load_n_length in Eh.
    destruct (emit_entry_fits total d d1 _ h l total_range I Eh Ed1 G)
      as (r0 & d2 & St & Ad & I2 & _).
    rewrite St in E. cbn [obind] in E. rewrite Ad in E. cbn [obind] in E.
    inversion E; subst. assumption.
Qed.

Lemma copy_range_inv rec m f d src avail scp what r m' d' :
  keeps_dest total rec -> dest_inv total d ->
  copy_range rec m f d src avail scp what = Done (r, m', d') ->
  dest_inv total d'.
Proof.
  intros K I E. unfold copy_range in E.
  bind_case E as [v2 scp1] Ev. destruct (_ =? 0); [inversion E; subst; assumption|].
  bind_case E as [off scp2] Ec. destruct (_ =? 0); [inversion E; subst; assumption|].
  destruct (_ >=? _); [inversion E; subst; assumption|].
  bind_case E as [[ret m1] d1] Er. apply K in Er; auto.
  destruct (negb _); inversion E; subst; assumption.
Qed.

Lemma entries_step_inv rec fuel m f d r m' d' :
  keeps_dest total rec -> dest_inv total d ->
  entries_step rec fuel m f d = Done (r, m', d') ->
  dest_inv total d'.
Proof.
  intros K I E. unfold entries_step in E.
  destruct (frame_window (handle m) f) as [src avail].
  destruct (_ <? 20); [inversion E; subst; assumption|].
  bind_case E as [v scp] Ev.
  destruct (_ =? _); [inversion E; subst; assumption|].
  destruct (_ && _).
  - unfold skip_entry in E. bind_case E as b Eb. bind_case E as scp1 E1.
    inversion E; subst; assumption.
  - destruct (negb _).
    + eapply emit_entry_inv; eauto.
    + eapply copy_range_inv; eauto.
Qed.

Lemma entries_loop_inv (fuel : nat) :
  forall m f d r m' d',
    dest_inv total d -> entries_loop fuel m f d = Done (r, m', d') -> dest_inv total d'.
Proof.
  induction fuel as [|k IH]; intros m f d r m' d' I E; cbn [entries_loop] in E;
    [discriminate|].
  destruct (_ =? 0); [inversion E; subst; assumption|].
  bind_case E as [[sr m1] d1] Es.
  apply entries_step_inv in Es; auto.
  - destruct sr; [inversion E; subst; assumption|]. eapply IH; eauto.
  - intros m0 o s c d0 r0 m0' d0' I0 E0. unfold decode_entries_with in E0.
    bind_case E0 as pf Ep. destruct pf; [eapply IH; eauto|].
    inversion E0; subst; assumption.
Qed.

Lemma decode_entries_inv fuel m offset start count d parse_hdr r m' d' :
  dest_inv total d ->
  decode_entries fuel m offset start count d parse_hdr = Done (r, m', d') ->
  dest_inv total d'.
Proof.
  intros I E. unfold decode_entries, decode_entries_with in E.
  bind_case E as pf Ep. destruct pf; [eapply entries_loop_inv; eauto|].
  inversion E; subst; assumption.
Qed.

End Trees.

(** ** The tree reconstructor: frames and records *)

Section Frames.

Context {host : Host}.

Lemma skip_object_header_advances (bs : list byte) :
  forall k avail k', skip_object_header bs k avail = Done (Some k') -> k < k'.
Proof.
  induction bs as [|b rest IH]; intros k avail k'; cbn [skip_object_header];
    [discriminate|].
  destruct (Z.testbit b 7).
  - destruct (_ >=? _); [discriminate|]. intros E. apply IH in E. lia.
  - destruct (negb _); [discriminate|]. intros E; inversion E; lia.
Qed.

Lemma entries_prologue_checks (p : packed_git) (offset start count : Z) (parse_hdr : bool) (f : frame):
    0 <= start ->
    parse_hdr = false \/ 0 < count ->
    entries_prologue p offset start count parse_hdr = Done (Some f) ->
    exists k v scp,
      (if parse_hdr
       then exists bs, at_off (pack_data p) offset = Some bs
                       /\ skip_object_header bs 0 (snd (use_pack p offset)) = Done (Some k)
       else k = 0)
      /\ varint_at p (offset + k) = Done (v, scp)
      /\ offset + k < scp
      /\ start <= wrap32 v /\ count <= wrap32 v - start
      /\ f_offset f = scp /\ f_start f = start /\ f_count f = count
      /\ f_copy_objoffset f = 0.
Proof.
  intros S0 C E. unfold entries_prologue, use_pack in E.
  bind_inv E. destruct a as [k|]; [|discriminate].
  bind_inv E. destruct a as [v scp].
  destruct (_ || _) eqn:G; [discriminate|].
  apply orb_false_iff in G. destruct G as [G G3].
  apply orb_false_iff in G. destruct G as [G1 G2].
  apply Z.eqb_neq in G1.
  assert (G2' : start <= wrap32 v) by (destruct (Z.gtb_spec start (wrap32 v)); [discriminate|lia]).
  pose proof (wrap32_range v) as R.
  rewrite wrap32_small in G3 by lia.
  assert (G3' : count <= wrap32 v - start) by (destruct (Z.gtb_spec count (wrap32 v - start)); [discriminate|lia]).
  inversion E; subst; clear E. cbn [f_offset f_start f_count f_copy_objoffset].
  exists k, v, scp.
  assert (K : 0 <= k /\ (if parse_hdr
       then exists bs, at_off (pack_data p) offset = Some bs
                       /\ skip_object_header bs 0 (snd (offset, wrap64 (len (pack_data p) - offset))) = Done (Some k)
       else k = 0)).
  { destruct parse_hdr.
    - bind_inv E0. must_inv E. pose proof (skip_object_header_advances _ _ _ _ E0).
      split; [lia|]. eauto.
    - inversion E0; subst. split; [lia|reflexivity]. }
  destruct K as [K0 K].
  split; [exact K|]. split; [exact E1|].
  apply varint_at_consumed in E1.
  repeat split; try assumption; try lia.
  destruct E1 as [[-> ->]|]; [|lia].
  change (wrap32 0) with 0 in *.
  destruct C as [->|C]; [|lia]. subst k. lia.
Qed.


Lemma frame_window_fst (p : packed_git) (f : frame) :
  fst (frame_window p f) = f_offset f.
Proof. unfold frame_window, use_pack. destruct (_ <? _); reflexivity. Qed.

Lemma entries_step_dispatch rec fuel m f d what scp :
  reads_record (handle m) f what scp ->
  entries_step rec fuel m f d =
    if negb (Z.testbit what 0) && negb (f_start f =? 0)
    then skip_entry m f d (f_offset f) (snd (frame_window (handle m) f)) scp
    else if negb (Z.testbit what 0)
    then emit_entry fuel m f d (f_offset f) (snd (frame_window (handle m) f)) scp what
    else copy_range rec m f d (f_offset f) (snd (frame_window (handle m) f)) scp what.
Proof.
  intros (A & v & V & -> & N). unfold entries_step.
  pose proof (frame_window_fst (handle m) f) as W.
  destruct (frame_window (handle m) f) as [src avail]. cbn [fst snd] in *. subst src.
  destruct (Z.ltb_spec avail 20); [lia|].
  rewrite V. cbn [obind].
  destruct (Z.eqb_spec scp (f_offset f)); [contradiction|]. reflexivity.
Qed.

Lemma entries_step_continue rec fuel m f d f' m' d' :
  entries_step rec fuel m f d = Done (Continue f', m', d') ->
  exists what scp, reads_record (handle m) f what scp.
Proof.
  unfold entries_step, reads_record. intros E.
  pose proof (frame_window_fst (handle m) f) as W.
  destruct (frame_window (handle m) f) as [src avail]. cbn [fst snd] in *. subst src.
  destruct (Z.ltb_spec avail 20); [discriminate|].
  bind_inv E. destruct a as [v scp].
  destruct (Z.eqb_spec scp (f_offset f)); [discriminate|].
  exists (wrap32 v), scp. split; [assumption|]. exists v. auto.
Qed.





Lemma copy_range_rec_ext rec1 rec2 m f d src avail scp what :
  0 < f_count f -> 0 <= f_start f ->
  (forall v2 scp1 off scp2 m' s c d',
      varint_at (handle m) scp = Done (v2, scp1) ->
      copy_source (handle m) scp1 (wrap32 v2) (f_copy_objoffset f) = Done (off, scp2) ->
      0 < c <= f_count f ->
      rec1 m' off s c d' = rec2 m' off s c d') ->
  copy_range rec1 m f d src avail scp what = copy_range rec2 m f d src avail scp what.
Proof.
  intros C S H. unfold copy_range.
  destruct (varint_at (handle m) scp) as [[v2 scp1]| | |] eqn:V; try reflexivity.
  cbn [obind]. destruct (_ =? 0); [reflexivity|].
  destruct (copy_source _ _ _ _) as [[off scp2]| | |] eqn:CS; try reflexivity.
  cbn [obind]. destruct (_ =? 0); [reflexivity|].
  destruct (Z.geb_spec (f_start f) (Z.shiftr (wrap32 v2) 1)) as [|G]; [reflexivity|].
  rewrite (H v2 scp1 off scp2); auto.
  pose proof (wrap32_range v2) as R.
  assert (Z.shiftr (wrap32 v2) 1 < 2 ^ 32).
  { rewrite Z.shiftr_div_pow2 by lia. change (2 ^ 1) with 2.
    apply Z.div_lt_upper_bound; lia. }
  rewrite wrap32_small by lia.
  destruct (Z.gtb_spec (Z.shiftr (wrap32 v2) 1 - f_start f) (f_count f)); lia.
Qed.


(** C10: [decode_entries] goes on past the entry count only if the count
    varint consumed a byte, [start <= nb_entries] and
    [count <= nb_entries - start]; this holds for the top-level call, which
    parses no header, and for every recursion, which asks for at least one
    entry; so a copy range never asks for entries past the declared count of
    its source tree. *)
Theorem decode_entries_checks_entry_count :
  (forall p offset start count parse_hdr f,
      0 <= start ->
      parse_hdr = false \/ 0 < count ->
      entries_prologue p offset start count parse_hdr = Done (Some f) ->
      exists k v scp,
        (if parse_hdr
         then exists bs, at_off (pack_data p) offset = Some bs
                         /\ skip_object_header bs 0 (snd (use_pack p offset))
                            = Done (Some k)
         else k = 0)
        /\ varint_at p (offset + k) = Done (v, scp)
        /\ offset + k < scp
        /\ start <= wrap32 v /\ count <= wrap32 v - start
        /\ start + count <= wrap32 v)
  /\ (forall fuel m offset start count d parse_hdr,
      entries_prologue (handle m) offset start count parse_hdr = Done None ->
      decode_entries fuel m offset start count d parse_hdr = Done (-1, m, d))
  /\ (forall rec1 rec2 fuel m f d,
      0 < f_count f -> 0 <= f_start f ->
      (forall m' off s c d', 0 < c <= f_count f ->
                             rec1 m' off s c d' = rec2 m' off s c d') ->
      entries_step rec1 fuel m f d = entries_step rec2 fuel m f d).
Proof.
  split; [|split].
  - intros p offset start count parse_hdr f S C E.
    destruct (entries_prologue_checks _ _ _ _ _ _ S C E)
      as (k & v & scp & K & V & A & B1 & B2 & _).
    exists k, v, scp. repeat split; try assumption. lia.
  - intros fuel m offset start count d parse_hdr E.
    unfold decode_entries, decode_entries_with. rewrite E. reflexivity.
  - intros rec1 rec2 fuel m f d C S H. unfold entries_step.
    destruct (frame_window (handle m) f) as [src avail].
    destruct (_ <? 20); [reflexivity|].
    destruct (varint_at (handle m) src) as [[v scp]| | |]; try reflexivity.
    cbn [obind]. destruct (_ =? _); [reflexivity|].
    destruct (_ && _); [reflexivity|]. destruct (negb _); [reflexivity|].
    apply copy_range_rec_ext; auto.
Qed.

Lemma pv4_get_tree_success fuel m offset size blk m' :
  0 <= size < 2 ^ 64 ->
  pv4_get_tree fuel m offset size = Done (Some blk, m') ->
  exists bs, blk = map Some bs ++ [Some 0] /\ len bs = size.
Proof.
  intros S E. unfold pv4_get_tree, use_pack in E.
  bind_case E as [v scp] Ev. destruct (_ =? _); [discriminate|].
  bind_case E as [[ret m1] d1] Ed.
  destruct (_ || _) eqn:G; [discriminate|].
  apply orb_false_iff in G. destruct G as [_ G]. apply negb_false_iff, Z.eqb_eq in G.
  inversion E; subst; clear E.
  apply (decode_entries_inv size) in Ed; [|lia|apply xmallocz_inv; lia].
  destruct Ed as (bs & junk & He & Hr & Hj & Ht).
  exists bs. unfold block. rewrite He, Hr.
  assert (junk = []) by (destruct junk; [reflexivity|unfold len in Hj; simpl in Hj; lia]).
  subst junk. split; [reflexivity|lia].
Qed.


End Frames.

(** ** The pack handle across a decode *)

Lemma same_pack_refl (m : machine) : same_pack m m.
Proof. unfold same_pack. repeat split; auto. Qed.

Lemma same_pack_trans (m1 m2 m3 : machine) :
  same_pack m1 m2 -> same_pack m2 m3 -> same_pack m1 m3.
Proof.
  unfold same_pack. intros (A1 & A2 & A3 & A4 & A5 & A6) (B1 & B2 & B3 & B4 & B5 & B6).
  repeat split; try congruence; auto; lia.
Qed.

Section Handle.
Context {host : Host}.

Lemma load_dict_machine fuel m offset r m' :
  load_dict fuel m offset = Done (r, m') ->
  handle m' = handle m
  /\ live m' = live m + match r with Some _ => 2 | None => 0 end.
Proof.
  unfold load_dict, use_pack. intros E.
  bind_case E as [dict_size cp] Ev.
  destruct (_ <? 3); [inversion E; subst; split; [reflexivity|lia]|].
  bind_case E as [[st out] curpos1] Ei. bind_case E as blk1 Es.
  destruct (_ || _); [inversion E; subst; cbn; split; [reflexivity|lia]|].
  bind_case E as [cp1 nb] Ec.
  destruct (negb _); [inversion E; subst; cbn; split; [reflexivity|lia]|].
  bind_case E as offs Eo. inversion E; subst; cbn; split; [reflexivity|lia].
Qed.

Lemma ensure_ident_dict_same fuel m m' :
  ensure_ident_dict fuel m = Done m' -> same_pack m m'.
Proof.
  unfold ensure_ident_dict. destruct (ident_dict (handle m)) eqn:L.
  - intros E; inversion E; subst. apply same_pack_refl.
  - unfold load_ident_dict. intros E. bind_case E as [r m1] El.
    apply load_dict_machine in El. destruct El as [H1 H2].
    destruct r as [[names off]|]; [|discriminate].
    inversion E; subst; clear E. unfold same_pack, set_ident, dict_blocks.
    cbn [handle live pack_data num_objects sha1_table ident_dict path_dict].
    rewrite H1, L. repeat split; auto; try discriminate. lia.
Qed.

Lemma get_identref_same fuel m scp q scp' m' :
  get_identref fuel m scp = Done (q, scp', m') -> same_pack m m'.
Proof.
  unfold get_identref. intros E. bind_case E as m1 E1.
  bind_case E as [v s] Ev. bind_case E as q0 Eq. inversion E; subst.
  eapply ensure_ident_dict_same; eauto.
Qed.

Lemma get_pathref_same fuel m index q m' :
  get_pathref fuel m index = Done (q, m') -> same_pack m m'.
Proof.
  unfold get_pathref. intros E. bind_case E as m1 E1.
  bind_case E as q0 Eq. inversion E; subst; clear E.
  destruct (path_dict (handle m)) eqn:L.
  - inversion E1; subst. apply same_pack_refl.
  - unfold load_path_dict in E1. bind_case E1 as m2 E2.
    bind_case E1 as [r m3] El.
    pose proof (ensure_ident_dict_same _ _ _ E2) as S2.
    apply load_dict_machine in El. destruct El as [H1 H2].
    destruct r as [[paths off]|]; [|discriminate].
    inversion E1; subst; clear E1.
    eapply same_pack_trans; [exact S2|].
    assert (L2 : path_dict (handle m2) = None).
    { unfold ensure_ident_dict in E2. destruct (ident_dict (handle m)).
      - inversion E2; subst; assumption.
      - unfold load_ident_dict in E2. bind_case E2 as [r m4] El.
        apply load_dict_machine in El. destruct El as [H3 H4].
        destruct r as [[names off']|]; [|discriminate].
        inversion E2; subst. cbn. rewrite H3. assumption. }
    unfold same_pack, set_path, dict_blocks.
    cbn [handle live pack_data num_objects sha1_table ident_dict path_dict].
    rewrite H1, L2. repeat split; auto; try discriminate. lia.
Qed.

Lemma entries_step_same rec fuel m f d r m' d' :
  keeps_pack rec ->
  entries_step rec fuel m f d = Done (r, m', d') -> same_pack m m'.
Proof.
  intros K E. unfold entries_step in E.
  destruct (frame_window (handle m) f) as [src avail].
  destruct (_ <? 20); [inversion E; subst; apply same_pack_refl|].
  bind_case E as [v scp] Ev.
  destruct (_ =? _); [inversion E; subst; apply same_pack_refl|].
  destruct (_ && _).
  - unfold skip_entry in E. bind_case E as b Eb. bind_case E as scp1 E1.
    inversion E; subst. apply same_pack_refl.
  - destruct (negb _).
    + unfold emit_entry in E.
      bind_case E as [path m1] Ep. apply get_pathref_same in Ep.
      bind_case E as [sha1 scp1] Es.
      destruct (_ || _); [inversion E; subst; assumption|].
      bind_case E as p0 E0. bind_case E as p1 E1. bind_case E as name En.
      bind_case E as [d1 l] Ed1.
      destruct (_ >? _); [inversion E; subst; assumption|].
      bind_case E as h Eh. bind_case E as r0 Er. bind_case E as d2 Ed2.
      inversion E; subst. assumption.
    + unfold copy_range in E.
      bind_case E as [v2 scp1] Ev2.
      destruct (_ =? 0); [inversion E; subst; apply same_pack_refl|].
      bind_case E as [off scp2] Ec.
      destruct (_ =? 0); [inversion E; subst; apply same_pack_refl|].
      destruct (_ >=? _); [inversion E; subst; apply same_pack_refl|].
      bind_case E as [[ret m1] d1] Er. apply K in Er.
      destruct (negb _); inversion E; subst; assumption.
Qed.

Lemma entries_loop_same (fuel : nat) :
  forall m f d r m' d',
    entries_loop fuel m f d = Done (r, m', d') -> same_pack m m'.
Proof.
  induction fuel as [|k IH]; intros m f d r m' d' E; cbn [entries_loop] in E;
    [discriminate|].
  destruct (_ =? 0); [inversion E; subst; apply same_pack_refl|].
  bind_case E as [[sr m1] d1] Es.
  apply entries_step_same in Es.
  - destruct sr; [inversion E; subst; assumption|].
    eapply same_pack_trans; [exact Es|]. eapply IH; eauto.
  - intros m0 o s c d0 r0 m0' d0' E0. unfold decode_entries_with in E0.
    bind_case E0 as pf Ep. destruct pf; [eapply IH; eauto|].
    inversion E0; subst. apply same_pack_refl.
Qed.

Lemma decode_entries_same fuel m offset start count d parse_hdr r m' d' :
  decode_entries fuel m offset start count d parse_hdr = Done (r, m', d') ->
  same_pack m m'.
Proof.
  intros E. unfold decode_entries, decode_entries_with in E.
  bind_case E as pf Ep. destruct pf; [eapply entries_loop_same; eauto|].
  inversion E; subst. apply same_pack_refl.
Qed.

Lemma same_pack_freed (m m1 : machine) :
  same_pack (xmalloc m) m1 -> same_pack m (free m1).
Proof.
  unfold same_pack, xmalloc, free. cbn [handle live].
  intros (A1 & A2 & A3 & A4 & A5 & A6). repeat split; auto. lia.
Qed.

Lemma pv4_get_tree_null fuel m offset size m' :
  pv4_get_tree fuel m offset size = Done (None, m') -> same_pack m m'.
Proof.
  unfold pv4_get_tree, use_pack. intros E.
  bind_case E as [v scp] Ev.
  destruct (_ =? _); [inversion E; subst; apply same_pack_refl|].
  bind_case E as [[ret m1] d1] Ed. apply decode_entries_same in Ed.
  destruct (_ || _); [|discriminate]. inversion E; subst.
  apply same_pack_freed. assumption.
Qed.

Lemma pv4_get_commit_null fuel m offset size m' :
  pv4_get_commit fuel m offset size = Done (None, m') -> same_pack m m'.
Proof.
  unfold pv4_get_commit, use_pack. intros E.
  bind_case E as [sha1 scp1] Etree.
  bind_case E as h Eh.
  bind_case E as d1 Ed1.
  bind_case E as [v scp2] Ev.
  bind_case E as [scp3 d2] Ed2.
  bind_case E as [ct scp4] Ect.
  bind_case E as [[ident scp5] m1] Eci.
  bind_case E as ctz Ectz.
  bind_case E as [delta scp6] Edelta.
  bind_case E as [[ident' scp7] m2] Eai.
  bind_case E as atz Eatz.
  bind_case E as aname Eaname.
  bind_case E as d3 Ed3.
  bind_case E as cname Ecname.
  bind_case E as d4 Ed4.
  destruct (_ >? _); [discriminate|].
  bind_case E as [[st out] curpos] Einf.
  bind_case E as r Er.
  destruct (_ || _); [|discriminate]. inversion E; subst.
  apply same_pack_freed.
  eapply same_pack_trans; eapply get_identref_same; eauto.
Qed.

Lemma get_sha1ref_bad_index (p : packed_git) (buf b v buf' : Z) :
  load p (InPack buf) = Some b -> b <> 0 ->
  varint_at p buf = Done (v, buf') ->
  wrap32 v = 0 \/ num_objects p + 1 < wrap32 v ->
  get_sha1ref p buf = Die BadIndex.
Proof.
  intros E Hb V I. unfold get_sha1ref. rewrite E. cbn [obind must].
  destruct (Z.eqb_spec b 0); [contradiction|]. rewrite V. cbn [obind].
  pose proof (wrap32_range v) as R.
  destruct (Z.ltb_spec (wrap32 v) 1); [reflexivity|].
  rewrite (wrap32_small (wrap32 v - 1)) by lia.
  destruct (Z.gtb_spec (wrap32 v - 1) (num_objects p)); [reflexivity|lia].
Qed.

End Handle.

(** ** Copy ranges: the destination seen from the write pointer *)

Lemma obind_omap {A B C} (g : A -> B) (x : outcome A) (k : B -> outcome C) :
  obind (omap g x) k = obind x (fun a => k (g a)).
Proof. destruct x; reflexivity. Qed.

Lemma omap_obind {A B C} (g : B -> C) (x : outcome A) (k : A -> outcome B) :
  omap g (obind x k) = obind x (fun a => omap g (k a)).
Proof. destruct x; reflexivity. Qed.

Lemma obind_ext {A B} (x : outcome A) (k1 k2 : A -> outcome B) :
  (forall a, k1 a = k2 a) -> obind x k1 = obind x k2.
Proof. intros H. destruct x; simpl; auto. Qed.

Lemma rebase_fresh (d : dest) : rebase (emitted d) (fresh d) = d.
Proof. destruct d. unfold rebase, fresh. cbn. rewrite app_nil_r. reflexivity. Qed.

Lemma snprintf_rebase (pre : list (option Z)) (d : dest) (text : list Z) :
  snprintf (rebase pre d) text
  = omap (fun x => (rebase pre (fst x), snd x)) (snprintf d text).
Proof.
  unfold snprintf, rebase. cbn [room sizep emitted].
  destruct (store (room d) 0 _); reflexivity.
Qed.

Lemma advance_rebase (pre : list (option Z)) (d : dest) (n : Z) :
  advance (rebase pre d) n = omap (rebase pre) (advance d n).
Proof.
  unfold advance, rebase. cbn [room sizep emitted].
  destruct (_ && _); cbn [omap]; [|reflexivity]. cbn. rewrite app_assoc. reflexivity.
Qed.

Section Rebase.
Context {host : Host}.

Lemma emit_entry_rebase pre fuel m f d src avail scp what :
  emit_entry fuel m f (rebase pre d) src avail scp what
  = omap (lift pre) (emit_entry fuel m f d src avail scp what).
Proof.
  unfold emit_entry.
  rewrite omap_obind. apply obind_ext. intros [path m1].
  rewrite omap_obind. apply obind_ext. intros [sha1 scp1].
  destruct (_ || _); [reflexivity|].
  rewrite omap_obind. apply obind_ext. intros p0.
  rewrite omap_obind. apply obind_ext. intros p1.
  rewrite omap_obind. apply obind_ext. intros name.
  rewrite snprintf_rebase, obind_omap, omap_obind. apply obind_ext. intros [d1 l].
  cbn [fst snd rebase sizep room emitted].
  destruct (_ >? _); [reflexivity|].
  rewrite omap_obind. apply obind_ext. intros h.
  rewrite omap_obind. apply obind_ext. intros r.
  change {| emitted := pre ++ emitted d1; room := r; sizep := sizep d1 |}
    with (rebase pre {| emitted := emitted d1; room := r; sizep := sizep d1 |}).
  rewrite advance_rebase, obind_omap, omap_obind. apply obind_ext. intros d2.
  reflexivity.
Qed.

Lemma copy_range_rebase rec pre m f d src avail scp what :
  frame_indep rec ->
  copy_range rec m f (rebase pre d) src avail scp what
  = omap (lift pre) (copy_range rec m f d src avail scp what).
Proof.
  intros K. unfold copy_range.
  rewrite omap_obind. apply obind_ext. intros [v2 scp1].
  destruct (_ =? 0); [reflexivity|].
  rewrite omap_obind. apply obind_ext. intros [off scp2].
  destruct (_ =? 0); [reflexivity|].
  destruct (_ >=? _); [reflexivity|].
  rewrite K, obind_omap, omap_obind. apply obind_ext. intros [[ret m1] d1].
  cbn [lift]. destruct (negb _); reflexivity.
Qed.

Lemma entries_step_rebase rec pre fuel m f d :
  frame_indep rec ->
  entries_step rec fuel m f (rebase pre d)
  = omap (lift pre) (entries_step rec fuel m f d).
Proof.
  intros K. unfold entries_step.
  destruct (frame_window (handle m) f) as [src avail].
  destruct (_ <? 20); [reflexivity|].
  rewrite omap_obind. apply obind_ext. intros [v scp].
  destruct (_ =? _); [reflexivity|].
  destruct (_ && _).
  - unfold skip_entry.
    rewrite omap_obind. apply obind_ext. intros b.
    rewrite omap_obind. apply obind_ext. intros scp1. reflexivity.
  - destruct (negb _).
    + apply emit_entry_rebase.
    + apply copy_range_rebase. assumption.
Qed.

Lemma entries_loop_rebase (fuel : nat) :
  forall pre m f d,
    entries_loop fuel m f (rebase pre d) = omap (lift pre) (entries_loop fuel m f d).
Proof.
  induction fuel as [|k IH]; intros pre m f d; cbn [entries_loop]; [reflexivity|].
  destruct (_ =? 0); [reflexivity|].
  rewrite entries_step_rebase.
  - rewrite obind_omap, omap_obind. apply obind_ext. intros [[sr m1] d1].
    cbn [lift]. destruct sr; [reflexivity|]. apply IH.
  - intros pre0 m0 o s c d0. unfold decode_entries_with.
    rewrite omap_obind. apply obind_ext. intros [f0|]; [apply IH|reflexivity].
Qed.

Lemma decode_entries_rebase pre fuel m offset start count d parse_hdr :
  decode_entries fuel m offset start count (rebase pre d) parse_hdr
  = omap (lift pre) (decode_entries fuel m offset start count d parse_hdr).
Proof.
  unfold decode_entries, decode_entries_with.
  rewrite omap_obind. apply obind_ext. intros [f0|]; [apply entries_loop_rebase|reflexivity].
Qed.

Lemma entries_step_return rec fuel m f d ret m' d' :
  entries_step rec fuel m f d = Done (Return ret, m', d') -> ret <> 0.
Proof.
  unfold entries_step. intros E.
  destruct (frame_window (handle m) f) as [src avail].
  destruct (_ <? 20); [inversion E; lia|].
  bind_case E as [v scp] Ev.
  destruct (_ =? _); [inversion E; lia|].
  destruct (_ && _).
  - unfold skip_entry in E. bind_case E as b Eb. bind_case E as scp1 E1. discriminate.
  - destruct (negb _).
    + unfold emit_entry in E.
      bind_case E as [path m1] Ep. bind_case E as [sha1 scp1] Es.
      destruct (_ || _); [inversion E; lia|].
      bind_case E as p0 E0. bind_case E as p1 E1. bind_case E as name En.
      bind_case E as [d1 l] Ed1.
      destruct (_ >? _); [inversion E; lia|].
      bind_case E as h Eh. bind_case E as r0 Er. bind_case E as d2 Ed2. discriminate.
    + unfold copy_range in E.
      bind_case E as [v2 scp1] Ev2.
      destruct (_ =? 0); [inversion E; lia|].
      bind_case E as [off scp2] Ec.
      destruct (_ =? 0); [inversion E; lia|].
      destruct (_ >=? _); [discriminate|].
      bind_case E as [[r m1] d1] Er.
      destruct (Z.eqb_spec r 0); cbn [negb] in E; [discriminate|].
      inversion E; subst. assumption.
Qed.

Lemma emit_entry_bytes fuel m f d d' src avail scp what T T' f1 m1 d1 f2 m2 d2 :
  T < 2 ^ 64 -> T' < 2 ^ 64 -> dest_inv T d -> dest_inv T' d' ->
  emit_entry fuel m f d src avail scp what = Done (Continue f1, m1, d1) ->
  emit_entry fuel m f d' src avail scp what = Done (Continue f2, m2, d2) ->
  f1 = f2 /\ m1 = m2
  /\ exists bs, emitted d1 = emitted d ++ map Some bs
                /\ emitted d2 = emitted d' ++ map Some bs.
Proof.
  intros HT HT' I I' E1 E2. unfold emit_entry in E1, E2.
  bind_case E1 as [path m0] Ep. rewrite Ep in E2. cbn [obind] in E2.
  bind_case E1 as [sha1 scp1] Es. rewrite Es in E2. cbn [obind] in E2.
  destruct (_ || _); [discriminate|].
  bind_case E1 as p0 E0. rewrite E0 in E2. cbn [obind] in E2.
  bind_case E1 as p1 Ep1. rewrite Ep1 in E2. cbn [obind] in E2.
  bind_case E1 as name En. rewrite En in E2. cbn [obind] in E2.
  bind_case E1 as [da l] Eda. bind_case E2 as [db l'] Edb.
  destruct (Z.gtb_spec (l + 20) (sizep da)) as [|G]; [discriminate|].
  destruct (Z.gtb_spec (l' + 20) (sizep db)) as [|G']; [discriminate|].
  bind_case E1 as h Eh. rewrite Eh in E2. cbn [obind] in E2.
  apply must_done, load_n_length in Eh.
  destruct (emit_entry_fits T d da _ h l HT I Eh Eda G) as (r & d3 & St & Ad & _ & Em & _).
  destruct (emit_entry_fits T' d' db _ h l' HT' I' Eh Edb G') as (r' & d3' & St' & Ad' & _ & Em' & _).
  rewrite St in E1. cbn [obind] in E1. rewrite Ad in E1. cbn [obind] in E1.
  rewrite St' in E2. cbn [obind] in E2. rewrite Ad' in E2. cbn [obind] in E2.
  inversion E1; inversion E2; subst. repeat split; eauto.
Qed.

Lemma copy_range_bytes rec m f d d' src avail scp what T T' f1 m1 d1 f2 m2 d2 :
  same_bytes rec ->
  T < 2 ^ 64 -> T' < 2 ^ 64 -> dest_inv T d -> dest_inv T' d' ->
  copy_range rec m f d src avail scp what = Done (Continue f1, m1, d1) ->
  copy_range rec m f d' src avail scp what = Done (Continue f2, m2, d2) ->
  f1 = f2 /\ m1 = m2
  /\ exists bs, emitted d1 = emitted d ++ map Some bs
                /\ emitted d2 = emitted d' ++ map Some bs.
Proof.
  intros K HT HT' I I' E1 E2. unfold copy_range in E1, E2.
  bind_case E1 as [v2 scp1] Ev. rewrite Ev in E2. cbn [obind] in E2.
  destruct (_ =? 0); [discriminate|].
  bind_case E1 as [off scp2] Ec. rewrite Ec in E2. cbn [obind] in E2.
  destruct (_ =? 0); [discriminate|].
  destruct (_ >=? _).
  - inversion E1; inversion E2; subst. repeat split; auto.
    exists []. cbn. rewrite !app_nil_r. auto.
  - bind_case E1 as [[r1 ma] da] Er1. bind_case E2 as [[r2 mb] db] Er2.
    destruct (Z.eqb_spec r1 0); cbn [negb] in E1; [|discriminate].
    destruct (Z.eqb_spec r2 0); cbn [negb] in E2; [|discriminate].
    subst r1 r2.
    destruct (K _ _ _ _ _ _ _ _ _ _ _ _ HT HT' I I' Er1 Er2) as (-> & bs & B1 & B2).
    inversion E1; inversion E2; subst. repeat split; eauto.
Qed.

Lemma entries_step_bytes rec fuel m f d d' T T' f1 m1 d1 f2 m2 d2 :
  same_bytes rec ->
  T < 2 ^ 64 -> T' < 2 ^ 64 -> dest_inv T d -> dest_inv T' d' ->
  entries_step rec fuel m f d = Done (Continue f1, m1, d1) ->
  entries_step rec fuel m f d' = Done (Continue f2, m2, d2) ->
  f1 = f2 /\ m1 = m2
  /\ exists bs, emitted d1 = emitted d ++ map Some bs
                /\ emitted d2 = emitted d' ++ map Some bs.
Proof.
  intros K HT HT' I I' E1 E2. unfold entries_step in E1, E2.
  destruct (frame_window (handle m) f) as [src avail].
  destruct (_ <? 20); [discriminate|].
  bind_case E1 as [v scp] Ev. rewrite Ev in E2. cbn [obind] in E2.
  destruct (_ =? _); [discriminate|].
  destruct (_ && _).
  - unfold skip_entry in E1, E2.
    bind_case E1 as b Eb. rewrite Eb in E2. cbn [obind] in E2.
    bind_case E1 as scp1 Es. rewrite Es in E2. cbn [obind] in E2.
    inversion E1; inversion E2; subst. repeat split; auto.
    exists []. cbn. rewrite !app_nil_r. auto.
  - destruct (negb _).
    + exact (emit_entry_bytes _ _ _ _ _ _ _ _ _ T T' _ _ _ _ _ _ HT HT' I I' E1 E2).
    + exact (copy_range_bytes _ _ _ _ _ _ _ _ _ T T' _ _ _ _ _ _ K HT HT' I I' E1 E2).
Qed.

Lemma entries_loop_bytes (fuel : nat) :
  forall T T' m f d d' m1 d1 m2 d2,
    T < 2 ^ 64 -> T' < 2 ^ 64 -> dest_inv T d -> dest_inv T' d' ->
    entries_loop fuel m f d = Done (0, m1, d1) ->
    entries_loop fuel m f d' = Done (0, m2, d2) ->
    m1 = m2 /\ exists bs, emitted d1 = emitted d ++ map Some bs
                          /\ emitted d2 = emitted d' ++ map Some bs.
Proof.
  induction fuel as [|k IH]; intros T T' m f d d' m1 d1 m2 d2 HT HT' I I' E1 E2;
    cbn [entries_loop] in E1, E2; [discriminate|].
  destruct (_ =? 0).
  { inversion E1; inversion E2; subst. split; [reflexivity|].
    exists []. cbn. rewrite !app_nil_r. auto. }
  set (rec := fun m' o s c d' => decode_entries_with (entries_loop k) m' o s c d' true) in *.
  assert (K : same_bytes rec).
  { intros T0 T0' m0 o s c d0 d0' ma da mb db H0 H0' J J' R1 R2.
    unfold rec, decode_entries_with in R1, R2.
    bind_case R1 as pf Ep. rewrite Ep in R2. cbn [obind] in R2.
    destruct pf; [|discriminate].
    exact (IH T0 T0' _ _ _ _ _ _ _ _ H0 H0' J J' R1 R2). }
  bind_case E1 as [[sr1 ma] da] Es1. bind_case E2 as [[sr2 mb] db] Es2.
  destruct sr1 as [ret1|fa].
  { inversion E1; subst. apply entries_step_return in Es1. contradiction. }
  destruct sr2 as [ret2|fb].
  { inversion E2; subst. apply entries_step_return in Es2. contradiction. }
  assert (Ia : dest_inv T da).
  { eapply (entries_step_inv T HT); [|exact I|exact Es1].
    intros m0 o s c d0 r0 m0' d0' J R. unfold rec, decode_entries_with in R.
    bind_case R as pf Ep. destruct pf; [eapply entries_loop_inv; eauto|].
    inversion R; subst; assumption. }
  assert (Ib : dest_inv T' db).
  { eapply (entries_step_inv T' HT'); [|exact I'|exact Es2].
    intros m0 o s c d0 r0 m0' d0' J R. unfold rec, decode_entries_with in R.
    bind_case R as pf Ep. destruct pf; [eapply entries_loop_inv; eauto|].
    inversion R; subst; assumption. }
  destruct (entries_step_bytes _ _ _ _ _ _ _ _ _ _ _ _ _ _ K HT HT' I I' Es1 Es2)
    as (-> & -> & bs & B1 & B2).
  destruct (IH _ _ _ _ _ _ _ _ _ _ HT HT' Ia Ib E1 E2) as (-> & bs' & B1' & B2').
  split; [reflexivity|]. exists (bs ++ bs').
  rewrite B1', B1, B2', B2, map_app, !app_assoc. auto.
Qed.

Lemma decode_entries_bytes fuel m offset start count parse_hdr T T' d d' m1 d1 m2 d2 :
  T < 2 ^ 64 -> T' < 2 ^ 64 -> dest_inv T d -> dest_inv T' d' ->
  decode_entries fuel m offset start count d parse_hdr = Done (0, m1, d1) ->
  decode_entries fuel m offset start count d' parse_hdr = Done (0, m2, d2) ->
  m1 = m2 /\ exists bs, emitted d1 = emitted d ++ map Some bs
                        /\ emitted d2 = emitted d' ++ map Some bs.
Proof.
  intros HT HT' I I' E1 E2. unfold decode_entries, decode_entries_with in E1, E2.
  bind_case E1 as pf Ep. rewrite Ep in E2. cbn [obind] in E2.
  destruct pf; [|discriminate].
  exact (entries_loop_bytes _ T T' _ _ _ _ _ _ _ _ HT HT' I I' E1 E2).
Qed.

Lemma dest_inv_fresh (total : Z) (d : dest) :
  dest_inv total d -> dest_inv (sizep d) (fresh d).
Proof.
  intros (bs & junk & He & Hr & Hj & Ht). exists [], junk. cbn.
  repeat split; auto.
Qed.

(** C2, as the code has it: a copy record of a tree B that refers to
    entries [a, a+n) of a source tree A makes the decoder emit the bytes that
    decoding the part of them the frame asks for gives, A's own copy records
    included (the source range is decoded by the same routine, one level
    down).  The frame is
    asked for [count] entries after skipping [start]: the record then stands
    for the entries from [a + start] on, [min (n - start) count] of them;
    decoding B from the top, with the record inside B's declared entry
    count, these are the entries [a, a+n).  The bytes are those the source
    range gives when decoded with the write pointer as the start of a
    buffer, they are appended to what B has emitted so far, and they are
    the bytes the source range gives in any other buffer it fits in. *)
Theorem copy_range_equals_source_range :
  forall (k : nat) (m : machine) (f : frame) (d : dest)
         (what scp v2 scp1 off scp2 ret : Z) (m1 : machine) (dA : dest),
    reads_record (handle m) f what scp ->
    Z.testbit what 0 = true ->
    varint_at (handle m) scp = Done (v2, scp1) ->
    copy_source (handle m) scp1 (wrap32 v2) (f_copy_objoffset f) = Done (off, scp2) ->
    off <> 0 ->
    0 <= f_start f < Z.shiftr (wrap32 v2) 1 ->
    0 < f_count f ->
    let a := wrap32 (Z.shiftr what 1 + f_start f) in
    let n := Z.min (Z.shiftr (wrap32 v2) 1 - f_start f) (f_count f) in
    decode_entries k m off a n (fresh d) true = Done (ret, m1, dA) ->
    entries_loop (S k) m f d
    = (if ret =? 0
       then entries_loop k m1
              (next_frame f (f_offset f) scp2 (wrap64 (scp2 - f_offset f)) 0
                 (wrap32 (f_count f - n)) off)
              (rebase (emitted d) dA)
       else Done (ret, m1, rebase (emitted d) dA))
    /\ emitted (rebase (emitted d) dA) = emitted d ++ emitted dA
    /\ (ret = 0 ->
        forall (T T0 : Z) (d0 : dest) (m0 : machine) (dA0 : dest),
          T < 2 ^ 64 -> T0 < 2 ^ 64 -> dest_inv T d -> dest_inv T0 d0 ->
          decode_entries k m off a n d0 true = Done (0, m0, dA0) ->
          m0 = m1
          /\ exists bs, emitted dA0 = emitted d0 ++ map Some bs
                        /\ emitted (rebase (emitted d) dA) = emitted d ++ map Some bs)
    /\ (f_start f = 0 -> Z.shiftr (wrap32 v2) 1 <= f_count f ->
        a = Z.shiftr what 1 /\ n = Z.shiftr (wrap32 v2) 1).
Proof.
  intros k m f d what scp v2 scp1 off scp2 ret m1 dA R T V CS N S0 C a n D.
  pose proof (wrap32_range v2) as R2.
  assert (H31 : Z.shiftr (wrap32 v2) 1 < 2 ^ 32).
  { rewrite Z.shiftr_div_pow2 by lia. change (2 ^ 1) with 2.
    apply Z.div_lt_upper_bound; lia. }
  assert (Hw : 0 <= Z.shiftr what 1 < 2 ^ 32).
  { destruct R as (_ & v & _ & -> & _). pose proof (wrap32_range v).
    rewrite Z.shiftr_div_pow2 by lia. change (2 ^ 1) with 2. split.
    - apply Z.div_pos; lia.
    - apply Z.div_lt_upper_bound; lia. }
  split; [|split; [|split]].
  - cbn [entries_loop].
    destruct (Z.eqb_spec (f_count f) 0); [lia|].
    rewrite (entries_step_dispatch _ _ _ _ _ _ _ R), T. cbn [negb andb].
    unfold copy_range. rewrite V. cbn [obind].
    destruct (Z.eqb_spec (wrap32 v2) 0) as [Z0|_].
    { rewrite Z0 in S0. change (Z.shiftr 0 1) with 0 in S0. lia. }
    rewrite CS. cbn [obind].
    destruct (Z.eqb_spec off 0); [contradiction|].
    destruct (Z.geb_spec (f_start f) (Z.shiftr (wrap32 v2) 1)); [lia|].
    rewrite (wrap32_small (Z.shiftr (wrap32 v2) 1 - f_start f)) by lia.
    replace (if Z.shiftr (wrap32 v2) 1 - f_start f >? f_count f
             then f_count f else Z.shiftr (wrap32 v2) 1 - f_start f) with n
      by (subst n; destruct (Z.gtb_spec (Z.shiftr (wrap32 v2) 1 - f_start f) (f_count f));
          lia).
    fold a. fold (decode_entries k m off a n d true).
    rewrite <- (rebase_fresh d) at 1.
    rewrite decode_entries_rebase, D. cbn [omap lift obind].
    destruct (ret =? 0); reflexivity.
  - reflexivity.
  - intros R0 Tb T0 d0 m0 dA0 HT HT0 I I0 D0. subst ret.
    assert (Hs : sizep d < 2 ^ 64).
    { destruct I as (bs & junk & _ & _ & _ & Ht). pose proof (len_nonneg bs). lia. }
    destruct (decode_entries_bytes _ _ _ _ _ _ T0 (sizep d) _ _ _ _ _ _ HT0 Hs I0
                (dest_inv_fresh _ _ I) D0 D) as (-> & bs & B0 & B).
    split; [reflexivity|]. exists bs. split; [assumption|].
    cbn [rebase emitted]. rewrite B. reflexivity.
  - intros Z0 Le. subst a n. rewrite Z0, Z.add_0_r, Z.sub_0_r.
    split; [apply wrap32_small; lia|lia].
Qed.

End Rebase.

(** ** Lines that fit *)

Lemma emit_checked_fits (total : Z) (d : dest) (text : list byte) :
  total < 2 ^ 64 -> dest_inv total d -> len text < sizep d ->
  exists d2, emit_checked d text = Done d2
             /\ dest_inv total d2
             /\ emitted d2 = emitted d ++ map Some text
             /\ sizep d2 = sizep d - len text.
Proof.
  intros T I L. destruct (emit_fits total d text T I L) as (d1 & d2 & S1 & A & I2 & E2 & S2).
  exists d2. unfold emit_checked. rewrite S1. cbn [obind].
  apply snprintf_result in S1. destruct S1 as (_ & S1 & _). rewrite S1.
  destruct (Z.geb_spec (len text) (sizep d)); [lia|]. auto.
Qed.

Lemma emit_tree_line_fits (total : Z) (d : dest) (text : list byte) :
  total < 2 ^ 64 -> dest_inv total d -> len text < sizep d ->
  exists d2, emit_tree_line d text = Done d2
             /\ dest_inv total d2
             /\ emitted d2 = emitted d ++ map Some text
             /\ sizep d2 = sizep d - len text.
Proof.
  intros T I L. destruct (emit_fits total d text T I L) as (d1 & d2 & S1 & A & I2 & E2 & S2).
  exists d2. unfold emit_tree_line. rewrite S1. cbn [obind]. auto.
Qed.

Section Reported.
Context {host : Host}.

Lemma emit_parents_fits (total : Z) (p : packed_git) (n : nat) :
  forall scp hs scp' d,
    total < 2 ^ 64 -> dest_inv total d ->
    parse_parents n p scp = Done (hs, scp') ->
    len (flat_map parent_line hs) < sizep d ->
    exists d2, emit_parents n p scp d = Done (scp', d2)
               /\ dest_inv total d2
               /\ emitted d2 = emitted d ++ map Some (flat_map parent_line hs)
               /\ sizep d2 = sizep d - len (flat_map parent_line hs).
Proof.
  induction n as [|n IH]; intros scp hs scp' d T I E L; cbn [parse_parents emit_parents] in *.
  - inversion E; subst. exists d. cbn. rewrite app_nil_r.
    change (len (@nil Z)) with 0. repeat split; auto. lia.
  - bind_case E as [sha1 scp1] Es. bind_case E as h Eh.
    bind_case E as [hs' scp2] Ep. inversion E; subst; clear E.
    cbn [flat_map] in L. rewrite len_app in L.
    pose proof (len_nonneg (flat_map parent_line hs')) as N1.
    pose proof (len_nonneg (parent_line h)) as N2.
    rewrite Es. cbn [obind]. rewrite Eh. cbn [obind].
    destruct (emit_checked_fits total d (parent_line h) T I ltac:(lia))
      as (d1 & E1 & I1 & Em1 & S1).
    rewrite E1. cbn [obind].
    destruct (IH _ _ _ d1 T I1 Ep ltac:(lia)) as (d2 & E2 & I2 & Em2 & S2).
    exists d2. split; [assumption|]. split; [assumption|]. split.
    + rewrite Em2, Em1. cbn [flat_map]. rewrite map_app, app_assoc. reflexivity.
    + cbn [flat_map]. rewrite len_app. lia.
Qed.

(** A commit whose header fits: what is left of [pv4_get_commit] is the
    body. *)
Lemma pv4_get_commit_body fuel m offset size f m2 :
  0 <= size < 2 ^ 64 ->
  parse_commit fuel (xmalloc m) offset = Done (f, m2) ->
  len (commit_header_text f) < size ->
  wrap64 (c_body f - offset) <= wrap64 (len (pack_data (handle m)) - offset) ->
  exists d4,
    dest_inv size d4
    /\ emitted d4 = map Some (commit_header_text f)
    /\ sizep d4 = size - len (commit_header_text f)
    /\ pv4_get_commit fuel m offset size
       = ('(st, out, _) <-
            inflate_loop fuel (handle m2) git_inflate_init (c_body f)
                         (wrap64 (sizep d4 + 1)) [] ;;
          r <- store (room d4) 0 out ;;
          if negb (zstatus_eqb st Z_STREAM_END) || negb (wrap64 (len out) =? sizep d4)
          then Done (None, free m2)
          else Done (Some (emitted d4 ++ r), m2)).
Proof.
  intros S P L A. unfold parse_commit in P. cbn [handle xmalloc] in P.
  bind_case P as [sha1 scp1] Etree.
  bind_case P as h Eh.
  bind_case P as [v scp2] Ev.
  bind_case P as [hs scp3] Ep.
  bind_case P as [ct scp4] Ect.
  bind_case P as [[[ctz cname] scp5] m1] Eci.
  bind_case P as [delta scp6] Edelta.
  bind_case P as [[[atz aname] scp7] m3] Eai.
  inversion P; subst f m3; clear P.
  unfold parse_ident in Eci, Eai.
  bind_case Eci as [[ident scp5'] m1'] Gci. bind_case Eci as ctz' Ectz.
  bind_case Eci as cname' Ecname. inversion Eci; subst ctz' cname' scp5' m1'; clear Eci.
  bind_case Eai as [[ident' scp7'] m2'] Gai. bind_case Eai as atz' Eatz.
  bind_case Eai as aname' Eaname. inversion Eai; subst atz' aname' scp7' m2'; clear Eai.
  destruct (get_identref_loaded _ _ _ _ _ _ Gci) as [dct L1].
  pose proof (get_identref_again _ _ _ _ _ _ _ L1 Gai). subst m2.
  unfold commit_header_text in L.
  cbn [c_tree c_parents c_time c_committer_tz c_committer c_delta c_author_tz c_author] in L.
  rewrite !len_app in L.
  set (t1 := tree_line h) in *.
  set (t2 := flat_map parent_line hs) in *.
  set (t3 := person_line "author" aname (spec_author_time ct delta) atz) in *.
  set (t4 := person_line "committer" cname ct ctz) in *.
  pose proof (len_nonneg t1). pose proof (len_nonneg t2).
  pose proof (len_nonneg t3). pose proof (len_nonneg t4).
  assert (T : size < 2 ^ 64) by lia.
  pose proof (xmallocz_inv size (proj1 S)) as I0.
  destruct (emit_tree_line_fits size (xmallocz size) t1 T I0 ltac:(cbn [xmallocz sizep]; lia))
    as (d1 & E1 & I1 & Em1 & S1).
  cbn [xmallocz sizep emitted app] in S1, Em1.
  destruct (emit_parents_fits size _ _ _ _ _ d1 T I1 Ep ltac:(fold t2; lia))
    as (d2 & E2 & I2 & Em2 & S2). fold t2 in Em2, S2.
  destruct (emit_checked_fits size d2 t3 T I2 ltac:(lia)) as (d3 & E3 & I3 & Em3 & S3).
  destruct (emit_checked_fits size d3 t4 T I3 ltac:(lia)) as (d4 & E4 & I4 & Em4 & S4).
  exists d4. split; [assumption|]. split.
  { rewrite Em4, Em3, Em2, Em1. unfold commit_header_text.
    cbn [c_tree c_parents c_time c_committer_tz c_committer c_delta c_author_tz c_author].
    rewrite !map_app, <- !app_assoc. reflexivity. }
  split.
  { unfold commit_header_text.
    cbn [c_tree c_parents c_time c_committer_tz c_committer c_delta c_author_tz c_author].
    rewrite !len_app. fold t1 t2 t3 t4. lia. }
  unfold pv4_get_commit, use_pack. cbn [handle xmalloc].
  rewrite Etree. cbn [obind]. rewrite Eh. cbn [obind].
  fold t1. rewrite E1. cbn [obind]. rewrite Ev. cbn [obind]. rewrite E2. cbn [obind].
  rewrite Ect. cbn [obind]. rewrite Gci. cbn [obind]. rewrite Ectz. cbn [obind].
  rewrite Edelta. cbn [obind]. rewrite Gai. cbn [obind]. rewrite Eatz. cbn [obind].
  rewrite Eaname. cbn [obind]. rewrite author_time_of_spec. fold t3.
  rewrite E3. cbn [obind]. rewrite Ecname. cbn [obind]. fold t4. rewrite E4. cbn [obind].
  cbn [c_body] in *.
  destruct (Z.gtb_spec (wrap64 (scp7 - offset)) (wrap64 (len (pack_data (handle m)) - offset)));
    [lia|].
  replace (offset + (scp7 - offset)) with scp7 by lia. reflexivity.
Qed.

End Reported.

Lemma len_tree_line (h : list byte) : 1 <= len (tree_line h).
Proof.
  unfold tree_line. rewrite !len_app. pose proof (len_nonneg (sha1_to_hex h)).
  pose proof (len_nonneg (bytes_of_string "tree ")). change (len [10]) with 1. lia.
Qed.

(** ** Failures *)

Section Failures.

Context {host : Host}.

Lemma len_commit_header (f : commit_fields) : 1 <= len (commit_header_text f).
Proof.
  unfold commit_header_text. rewrite len_app. pose proof (len_tree_line (c_tree f)).
  match goal with |- 1 <= _ + len ?x => pose proof (len_nonneg x) end. lia.
Qed.

(** C9, as the code has it.  What [pv4_get_commit] and [pv4_get_tree]
    report by returning NULL: an inflate that does not end the stream or
    gives another byte count than the header lines left of [size]; an entry
    count that consumes no byte, an error from [decode_entries] (a path
    index past the dictionary is one), entries that do not add up to
    [size].  Each time the output buffer has been freed (the live blocks
    that are not a dictionary's are those there were before) and the pack
    handle is usable as before (same pack, same table, same object count, a
    loaded dictionary kept).  An out-of-range hash-table index and a line
    that overflows at a tested emit step are not reported this way: they
    end the process through [die]. *)
Theorem decode_failure_outcomes :
  (forall fuel m offset size m',
      pv4_get_commit fuel m offset size = Done (None, m') -> same_pack m m')
  /\ (forall fuel m offset size m',
      pv4_get_tree fuel m offset size = Done (None, m') -> same_pack m m')
  /\ (forall fuel m offset size f m2 st out curpos,
      0 <= size < 2 ^ 64 ->
      parse_commit fuel (xmalloc m) offset = Done (f, m2) ->
      len (commit_header_text f) < size ->
      wrap64 (c_body f - offset) <= wrap64 (len (pack_data (handle m)) - offset) ->
      inflate_loop fuel (handle m2) git_inflate_init (c_body f)
                   (wrap64 (size - len (commit_header_text f) + 1)) []
      = Done (st, out, curpos) ->
      len out <= size - len (commit_header_text f) + 1 ->
      st <> Z_STREAM_END \/ len out <> size - len (commit_header_text f) ->
      pv4_get_commit fuel m offset size = Done (None, free m2)
      /\ same_pack m (free m2))
  /\ (forall fuel m offset size v scp,
      varint_at (handle m) offset = Done (v, scp) ->
      (scp = offset -> pv4_get_tree fuel m offset size = Done (None, m))
      /\ (scp <> offset ->
          forall ret m1 d1,
            decode_entries fuel (xmalloc m) offset 0 (wrap32 v) (xmallocz size) false
            = Done (ret, m1, d1) ->
            ret < 0 \/ sizep d1 <> 0 ->
            pv4_get_tree fuel m offset size = Done (None, free m1)
            /\ same_pack m (free m1)))
  /\ (forall k m f d what scp dct sha1 scp1,
      f_count f <> 0 ->
      reads_record (handle m) f what scp ->
      Z.testbit what 0 = false -> f_start f = 0 ->
      path_dict (handle m) = Some dct ->
      wrap32 (nb_entries dct) <= Z.shiftr what 1 ->
      get_sha1ref (handle m) scp = Done (sha1, scp1) ->
      get_pathref k m (Z.shiftr what 1) = Done (Null, m)
      /\ entries_loop (S k) m f d = Done (-1, m, d))
  /\ (forall p buf b v buf',
      load p (InPack buf) = Some b -> b <> 0 ->
      varint_at p buf = Done (v, buf') ->
      wrap32 v = 0 \/ num_objects p + 1 < wrap32 v ->
      get_sha1ref p buf = Die BadIndex)
  /\ (forall fuel m offset size,
      get_sha1ref (handle m) offset = Die BadIndex ->
      pv4_get_commit fuel m offset size = Die BadIndex)
  /\ (forall d d1 text l,
      snprintf d text = Done (d1, l) -> sizep d <= len text ->
      emit_checked d text = Die Overflow).
Proof.
  split; [|split; [|split; [|split; [|split; [|split; [|split]]]]]].
  - intros. eapply pv4_get_commit_null; eauto.
  - intros. eapply pv4_get_tree_null; eauto.
  - intros fuel m offset size f m2 st out curpos S P L A I Lo C.
    destruct (pv4_get_commit_body _ _ _ _ _ _ S P L A) as (d4 & I4 & Em & Sz & E).
    assert (G : pv4_get_commit fuel m offset size = Done (None, free m2)).
    { rewrite E, Sz, I. cbn [obind].
      destruct I4 as (bs & junk & He & Hr & Hj & Ht).
      pose proof (len_nonneg out) as No. pose proof (len_commit_header f) as Nh.
      unfold store. rewrite Hr, len_app, Hj, Sz. change (len [Some 0]) with 1.
      destruct (Z.leb_spec (0 + len out) (size - len (commit_header_text f) + 1)); [|lia].
      cbn [andb obind]. rewrite wrap64_small by lia.
      destruct C as [C|C].
      - destruct st; try reflexivity. contradiction.
      - destruct (Z.eqb_spec (len out) (size - len (commit_header_text f))); [contradiction|].
        cbn [negb]. rewrite orb_true_r. reflexivity. }
    split; [exact G|]. eapply pv4_get_commit_null; eauto.
  - intros fuel m offset size v scp V. split.
    + intros ->. unfold pv4_get_tree, use_pack. rewrite V. cbn [obind].
      rewrite Z.eqb_refl. reflexivity.
    + intros N ret m1 d1 D C.
      assert (G : pv4_get_tree fuel m offset size = Done (None, free m1)).
      { unfold pv4_get_tree, use_pack. rewrite V. cbn [obind].
        destruct (Z.eqb_spec scp offset); [contradiction|].
        rewrite D. cbn [obind].
        destruct C as [C|C].
        - destruct (Z.ltb_spec ret 0); [reflexivity|lia].
        - destruct (Z.eqb_spec (sizep d1) 0); [contradiction|].
          cbn [negb]. rewrite orb_true_r. reflexivity. }
      split; [exact G|]. eapply pv4_get_tree_null; eauto.
  - intros k m f d what scp dct sha1 scp1 C R T S0 P I Es.
    assert (G : get_pathref k m (Z.shiftr what 1) = Done (Null, m)).
    { unfold get_pathref. rewrite P. cbn [obind]. rewrite P. cbn [dict_ref].
      destruct (Z.geb_spec (Z.shiftr what 1) (wrap32 (nb_entries dct))); [reflexivity|lia]. }
    split; [exact G|].
    cbn [entries_loop]. destruct (Z.eqb_spec (f_count f) 0); [contradiction|].
    rewrite (entries_step_dispatch _ _ _ _ _ _ _ R), T, S0.
    change (0 =? 0) with true. cbn [negb andb].
    unfold emit_entry. rewrite G. cbn [obind]. rewrite Es. reflexivity.
  - intros. eapply get_sha1ref_bad_index; eauto.
  - intros fuel m offset size E. unfold pv4_get_commit, use_pack.
    cbn [handle xmalloc]. rewrite E. reflexivity.
  - intros d d1 text l E L. unfold emit_checked. rewrite E. cbn [obind].
    apply snprintf_result in E. destruct E as (-> & -> & _).
    destruct (Z.geb_spec (len text) (sizep d)); [reflexivity|lia].
Qed.

End Failures.

(** ** Decoded objects *)

Section Objects.

Context {host : Host}.

Lemma pv4_get_tree_empty fuel m offset size v scp :
  varint_at (handle m) offset = Done (v, scp) -> wrap32 v = 0 -> scp <> offset ->
  pv4_get_tree (S fuel) m offset size
  = if size =? 0 then Done (Some (block (xmallocz size)), xmalloc m)
    else Done (None, free (xmalloc m)).
Proof.
  intros V W N. unfold pv4_get_tree, use_pack. rewrite V. cbn [obind].
  destruct (Z.eqb_spec scp offset); [contradiction|].
  unfold decode_entries, decode_entries_with, entries_prologue, use_pack.
  cbn [obind handle xmalloc]. rewrite Z.add_0_r, V. cbn [obind].
  destruct (Z.eqb_spec scp offset); [contradiction|].
  rewrite W. change (0 >? 0) with false. change (0 >? wrap32 (0 - 0)) with false.
  cbn [orb obind entries_loop f_count]. change (0 =? 0) with true. cbv iota.
  cbn [obind]. change (0 <? 0) with false. cbn [orb xmallocz sizep].
  destruct (size =? 0); reflexivity.
Qed.

(** C1: a decoded object fills the declared size.  A commit is returned only
    if the inflated body is as long as what the header lines left of [size];
    a tree only if its entries are [size] bytes together; a tree with entry
    count 0 only for [size = 0], and then the buffer is empty.  The block
    returned holds the [size] bytes and the NUL that [xmallocz] puts after
    them. *)
Theorem decoded_object_fills_declared_size :
  forall (fuel : nat) (m : machine) (offset size : Z) (blk : list cell) (m' : machine),
    0 <= size < 2 ^ 64 ->
    (pv4_get_commit fuel m offset size = Done (Some blk, m') ->
     exists f msg curpos,
       parse_commit fuel (xmalloc m) offset = Done (f, m')
       /\ inflate_loop fuel (handle m') git_inflate_init (c_body f)
                       (wrap64 (len msg + 1)) [] = Done (Z_STREAM_END, msg, curpos)
       /\ blk = map Some (commit_header_text f ++ msg) ++ [Some 0]
       /\ len msg = size - len (commit_header_text f))
    /\ (pv4_get_tree fuel m offset size = Done (Some blk, m') ->
        exists bs, blk = map Some bs ++ [Some 0] /\ len bs = size)
    /\ (forall v scp,
          varint_at (handle m) offset = Done (v, scp) -> wrap32 v = 0 ->
          (pv4_get_tree fuel m offset size = Done (Some blk, m') ->
           size = 0 /\ blk = [Some 0])
          /\ (scp <> offset ->
              pv4_get_tree (S fuel) m offset 0 = Done (Some [Some 0], xmalloc m))).
Proof.
  intros fuel m offset size blk m' S. split; [|split].
  - intros E.
    destruct (pv4_get_commit_success _ _ _ _ _ _ S E) as (f & msg & curpos & P & I & B & L).
    exists f, msg, curpos. rewrite len_app in L. repeat split; try assumption. lia.
  - intros E. eapply pv4_get_tree_success; eauto.
  - intros v scp V W. split.
    + intros E.
      assert (N : scp <> offset).
      { intros ->. unfold pv4_get_tree, use_pack in E. rewrite V in E.
        cbn [obind] in E. rewrite Z.eqb_refl in E. discriminate. }
      destruct fuel as [|k].
      * exfalso. unfold pv4_get_tree, use_pack in E. rewrite V in E. cbn [obind] in E.
        destruct (Z.eqb_spec scp offset); [contradiction|].
        unfold decode_entries, decode_entries_with, entries_prologue, use_pack in E.
        cbn [obind handle xmalloc] in E. rewrite Z.add_0_r, V in E. cbn [obind] in E.
        destruct (_ || _); discriminate.
      * rewrite (pv4_get_tree_empty _ _ _ _ _ _ V W N) in E.
        destruct (Z.eqb_spec size 0); [|discriminate].
        subst size. inversion E. auto.
    + intros N. rewrite (pv4_get_tree_empty _ _ _ _ _ _ V W N). reflexivity.
Qed.

End Objects.

(** ** The example pack *)

Lemma ex_commit_decodes :
  @pv4_get_commit ex_host 5 ex_machine ex_commit_off 175
  = Done (Some ex_commit_blk, ex_commit_machine).
Proof. vm_compute. reflexivity. Qed.

Lemma ex_tree_b_decodes :
  @pv4_get_tree ex_host 20 ex_machine (ex_tree_b_off + 1) 64
  = Done (Some ex_tree_b_blk, ex_tree_b_machine).
Proof. vm_compute. reflexivity. Qed.

(** Scenario 4 of the specification. *)
Example ex_commit_text :
  ex_commit_blk
  = cells_of (bytes_of_string "tree 1111111111111111111111111111111111111111" ++ [10]
              ++ bytes_of_string "parent 2222222222222222222222222222222222222222" ++ [10]
              ++ bytes_of_string "author Bob <b@y>  1700000000 +0200" ++ [10]
              ++ bytes_of_string "committer Alice <a@x>  1700000000 +0000" ++ [10]
              ++ bytes_of_string "hello" ++ [10])
    ++ [Some 0].
Proof. vm_compute. reflexivity. Qed.

Lemma decoded_object_fills_declared_size_witness :
  (exists f msg curpos,
      @parse_commit ex_host 5 (xmalloc ex_machine) ex_commit_off
      = Done (f, ex_commit_machine)
      /\ @inflate_loop ex_host 5 (handle ex_commit_machine) git_inflate_init (c_body f)
                       (wrap64 (len msg + 1)) [] = Done (Z_STREAM_END, msg, curpos)
      /\ ex_commit_blk = map Some (commit_header_text f ++ msg) ++ [Some 0]
      /\ len msg = 175 - len (commit_header_text f))
  /\ (exists bs, ex_tree_b_blk = map Some bs ++ [Some 0] /\ len bs = 64).
Proof.
  split.
  - apply (proj1 (@decoded_object_fills_declared_size ex_host 5 ex_machine
                    ex_commit_off 175 ex_commit_blk ex_commit_machine
                    ltac:(lia))).
    vm_compute. reflexivity.
  - apply (proj1 (proj2 (@decoded_object_fills_declared_size ex_host 20 ex_machine
                           (ex_tree_b_off + 1) 64 ex_tree_b_blk ex_tree_b_machine
                           ltac:(lia)))).
    vm_compute. reflexivity.
Defined.

Lemma commit_lines_in_order_witness :
  exists f msg curpos,
    @parse_commit ex_host 5 (xmalloc ex_machine) ex_commit_off
    = Done (f, ex_commit_machine)
    /\ @inflate_loop ex_host 5 (handle ex_commit_machine) git_inflate_init (c_body f)
                     (wrap64 (len msg + 1)) [] = Done (Z_STREAM_END, msg, curpos)
    /\ declared_parents (handle ex_machine) ex_commit_off = Done (len (c_parents f))
    /\ ex_commit_blk
       = map Some
           (tree_line (c_tree f)
            ++ flat_map parent_line (c_parents f)
            ++ person_line "author" (c_author f)
                 (spec_author_time (c_time f) (c_delta f)) (c_author_tz f)
            ++ person_line "committer" (c_committer f) (c_time f) (c_committer_tz f)
            ++ msg)
         ++ [Some 0]
    /\ (len (c_parents f) = 0 -> flat_map parent_line (c_parents f) = []).
Proof.
  apply (@commit_lines_in_order ex_host 5 ex_machine ex_commit_off 175
           ex_commit_blk ex_commit_machine
           ltac:(lia)).
  vm_compute. reflexivity.
Defined.

Lemma commit_author_time_witness :
  exists f post author_time,
    @parse_commit ex_host 5 (xmalloc ex_machine) ex_commit_off
    = Done (f, ex_commit_machine)
    /\ ex_commit_blk
       = map Some
           (tree_line (c_tree f) ++ flat_map parent_line (c_parents f)
            ++ person_line "author" (c_author f) author_time (c_author_tz f)
            ++ post)
         ++ [Some 0]
    /\ author_time = author_time_of (c_time f) (c_delta f)
    /\ author_time
       = (if Z.odd (c_delta f)
          then (c_time f + Z.shiftr (c_delta f) 1) mod 2 ^ 64
          else (c_time f - Z.shiftr (c_delta f) 1) mod 2 ^ 64)
    /\ (Z.odd (c_delta f) = true -> c_time f + Z.shiftr (c_delta f) 1 < 2 ^ 64 ->
        author_time = c_time f + Z.shiftr (c_delta f) 1)
    /\ (Z.odd (c_delta f) = false -> Z.shiftr (c_delta f) 1 <= c_time f ->
        author_time = c_time f - Z.shiftr (c_delta f) 1)
    /\ (c_delta f = 0 -> author_time = c_time f).
Proof.
  apply (@commit_author_time ex_host 5 ex_machine ex_commit_off 175
           ex_commit_blk ex_commit_machine
           ltac:(lia)).
  vm_compute. reflexivity.
Defined.


Lemma decode_entries_checks_entry_count_witness :
  exists k v scp,
    (exists bs, at_off (pack_data (handle ex_machine)) ex_tree_a_off = Some bs
                /\ @skip_object_header ex_host bs 0
                     (snd (use_pack (handle ex_machine) ex_tree_a_off))
                   = Done (Some k))
    /\ varint_at (handle ex_machine) (ex_tree_a_off + k) = Done (v, scp)
    /\ ex_tree_a_off + k < scp
    /\ 1 <= wrap32 v /\ 2 <= wrap32 v - 1
    /\ 1 + 2 <= wrap32 v.
Proof.
  eapply (proj1 (@decode_entries_checks_entry_count ex_host)
            (handle ex_machine) ex_tree_a_off 1 2 true).
  - lia.
  - right. lia.
  - vm_compute. reflexivity.
Defined.

Lemma decode_failure_outcomes_witness :
  (@pv4_get_commit ex_host 5 ex_machine ex_commit_off 174 = Done (None, ex_null_machine)
   /\ same_pack ex_machine ex_null_machine)
  /\ (@pv4_get_tree ex_host 20 ex_machine2 (ex_tree_p_off + 1) 34
      = Done (None, ex_tree_p_machine)
      /\ same_pack ex_machine2 ex_tree_p_machine)
  /\ (@get_pathref ex_host 4 ex_tree_p_machine (Z.shiftr 14 1) = Done (Null, ex_tree_p_machine)
      /\ @entries_loop ex_host 5 ex_tree_p_machine
           {| f_offset := ex_tree_p_off + 2; f_avail := 22; f_start := 0; f_count := 1;
              f_copy_objoffset := 0 |} (xmallocz 34)
         = Done (-1, ex_tree_p_machine, xmallocz 34)).
Proof.
  split; [|split].
  - eapply (proj1 (proj2 (proj2 (@decode_failure_outcomes ex_host))) 5%nat ex_machine
              ex_commit_off 174 _ (xmalloc ex_null_machine)).
    + lia.
    + vm_compute. reflexivity.
    + vm_compute. reflexivity.
    + vm_compute. discriminate.
    + vm_compute. reflexivity.
    + vm_compute. discriminate.
    + right. vm_compute. discriminate.
  - eapply (proj2 (proj1 (proj2 (proj2 (proj2 (@decode_failure_outcomes ex_host))))
                     20%nat ex_machine2 (ex_tree_p_off + 1) 34 1 (ex_tree_p_off + 2)
                     ltac:(vm_compute; reflexivity))
              ltac:(vm_compute; discriminate) (-1) (xmalloc ex_tree_p_machine)).
    + vm_compute. reflexivity.
    + left. lia.
  - eapply (proj1 (proj2 (proj2 (proj2 (proj2 (@decode_failure_outcomes ex_host)))))
              4%nat ex_tree_p_machine _ (xmallocz 34) 14 (ex_tree_p_off + 3) _
              (InTable 0) (ex_tree_p_off + 4)).
    + cbn. discriminate.
    + split.
      * vm_compute. discriminate.
      * exists 14. split; [vm_compute; reflexivity|].
        split; [reflexivity|]. vm_compute. discriminate.
    + reflexivity.
    + reflexivity.
    + vm_compute. reflexivity.
    + vm_compute. discriminate.
    + vm_compute. reflexivity.
Defined.

(** C9 as stated fails: a commit whose tree reference has index 9 in a pack
    of 3 objects does not come back as NULL, the process is ended. *)
Lemma bad_hash_index_aborts :
  @pv4_get_commit ex_host 5 ex_machine ex_bad_commit_off 40 = Die BadIndex
  /\ ~ (exists m', @pv4_get_commit ex_host 5 ex_machine ex_bad_commit_off 40
                   = Done (None, m')).
Proof.
  assert (E : @pv4_get_commit ex_host 5 ex_machine ex_bad_commit_off 40 = Die BadIndex)
    by (vm_compute; reflexivity).
  split; [exact E|]. intros [m' E']. rewrite E in E'. discriminate.
Qed.

Lemma copy_range_equals_source_range_witness :
  @entries_loop ex_host 20 ex_machine ex_frame_b (xmallocz 64)
  = @entries_loop ex_host 19 ex_source_machine
      (next_frame ex_frame_b (f_offset ex_frame_b) (ex_tree_b_off + 5)
         (wrap64 (ex_tree_b_off + 5 - f_offset ex_frame_b)) 0
         (wrap32 (f_count ex_frame_b - Z.min (Z.shiftr (wrap32 5) 1 - 0) 2))
         ex_tree_a_off)
      (rebase (emitted (xmallocz 64)) ex_source_dest).
Proof.
  apply (proj1 (@copy_range_equals_source_range ex_host 19 ex_machine ex_frame_b
                  (xmallocz 64) 3 (ex_tree_b_off + 3) 5 (ex_tree_b_off + 4)
                  ex_tree_a_off (ex_tree_b_off + 5) 0 ex_source_machine ex_source_dest
                  ltac:(split; [vm_compute; discriminate
                               |exists 3; split; [vm_compute; reflexivity
                                                 |split; [reflexivity|vm_compute; discriminate]]])
                  ltac:(reflexivity)
                  ltac:(vm_compute; reflexivity)
                  ltac:(vm_compute; reflexivity)
                  ltac:(vm_compute; discriminate)
                  ltac:(vm_compute; split; [discriminate|reflexivity])
                  ltac:(reflexivity)
                  ltac:(vm_compute; reflexivity))).
Defined.

(** C2 as stated fails: tree J declares one entry and holds a copy record
    for the entries [1, 3) of tree A.  Decoded with 30 bytes declared it is
    returned, and holds entry 1 of A only; the entries [1, 3) of A are 64
    bytes. *)
Lemma clipped_copy_range_is_shorter :
  exists blk m' mA dA,
    varint_at (handle ex_machine2) (ex_tree_j_off + 2) = Done (3, ex_tree_j_off + 3)
    /\ varint_at (handle ex_machine2) (ex_tree_j_off + 3) = Done (5, ex_tree_j_off + 4)
    /\ @pv4_get_tree ex_host 20 ex_machine2 (ex_tree_j_off + 1) 30 = Done (Some blk, m')
    /\ @decode_entries ex_host 19 ex_machine2 ex_tree_a_off 1 2 (xmallocz 64) true
       = Done (0, mA, dA)
    /\ len (emitted dA) = 64
    /\ blk = firstn 30 (emitted dA) ++ [Some 0]
    /\ blk <> emitted dA ++ [Some 0].
Proof.
  eexists _, _, _, _.
  split; [vm_compute; reflexivity|]. split; [vm_compute; reflexivity|].
  split; [vm_compute; reflexivity|]. split; [vm_compute; reflexivity|].
  split; [vm_compute; reflexivity|]. split; [vm_compute; reflexivity|].
  vm_compute. discriminate.
Qed.

(** C7: every emit step of [pv4_get_commit] detects overflow, the tree line
    included.  The tree line is emitted without a test: with 45 bytes
    declared, the 46 bytes of the line move the write pointer to the end of
    the block and leave [size] at 2^64 - 1, where a tested step dies; the
    decoder goes on and stores the next line outside the block. *)
Theorem tree_line_overflow_is_not_detected :
  (forall d text why, emit_tree_line d text <> Die why)
  /\ (exists d, emit_tree_line (xmallocz 45) (tree_line (repeat 17 20)) = Done d
                /\ room d = [] /\ sizep d = 2 ^ 64 - 1)
  /\ emit_checked (xmallocz 45) (tree_line (repeat 17 20)) = Die Overflow
  /\ @pv4_get_commit ex_host 5 ex_machine ex_commit_off 45 = Fault.
Proof.
  split; [|split; [|split]].
  - intros d text why. unfold emit_tree_line, snprintf, store.
    destruct (_ && _); cbn [obind]; [|discriminate].
    unfold advance. destruct (_ && _); discriminate.
  - eexists. split; [vm_compute; reflexivity|]. split; reflexivity.
  - vm_compute. reflexivity.
  - vm_compute. reflexivity.
Qed.

Example varint_scenarios :
  decode_varint [0] = Some (0, 1) /\ decode_varint [127] = Some (127, 1) /\
  decode_varint [128; 0] = Some (128, 2) /\ decode_varint [255; 127] = Some (16511, 2).
Proof. repeat split. Qed.

Example sha1ref_indexed :
  get_sha1ref (ex_pack [2]) 0 = Done (InTable 20, 1) /\
  load_n (ex_pack [2]) (InTable 20) 20 = Some (repeat 34 20).
Proof. split; reflexivity. Qed.

(** Scenario 2: the inline form. *)
Example sha1ref_inline :
  get_sha1ref (ex_pack (0 :: repeat 170 20)) 0 = Done (InPack 1, 21) /\
  load_n (ex_pack (0 :: repeat 170 20)) (InPack 1) 20 = Some (repeat 170 20).
Proof. split; reflexivity. Qed.

(** Scenario 5: the first entry of tree A is [100644 README], a NUL and the
    hash. *)
Example ex_tree_a_first_entry :
  firstn 34 ex_tree_a_blk
  = cells_of (bytes_of_string "100644 README" ++ [0] ++ repeat 17 20).
Proof. vm_compute. reflexivity. Qed.

(** Scenario 6: tree B, a copy of the entries 1 and 2 of tree A, decodes to
    those entries of the decoded tree A. *)
Example ex_tree_b_is_range_of_a :
  ex_tree_b_blk = firstn 64 (skipn 34 ex_tree_a_blk) ++ [Some 0].
Proof. vm_compute. reflexivity. Qed.

(** * Further properties *)

(** ** Hash references and the frame cursor *)

(** X1: a hash reference that is read never is NULL and always moves the
    cursor forward: by 21 for the inline form, by the bytes of the index
    otherwise; an index read is between 1 and [num_objects + 1]. *)
Theorem get_sha1ref_returns :
  forall (p : packed_git) (buf : Z) (q : ptr) (buf' : Z),
    get_sha1ref p buf = Done (q, buf') ->
    is_null q = false
    /\ buf < buf'
    /\ ((load p (InPack buf) = Some 0 /\ q = InPack (buf + 1) /\ buf' = buf + 21)
        \/ (exists b v, load p (InPack buf) = Some b /\ b <> 0
                        /\ varint_at p buf = Done (v, buf')
                        /\ 1 <= wrap32 v <= num_objects p + 1
                        /\ q = InTable (wrap32 ((wrap32 v - 1) * 20)))).
Proof.
  intros p buf q buf' E. unfold get_sha1ref in E.
  bind_case E as b Eb. must_inv Eb.
  destruct (Z.eqb_spec b 0) as [->|Nb].
  - inversion E; subst. split; [reflexivity|]. split; [lia|]. left. auto.
  - bind_case E as [v s] Ev.
    destruct (_ || _) eqn:G; [discriminate|].
    apply orb_false_iff in G. destruct G as [G1 G2].
    apply Z.ltb_ge in G1. pose proof (wrap32_range v) as R.
    rewrite (wrap32_small (wrap32 v - 1)) in G2 by lia.
    assert (G2' : wrap32 v - 1 <= num_objects p)
      by (destruct (Z.gtb_spec (wrap32 v - 1) (num_objects p)); [discriminate|lia]).
    inversion E; subst. split; [reflexivity|].
    split.
    + destruct (varint_at_consumed _ _ _ _ Ev) as [[-> _]|]; [|assumption].
      change (wrap32 0) with 0 in G1. lia.
    + right. exists b, v. repeat split; auto; lia.
Qed.

Lemma get_sha1ref_forward (p : packed_git) (buf : Z) (q : ptr) (buf' : Z) :
  get_sha1ref p buf = Done (q, buf') -> buf < buf'.
Proof.
  intros E. unfold get_sha1ref in E. bind_case E as b Eb.
  destruct (b =? 0); [inversion E; lia|].
  bind_case E as [v s] Ev. destruct (_ || _) eqn:G; [discriminate|].
  apply orb_false_iff in G. destruct G as [G _]. apply Z.ltb_ge in G.
  inversion E; subst.
  destruct (varint_at_consumed _ _ _ _ Ev) as [[-> _]|]; [|assumption].
  change (wrap32 0) with 0 in G. lia.
Qed.

Section Cursor.
Context {host : Host}.

Lemma skip_varint_advances (bs : list byte) :
  forall k k', skip_varint bs k = Done k' -> k < k'.
Proof.
  induction bs as [|b rest IH]; intros k k'; cbn [skip_varint]; [discriminate|].
  destruct (Z.testbit b 7).
  - intros E. apply IH in E. lia.
  - intros E; inversion E; lia.
Qed.

Lemma varint_at_forward (p : packed_git) (scp v scp' : Z) :
  varint_at p scp = Done (v, scp') -> scp <= scp'.
Proof. intros E. destruct (varint_at_consumed _ _ _ _ E) as [[_ ->]|]; lia. Qed.

(** X2: every iteration of the entry loop that goes on to a next one has
    moved the stream offset forward by at least one byte. *)
Theorem entries_step_moves_forward :
  forall (rec : decoder) (fuel : nat) (m : machine) (f : frame) (d : dest)
         (f' : frame) (m' : machine) (d' : dest),
    entries_step rec fuel m f d = Done (Continue f', m', d') ->
    f_offset f < f_offset f'.
Proof.
  intros rec fuel m f d f' m' d' E.
  destruct (entries_step_continue _ _ _ _ _ _ _ _ E) as (what & scp & R).
  rewrite (entries_step_dispatch _ _ _ _ _ _ _ R) in E.
  destruct R as (_ & v & V & _ & N).
  assert (S : f_offset f < scp).
  { destruct (varint_at_consumed _ _ _ _ V) as [[_ ->]|]; [contradiction|assumption]. }
  destruct (_ && _).
  - unfold skip_entry in E. bind_case E as b Eb. bind_case E as scp1 E1.
    inversion E; subst; clear E. cbn [next_frame f_offset].
    destruct (b =? 0).
    + inversion E1; subst. lia.
    + bind_case E1 as bs Ebs. bind_case E1 as k Ek. inversion E1; subst.
      apply skip_varint_advances in Ek. lia.
  - destruct (negb _).
    + unfold emit_entry in E.
      bind_case E as [path m1] Ep. bind_case E as [sha1 scp1] Es.
      destruct (_ || _); [discriminate|].
      bind_case E as p0 E0. bind_case E as p1 E1. bind_case E as name En.
      bind_case E as [d1 l] Ed1. destruct (_ >? _); [discriminate|].
      bind_case E as h Eh. bind_case E as r Er. bind_case E as d2 Ed2.
      inversion E; subst; clear E. cbn [next_frame f_offset].
      apply get_sha1ref_forward in Es. lia.
    + unfold copy_range in E.
      bind_case E as [v2 scp1] Ev2. apply varint_at_forward in Ev2.
      destruct (_ =? 0); [discriminate|].
      bind_case E as [off scp2] Ec.
      assert (S2 : scp1 <= scp2).
      { unfold copy_source in Ec. destruct (Z.testbit _ 0).
        - bind_case Ec as [v3 scp3] Ev3. apply varint_at_forward in Ev3.
          destruct (_ =? 0).
          + bind_case Ec as h Eh. inversion Ec; subst. lia.
          + inversion Ec; subst. lia.
        - inversion Ec; subst. lia. }
      destruct (_ =? 0); [discriminate|].
      destruct (_ >=? _).
      * inversion E; subst. cbn [next_frame f_offset]. lia.
      * bind_case E as [[ret m1] d1] Er.
        destruct (negb _); [discriminate|].
        inversion E; subst. cbn [next_frame f_offset]. lia.
Qed.

End Cursor.

(** ** Dictionaries on demand *)

Section Demand.
Context {host : Host}.

(** X3: [load_dict] leaves the pack handle alone; when it returns a
    dictionary two more heap blocks are live (the data and the offset
    table), and when it returns NULL none is: every error return has freed
    the data block. *)
Theorem load_dict_heap :
  forall (fuel : nat) (m : machine) (offset : Z)
         (r : option (packv4_dict * Z)) (m' : machine),
    load_dict fuel m offset = Done (r, m') ->
    handle m' = handle m
    /\ live m' = live m + match r with Some _ => 2 | None => 0 end.
Proof.
  unfold load_dict, use_pack. intros fuel m offset r m' E.
  bind_case E as [dict_size cp] Ev.
  destruct (_ <? 3); [inversion E; subst; split; [reflexivity|lia]|].
  bind_case E as [[st out] curpos1] Ei. bind_case E as blk1 Es.
  destruct (_ || _); [inversion E; subst; cbn; split; [reflexivity|lia]|].
  bind_case E as [cp1 nb] Ec.
  destruct (negb _); [inversion E; subst; cbn; split; [reflexivity|lia]|].
  bind_case E as offs Eo. inversion E; subst; cbn; split; [reflexivity|lia].
Qed.

(** X4: a dictionary that cannot be loaded ends the process.  When
    [load_dict] returns NULL for the identity dictionary, an identity lookup
    and a path lookup both die in [load_ident_dict]; when the identity
    dictionary is there and [load_dict] returns NULL for the path
    dictionary, a path lookup dies in [load_path_dict].  No lookup reports
    it as a NULL result. *)
Theorem dict_load_failure_is_fatal :
  forall (fuel : nat) (m m1 : machine),
    (ident_dict (handle m) = None ->
     load_dict fuel m (wrap32 (12 + num_objects (handle m) * 20)) = Done (None, m1) ->
     (forall scp, get_identref fuel m scp = Die BadIdentDict)
     /\ (forall index, path_dict (handle m) = None ->
                       get_pathref fuel m index = Die BadIdentDict))
    /\ (ident_dict (handle m) <> None -> path_dict (handle m) = None ->
        load_dict fuel m (ident_dict_end (handle m)) = Done (None, m1) ->
        forall index, get_pathref fuel m index = Die BadPathDict).
Proof.
  intros fuel m m1. split.
  - intros L E.
    assert (X : ensure_ident_dict fuel m = Die BadIdentDict).
    { unfold ensure_ident_dict, load_ident_dict. rewrite L, E. reflexivity. }
    split.
    + intros scp. unfold get_identref. rewrite X. reflexivity.
    + intros index P. unfold get_pathref, load_path_dict. rewrite P, X. reflexivity.
  - intros L P E index. unfold get_pathref, load_path_dict, ensure_ident_dict.
    rewrite P. destruct (ident_dict (handle m)); [|contradiction].
    cbn [obind]. rewrite E. reflexivity.
Qed.

(** X5: a dictionary is loaded once.  After a lookup that returned, the
    same lookup again gives the same result without reading the pack's
    dictionary section: it needs no fuel, allocates nothing and leaves the
    state as it is. *)
Theorem lookups_load_once :
  forall (fuel : nat) (m : machine),
    (forall scp q scp' m1,
        get_identref fuel m scp = Done (q, scp', m1) ->
        forall fuel', get_identref fuel' m1 scp = Done (q, scp', m1))
    /\ (forall index q m1,
        get_pathref fuel m index = Done (q, m1) ->
        forall fuel', get_pathref fuel' m1 index = Done (q, m1)).
Proof.
  intros fuel m. split.
  - intros scp q scp' m1 E fuel'. unfold get_identref in E.
    bind_case E as m2 E1. bind_case E as [v s] Ev. bind_case E as q0 Eq.
    inversion E; subst; clear E.
    destruct (dict_ref_loaded _ _ _ _ Eq) as [dct L].
    unfold get_identref, ensure_ident_dict. rewrite L. cbn [obind].
    rewrite Ev. cbn [obind]. rewrite Eq. reflexivity.
  - intros index q m1 E fuel'. unfold get_pathref in E.
    bind_case E as m2 E1. bind_case E as q0 Eq. inversion E; subst; clear E.
    destruct (dict_ref_loaded _ _ _ _ Eq) as [dct L].
    unfold get_pathref. rewrite L. cbn [obind]. rewrite Eq. reflexivity.
Qed.

(** X6: a decode that returns a buffer keeps the pack handle usable and
    leaves exactly one more live block that is not a dictionary's: the
    buffer returned. *)
Theorem decode_success_heap :
  forall (fuel : nat) (m : machine) (offset size : Z) (blk : list (option Z))
         (m' : machine),
    (pv4_get_commit fuel m offset size = Done (Some blk, m') ->
     same_pack (xmalloc m) m')
    /\ (pv4_get_tree fuel m offset size = Done (Some blk, m') ->
        same_pack (xmalloc m) m').
Proof.
  intros fuel m offset size blk m'. split.
  - unfold pv4_get_commit, use_pack. intros E.
    bind_case E as [sha1 scp1] Etree.
    bind_case E as h Eh.
    bind_case E as d1 Ed1.
    bind_case E as [v scp2] Ev.
    bind_case E as [scp3 d2] Ed2.
    bind_case E as [ct scp4] Ect.
    bind_case E as [[ident scp5] m1] Eci.
    bind_case E as ctz Ectz.
    bind_case E as [delta scp6] Edelta.
    bind_case E as [[ident' scp7] m2] Eai.
    bind_case E as atz Eatz.
    bind_case E as aname Eaname.
    bind_case E as d3 Ed3.
    bind_case E as cname Ecname.
    bind_case E as d4 Ed4.
    destruct (_ >? _); [discriminate|].
    bind_case E as [[st out] curpos] Einf.
    bind_case E as r Er.
    destruct (_ || _); [discriminate|]. inversion E; subst.
    eapply same_pack_trans; eapply get_identref_same; eauto.
  - unfold pv4_get_tree, use_pack. intros E.
    bind_case E as [v scp] Ev.
    destruct (_ =? _); [discriminate|].
    bind_case E as [[ret m1] d1] Ed. apply decode_entries_same in Ed.
    destruct (_ || _); [discriminate|]. inversion E; subst. assumption.
Qed.

End Demand.

(** ** Copy sources *)

Section Sources.
Context {host : Host}.

Lemma skip_object_header_wrong_type (hdr : list byte) (b : byte) (rest : list byte) :
  Forall (fun c => Z.testbit c 7 = true) hdr ->
  Z.testbit b 7 = false -> Z.land b 15 <> OBJ_PV4_TREE ->
  forall k avail, skip_object_header (hdr ++ b :: rest) k avail = Done None.
Proof.
  intros H B T. induction H as [|c hdr Hc _ IH]; intros k avail; cbn [app skip_object_header].
  - rewrite B. destruct (Z.eqb_spec (Z.land b 15) OBJ_PV4_TREE); [contradiction|reflexivity].
  - rewrite Hc. destruct (_ >=? _); [reflexivity|apply IH].
Qed.

(** X7: an object whose header does not carry the tree type is never read
    as a copy source: when the last header byte (the first with bit 7 clear)
    has another type in its low four bits, [decode_entries] with [parse_hdr]
    returns -1 before it reads an entry count, leaving the state and the
    destination as they were. *)
Theorem copy_source_must_be_a_tree :
  forall (fuel : nat) (m : machine) (offset start count : Z) (d : dest)
         (hdr : list byte) (b : byte) (rest : list byte),
    at_off (pack_data (handle m)) offset = Some (hdr ++ b :: rest) ->
    Forall (fun c => Z.testbit c 7 = true) hdr ->
    Z.testbit b 7 = false -> Z.land b 15 <> OBJ_PV4_TREE ->
    decode_entries fuel m offset start count d true = Done (-1, m, d).
Proof.
  intros fuel m offset start count d hdr b rest A H B T.
  unfold decode_entries, decode_entries_with, entries_prologue, use_pack.
  rewrite A. cbn [obind must].
  rewrite (skip_object_header_wrong_type hdr b rest H B T). reflexivity.
Qed.

(** X8: a tree that copies from itself is decoded without end.  When the
    first record of the tree at [offset] is a copy record with start 0 whose
    source is [offset] again and whose range covers the entries asked for,
    the recursive call is the call itself: whatever the fuel, the decoder
    runs out of it.  Nothing bounds the depth of the recursion. *)
Theorem self_copy_never_returns :
  forall (m : machine) (offset start count : Z) (f0 : frame)
         (scp v2 scp1 scp2 : Z),
    0 <= start < 2 ^ 32 -> 0 < count ->
    entries_prologue (handle m) offset start count true = Done (Some f0) ->
    reads_record (handle m) f0 1 scp ->
    varint_at (handle m) scp = Done (v2, scp1) ->
    start + count <= Z.shiftr (wrap32 v2) 1 ->
    copy_source (handle m) scp1 (wrap32 v2) 0 = Done (offset, scp2) ->
    offset <> 0 ->
    forall (fuel : nat) (d : dest),
      decode_entries fuel m offset start count d true = OutOfFuel.
Proof.
  intros m offset start count f0 scp v2 scp1 scp2 S C P R V N CS NZ.
  destruct (entries_prologue_checks _ _ _ _ _ _ (proj1 S) (or_intror C) P)
    as (_ & _ & _ & _ & _ & _ & _ & _ & _ & Fs & Fc & Fo).
  assert (L : forall fuel d, entries_loop fuel m f0 d = OutOfFuel).
  { induction fuel as [|k IH]; intros d; cbn [entries_loop]; [reflexivity|].
    rewrite Fc. destruct (Z.eqb_spec count 0); [lia|].
    rewrite (entries_step_dispatch _ _ _ _ _ _ _ R).
    change (Z.testbit 1 0) with true. cbn [negb andb].
    unfold copy_range. rewrite V. cbn [obind].
    pose proof (wrap32_range v2) as R2.
    assert (N2 : Z.shiftr (wrap32 v2) 1 < 2 ^ 32).
    { rewrite Z.shiftr_div_pow2 by lia. change (2 ^ 1) with 2.
      apply Z.div_lt_upper_bound; lia. }
    destruct (Z.eqb_spec (wrap32 v2) 0) as [Z0|_].
    { rewrite Z0 in N. change (Z.shiftr 0 1) with 0 in N. lia. }
    rewrite Fo, CS. cbn [obind].
    destruct (Z.eqb_spec offset 0); [contradiction|].
    rewrite Fs, Fc.
    destruct (Z.geb_spec start (Z.shiftr (wrap32 v2) 1)); [lia|].
    change (Z.shiftr 1 1) with 0.
    rewrite (wrap32_small (Z.shiftr (wrap32 v2) 1 - start)) by lia.
    rewrite (wrap32_small (0 + start)) by lia.
    destruct (Z.gtb_spec (Z.shiftr (wrap32 v2) 1 - start) count) as [G|G].
    - unfold decode_entries_with. replace (0 + start) with start by lia.
      rewrite P. cbn [obind]. rewrite IH. reflexivity.
    - replace (Z.shiftr (wrap32 v2) 1 - start) with count by lia.
      unfold decode_entries_with. replace (0 + start) with start by lia.
      rewrite P. cbn [obind]. rewrite IH. reflexivity. }
  intros fuel d. unfold decode_entries, decode_entries_with. rewrite P. cbn [obind].
  apply L.
Qed.

(** ** Commits: identities and the declared size *)

(** X9: an identity index past the dictionary is not caught by
    [pv4_get_commit].  [get_identref] returns NULL for it, and the commit
    reconstructor reads the timezone through that NULL: the call neither
    returns NULL nor dies with a message. *)
Theorem commit_ident_out_of_range_faults :
  forall (fuel : nat) (m : machine) (offset size : Z)
         (sha1 : ptr) (scp1 : Z) (h : list byte) (d1 : dest) (v scp2 scp3 : Z)
         (d2 : dest) (ct scp4 : Z) (m1 : machine) (dct : packv4_dict) (iv scp5 : Z),
    get_sha1ref (handle m) offset = Done (sha1, scp1) ->
    load_n (handle m) sha1 20 = Some h ->
    emit_tree_line (xmallocz size) (tree_line h) = Done d1 ->
    varint_at (handle m) scp1 = Done (v, scp2) ->
    emit_parents (Z.to_nat (wrap32 v)) (handle m) scp2 d1 = Done (scp3, d2) ->
    varint_at (handle m) scp3 = Done (ct, scp4) ->
    ensure_ident_dict fuel (xmalloc m) = Done m1 ->
    ident_dict (handle m1) = Some dct ->
    varint_at (handle m1) scp4 = Done (iv, scp5) ->
    wrap32 (nb_entries dct) <= wrap32 iv ->
    get_identref fuel (xmalloc m) scp4 = Done (Null, scp5, m1)
    /\ pv4_get_commit fuel m offset size = Fault.
Proof.
  intros fuel m offset size sha1 scp1 h d1 v scp2 scp3 d2 ct scp4 m1 dct iv scp5
         Es Eh Ed1 Ev Ed2 Ect En L Ei I.
  assert (G : get_identref fuel (xmalloc m) scp4 = Done (Null, scp5, m1)).
  { unfold get_identref. rewrite En. cbn [obind]. rewrite Ei. cbn [obind].
    rewrite L. cbn [dict_ref].
    destruct (Z.geb_spec (wrap32 iv) (wrap32 (nb_entries dct))); [reflexivity|lia]. }
  split; [exact G|].
  unfold pv4_get_commit, use_pack. cbn [handle xmalloc] in *.
  rewrite Es. cbn [obind]. rewrite Eh. cbn [obind must].
  rewrite Ed1. cbn [obind]. rewrite Ev. cbn [obind]. rewrite Ed2. cbn [obind].
  rewrite Ect. cbn [obind]. rewrite G. reflexivity.
Qed.

Lemma emit_checked_room (total : Z) (d d' : dest) (text : list byte) :
  total < 2 ^ 64 -> dest_inv total d ->
  emit_checked d text = Done d' -> 0 < sizep d'.
Proof.
  intros T I E. unfold emit_checked in E.
  destruct (Z.ltb_spec (len text) (sizep d)) as [L|L].
  - destruct (emit_fits total d text T I L) as (d1 & d2 & S1 & A & _ & _ & S2).
    rewrite S1 in E. cbn [obind] in E.
    apply snprintf_result in S1. destruct S1 as (_ & S1 & _). rewrite S1 in E.
    destruct (Z.geb_spec (len text) (sizep d)); [lia|].
    rewrite A in E. inversion E; subst. lia.
  - bind_inv E. destruct a as [d1 l].
    apply snprintf_result in E0. destruct E0 as (-> & S1 & _). rewrite S1 in E.
    destruct (Z.geb_spec (len text) (sizep d)); [discriminate|lia].
Qed.

(** X10: [pv4_get_commit] comes back to its caller, with a buffer or with
    NULL, only if the header lines are strictly shorter than the declared
    size: the test after the committer line dies on [len >= size].  So a
    commit whose body is empty is never decoded, and a declared size that
    the header alone reaches is never reported as a NULL result. *)
Theorem commit_header_leaves_a_byte :
  forall (fuel : nat) (m : machine) (offset size : Z)
         (r : option (list (option Z))) (m' : machine),
    0 <= size < 2 ^ 64 ->
    pv4_get_commit fuel m offset size = Done (r, m') ->
    exists f m2,
      parse_commit fuel (xmalloc m) offset = Done (f, m2)
      /\ len (commit_header_text f) < size.
Proof.
  intros fuel m offset size r0 m' S E. unfold pv4_get_commit, use_pack in E.
  bind_case E as [sha1 scp1] Etree.
  bind_case E as h Eh.
  bind_case E as d1 Ed1.
  bind_case E as [v scp2] Ev.
  bind_case E as [scp3 d2] Ed2.
  bind_case E as [ct scp4] Ect.
  bind_case E as [[ident scp5] m1] Eci.
  bind_case E as ctz Ectz.
  bind_case E as [delta scp6] Edelta.
  bind_case E as [[ident' scp7] m2] Eai.
  bind_case E as atz Eatz.
  bind_case E as aname Eaname.
  bind_case E as d3 Ed3.
  bind_case E as cname Ecname.
  bind_case E as d4 Ed4.
  clear E.
  destruct (get_identref_loaded _ _ _ _ _ _ Eci) as [dct L1].
  pose proof (get_identref_again _ _ _ _ _ _ _ L1 Eai). subst m2.
  assert (T : size < 2 ^ 64) by lia.
  pose proof (xmallocz_inv size (proj1 S)) as I0.
  apply (emit_tree_line_inv size) in Ed1; auto.
  destruct Ed1 as [[I1 Em1]|D1].
  2:{ exfalso. eapply emit_parents_dead in D1; eauto.
      exact (emit_checked_dead _ _ _ D1 Ed3). }
  destruct (emit_parents_inv size _ _ _ _ _ _ T I1 Ed2) as (hs & PP & I2 & Em2).
  pose proof (emit_checked_inv size _ _ _ T I2 Ed3) as [I3 Em3].
  pose proof (emit_checked_room size _ _ _ T I3 Ed4) as R4.
  pose proof (emit_checked_inv size _ _ _ T I3 Ed4) as [I4 Em4].
  destruct I4 as (bs & junk & He & Hr & Hj & Ht).
  exists {| c_tree := h; c_parents := hs; c_time := ct; c_committer_tz := ctz;
            c_committer := cname; c_delta := delta; c_author_tz := atz;
            c_author := aname; c_body := scp7 |}, m1.
  split.
  { unfold parse_commit. cbn [handle xmalloc] in *.
    rewrite Etree. cbn [obind]. rewrite Eh. cbn [obind].
    rewrite Ev. cbn [obind]. rewrite PP. cbn [obind].
    rewrite Ect. cbn [obind]. unfold parse_ident.
    rewrite Eci. cbn [obind]. rewrite Ectz. cbn [obind]. rewrite Ecname. cbn [obind].
    rewrite Edelta. cbn [obind]. rewrite Eai. cbn [obind].
    rewrite Eatz. cbn [obind]. rewrite Eaname. cbn [obind]. reflexivity. }
  assert (Hbs : bs = commit_header_text
                       {| c_tree := h; c_parents := hs; c_time := ct;
                          c_committer_tz := ctz; c_committer := cname;
                          c_delta := delta; c_author_tz := atz;
                          c_author := aname; c_body := scp7 |}).
  { rewrite Em4, Em3, Em2, Em1 in He. cbn [emitted xmallocz app] in He.
    rewrite <- !map_app in He.
    assert (Inj : forall l1 l2 : list Z, map Some l1 = map Some l2 -> l1 = l2).
    { induction l1; destruct l2; simpl; intros X; try discriminate; auto.
      inversion X; subst. f_equal; auto. }
    apply Inj in He. rewrite <- He. unfold commit_header_text.
    cbn [c_tree c_parents c_time c_committer_tz c_committer c_delta c_author_tz c_author].
    rewrite author_time_of_spec, <- !app_assoc. reflexivity. }
  rewrite <- Hbs. lia.
Qed.

End Sources.

(** ** Loaded dictionaries *)

Lemma until_nul_split (bs s : list byte) :
  until_nul bs = Some s -> no_nul s /\ exists rest, bs = s ++ 0 :: rest.
Proof.
  revert s. induction bs as [|c bs IH]; intros s; cbn [until_nul]; [discriminate|].
  destruct (Z.eqb_spec c 0) as [->|N].
  - intros E; inversion E; subst. split; [constructor|]. exists bs. reflexivity.
  - destruct (until_nul bs) as [s'|]; [|discriminate].
    intros E; inversion E; subst. destruct (IH s' eq_refl) as [Ns [rest ->]].
    split; [constructor; assumption|]. exists rest. reflexivity.
Qed.

Lemma at_off_skip {A} (l suf : list A) (cp k : Z) :
  at_off l cp = Some suf -> 0 <= k ->
  forall bs, at_off l (cp + k) = Some bs -> bs = skipn (Z.to_nat k) suf /\ k <= len suf.
Proof.
  unfold at_off. intros E K bs E'.
  destruct (_ && _) eqn:G; [|discriminate].
  apply andb_true_iff in G. destruct G as [G1 G2]. apply Z.leb_le in G1, G2.
  destruct (_ && _) eqn:G' in E'; [|discriminate].
  apply andb_true_iff in G'. destruct G' as [G3 G4]. apply Z.leb_le in G3, G4.
  inversion E; subst; clear E. inversion E'; subst; clear E'.
  rewrite skipn_skipn. split.
  - f_equal. lia.
  - unfold len in *. rewrite length_skipn. lia.
Qed.

Lemma at_off_suffix {A} (l suf : list A) (cp k : Z) :
  at_off l cp = Some suf -> 0 <= k <= len suf ->
  at_off l (cp + k) = Some (skipn (Z.to_nat k) suf).
Proof.
  unfold at_off. intros E K.
  destruct (_ && _) eqn:G; [|discriminate].
  apply andb_true_iff in G. destruct G as [G1 G2]. apply Z.leb_le in G1, G2.
  inversion E; subst; clear E.
  unfold len in K. rewrite length_skipn in K.
  destruct (Z.leb_spec 0 (cp + k)); [|lia].
  destruct (Z.leb_spec (cp + k) (len l)); [|unfold len in *; lia].
  cbn [andb]. rewrite skipn_skipn. f_equal. f_equal. lia.
Qed.

Section Loaded.
Context {host : Host}.

(** What the first pass has walked over when it ends at [dict_size]: whole
    records, the last of them with a string of at least one byte. *)
Lemma count_entries_records (blk : list byte) (dict_size : Z) (fuel : nat) :
  at_off blk dict_size = Some [0] ->
  forall (cp nb nb1 : Z) (suf : list byte),
    at_off blk cp = Some suf ->
    count_entries fuel blk dict_size cp nb = Done (dict_size, nb1) ->
    exists rs, Forall well_formed_record rs
               /\ suf = encode_records rs ++ [0]
               /\ nb1 = nb + len rs
               /\ (cp < dict_size - 3 -> rs <> [])
               /\ (forall a b, last rs (a, b, [0]) <> (a, b, [])).
Proof.
  intros End. induction fuel as [|g IH]; intros cp nb nb1 suf A E;
    cbn [count_entries] in E; [discriminate|].
  destruct (Z.ltb_spec cp (dict_size - 3)) as [Lt|Ge].
  - bind_case E as n En. must_inv En. unfold strlen_in in En.
    destruct (at_off blk (cp + 2)) as [bs|] eqn:A2; [|discriminate].
    destruct (until_nul bs) as [s|] eqn:U; [|discriminate].
    cbn [option_map] in En. inversion En; subst n; clear En.
    destruct (until_nul_split _ _ U) as [Ns [rest Hbs]].
    destruct (at_off_skip _ _ _ 2 A ltac:(lia) _ A2) as [S2 L2].
    destruct suf as [|a [|b suf']]; try (unfold len in L2; simpl in L2; lia).
    change (Z.to_nat 2) with 2%nat in S2. cbn [skipn] in S2. subst suf'.
    rewrite Hbs in *.
    assert (A3 : at_off blk (cp + 2 + len s + 1) = Some rest).
    { replace (cp + 2 + len s + 1) with (cp + (3 + len s)) by lia.
      rewrite (at_off_suffix _ _ _ _ A).
      - f_equal. replace (Z.to_nat (3 + len s)) with (S (S (length s + 1)))
          by (unfold len; lia).
        cbn [skipn].
        replace (s ++ 0 :: rest) with ((s ++ [0]) ++ rest)
          by (rewrite <- app_assoc; reflexivity).
        rewrite skipn_app. replace (length s + 1)%nat with (length (s ++ [0]))
          by (rewrite length_app; reflexivity).
        rewrite skipn_all, Nat.sub_diag. reflexivity.
      - pose proof (len_nonneg s). unfold len. cbn [length].
        rewrite length_app. cbn [length]. unfold len. lia. }
    destruct (IH _ _ _ _ A3 E) as (rs & W & Hs & Hn & Hne & Hlast).
    exists ((a, b, s) :: rs). split; [constructor; assumption|].
    split.
    { unfold encode_records in *. cbn [flat_map dict_record]. rewrite Hs.
      cbn [app]. rewrite <- !app_assoc. reflexivity. }
    split; [unfold len in *; cbn [length]; lia|].
    split; [discriminate|].
    intros a0 b0 H.
    destruct rs as [|r rs'].
    + cbn [last] in H. inversion H; subst.
      (* the record ends at dict_size and started before dict_size - 3 *)
      change (len (@nil Z)) with 0 in *.
      destruct (Z.ltb_spec (cp + 2 + 0 + 1) (dict_size - 3)) as [X|X].
      * exfalso. apply Hne; [exact X|reflexivity].
      * destruct g as [|g']; cbn [count_entries] in E; [discriminate|].
        destruct (Z.ltb_spec (cp + 2 + 0 + 1) (dict_size - 3)); [lia|].
        inversion E. lia.
    + apply (Hlast a0 b0). exact H.
  - inversion E; subst. rewrite End in A. inversion A; subst.
    exists []. split; [constructor|]. split; [reflexivity|].
    split; [unfold len; simpl; lia|]. split; [lia|]. intros a b; cbn; discriminate.
Qed.

(** X11: what [load_dict] returns is a sequence of whole records.  The data
    block is the records followed by the NUL of [xmallocz], there is one
    entry and one offset for each record, no string holds a NUL, and the
    string of the last record is not empty. *)
Theorem load_dict_returns_records :
  forall (fuel : nat) (m : machine) (offset : Z) (dct : packv4_dict) (e : Z)
         (m' : machine),
    load_dict fuel m offset = Done (Some (dct, e), m') ->
    exists rs a b s,
      Forall well_formed_record rs /\ no_nul s /\ s <> []
      /\ dct = dict_of (rs ++ [(a, b, s)]).
Proof.
  intros fuel m offset dct e m' E. unfold load_dict, use_pack in E.
  bind_case E as [dict_size cp] Ev.
  destruct (Z.ltb_spec dict_size 3) as [|D3]; [discriminate|].
  bind_case E as [[st out] curpos1] Ei. bind_case E as blk1 Es.
  destruct (_ || _) eqn:G; [discriminate|].
  apply orb_false_iff in G. destruct G as [_ G]. apply negb_false_iff, Z.eqb_eq in G.
  bind_case E as [cp1 nb] Ec.
  destruct (Z.eqb_spec cp1 dict_size) as [->|]; [|discriminate]. cbn [negb] in E.
  bind_case E as offs Eo. inversion E; subst dct e m'; clear E.
  (* the inflated bytes are dict_size long *)
  assert (Lo : len out = dict_size).
  { unfold store, xmallocz in Es. cbn [room] in Es.
    destruct (_ && _) eqn:G'; [|discriminate].
    apply andb_true_iff in G'. destruct G' as [_ G']. apply Z.leb_le in G'.
    rewrite len_app, len_repeat in G'. change (len [Some 0]) with 1 in G'.
    rewrite Z2Nat.id in G' by lia. pose proof (len_nonneg out).
    destruct (Z.eq_dec (len out) (dict_size + 1)) as [X|X].
    - rewrite X in G. unfold wrap64 in G.
      destruct (Z.eq_dec (dict_size + 1) (2 ^ 64)) as [Y|Y].
      + rewrite Y, Z.mod_same in G by lia. lia.
      + pose proof (Z.mod_pos_bound (dict_size + 1) (2 ^ 64) ltac:(lia)).
        destruct (Z.lt_ge_cases (dict_size + 1) (2 ^ 64)).
        * rewrite Z.mod_small in G by lia. lia.
        * lia.
    - pose proof (wrap64_range (len out)).
      destruct (Z.lt_ge_cases (len out) (2 ^ 64)).
      + rewrite wrap64_small in G by lia. lia.
      + lia. }
  assert (End : at_off (out ++ [0]) dict_size = Some [0])
    by (rewrite <- Lo; apply at_off_app).
  assert (A0 : at_off (out ++ [0]) 0 = Some (out ++ [0])) by (apply (at_off_app [])).
  destruct (count_entries_records _ _ _ End _ _ _ _ A0 Ec) as (rs & W & Hs & Hn & Hne & Hlast).
  apply app_inj_tail in Hs. destruct Hs as [Hout _].
  assert (Ne : rs <> []).
  { intros ->. rewrite Hout in Lo. change (len (encode_records [])) with 0 in Lo. lia. }
  destruct (exists_last Ne) as (rs0 & [[a b] s] & ->).
  apply Forall_app in W. destruct W as [W0 Wl].
  apply Forall_cons_iff in Wl. destruct Wl as [Ws _].
  exists rs0, a, b, s. split; [assumption|]. split; [exact Ws|].
  split.
  { intros ->. apply (Hlast a b). apply last_last. }
  assert (W : Forall well_formed_record (rs0 ++ [(a, b, s)])).
  { apply Forall_app. split; [assumption|]. constructor; [exact Ws|constructor]. }
  set (rs := rs0 ++ [(a, b, s)]) in *.
  unfold dict_of. rewrite <- Hout. f_equal; [lia|].
  replace (Z.to_nat nb) with (length rs) in Eo by (unfold len in *; lia).
  rewrite Hout in Eo.
  pose proof (entry_offsets_walk rs [] [0] W) as X. cbn [app] in X.
  change (len (@nil Z)) with 0 in X. rewrite X in Eo. inversion Eo. reflexivity.
Qed.


Lemma record_at (rs : list (byte * byte * list byte)) :
  forall (i : nat) (cp : Z) (a b : byte) (s : list byte),
    nth_error rs i = Some (a, b, s) ->
    exists front back,
      encode_records rs = front ++ dict_record (a, b, s) ++ back
      /\ nth_error (record_offsets cp rs) i = Some (wrap32 (cp + len front)).
Proof.
  induction rs as [|r rs IH]; intros i cp a b s E; [destruct i; discriminate|].
  destruct i as [|i]; cbn [nth_error] in E.
  - inversion E; subst. exists [], (encode_records rs).
    split; [reflexivity|]. cbn [record_offsets nth_error].
    change (len (@nil Z)) with 0. rewrite Z.add_0_r. reflexivity.
  - destruct (IH i (cp + len (dict_record r)) a b s E) as (front & back & H1 & H2).
    exists (dict_record r ++ front), back. split.
    + unfold encode_records in *. cbn [flat_map]. rewrite H1, <- app_assoc. reflexivity.
    + cbn [record_offsets nth_error]. rewrite H2, len_app, Z.add_assoc. reflexivity.
Qed.

(** The record [i] of a dictionary of whole records, read through the
    pointer that [dict_ref] gives for it. *)
Lemma dict_ref_record (mk : Z -> ptr) (rs : list (byte * byte * list byte)) (index : Z) :
  Forall well_formed_record rs -> len (encode_records rs) < 2 ^ 32 -> 0 <= index ->
  match nth_error rs (Z.to_nat index) with
  | Some (a, b, s) =>
      exists o rest,
        dict_ref mk (Some (dict_of rs)) index = Done (mk o)
        /\ at_off (data (dict_of rs)) o = Some (a :: b :: s ++ 0 :: rest)
        /\ at_off (data (dict_of rs)) (o + 1) = Some (b :: s ++ 0 :: rest)
        /\ at_off (data (dict_of rs)) (o + 2) = Some (s ++ 0 :: rest)
  | None => dict_ref mk (Some (dict_of rs)) index = Done Null
  end.
Proof.
  intros W L I. pose proof (len_encode_records rs) as L3. pose proof (len_nonneg rs) as L0.
  unfold dict_ref. cbn [dict_of nb_entries offsets data].
  rewrite (wrap32_small (len rs)) by lia.
  destruct (nth_error rs (Z.to_nat index)) as [[[a b] s]|] eqn:E.
  - assert (Li : index < len rs).
    { assert (X : (Z.to_nat index < length rs)%nat)
        by (apply nth_error_Some; rewrite E; discriminate).
      unfold len. lia. }
    destruct (Z.geb_spec index (len rs)); [lia|].
    destruct (record_at rs _ 0 a b s E) as (front & back & H1 & H2).
    rewrite H2. cbn [obind must]. rewrite Z.add_0_l.
    pose proof (len_nonneg front) as Lf.
    assert (Lfr : len front <= len (encode_records rs)).
    { rewrite H1, len_app. pose proof (len_nonneg (dict_record (a, b, s) ++ back)). lia. }
    rewrite wrap32_small by lia.
    exists (len front), (back ++ [0]). split; [reflexivity|].
    rewrite H1. unfold dict_record. split; [|split].
    + rewrite <- !app_assoc. rewrite at_off_app. cbn [app].
      rewrite <- !app_assoc. reflexivity.
    + replace (len front + 1) with (len (front ++ [a])) by (rewrite len_app; reflexivity).
      replace ((front ++ (a :: b :: s ++ [0]) ++ back) ++ [0])
        with ((front ++ [a]) ++ b :: s ++ 0 :: back ++ [0])
        by (rewrite <- !app_assoc; cbn [app]; rewrite <- !app_assoc; reflexivity).
      apply at_off_app.
    + replace (len front + 2) with (len (front ++ [a; b])) by (rewrite len_app; reflexivity).
      replace ((front ++ (a :: b :: s ++ [0]) ++ back) ++ [0])
        with ((front ++ [a; b]) ++ s ++ 0 :: back ++ [0])
        by (rewrite <- !app_assoc; cbn [app]; rewrite <- !app_assoc; reflexivity).
      apply at_off_app.
  - apply nth_error_None in E.
    destruct (Z.geb_spec index (len rs)); [reflexivity|unfold len in *; lia].
Qed.

(** X12: a lookup gives back the record that was loaded.  With a dictionary
    of whole records (shorter than 4 GiB, so that the [unsigned int] offsets
    hold), an index below the number of records gives a pointer through which
    the two prefix bytes and the string of that record are read; any other
    index gives NULL.  Either way the state is unchanged. *)
Theorem lookup_reads_the_record :
  forall (fuel : nat) (m : machine) (rs : list (byte * byte * list byte)),
    Forall well_formed_record rs -> len (encode_records rs) < 2 ^ 32 ->
    (ident_dict (handle m) = Some (dict_of rs) ->
     forall scp v scp',
       varint_at (handle m) scp = Done (v, scp') ->
       match nth_error rs (Z.to_nat (wrap32 v)) with
       | Some (a, b, s) =>
           exists q, get_identref fuel m scp = Done (q, scp', m)
                     /\ read_tz (handle m) q = Done (to_int16 (Z.lor (Z.shiftl a 8) b))
                     /\ load_cstr (handle m) (ptr_add q 2) = Some s
       | None => get_identref fuel m scp = Done (Null, scp', m)
       end)
    /\ (path_dict (handle m) = Some (dict_of rs) ->
        forall index, 0 <= index ->
          match nth_error rs (Z.to_nat index) with
          | Some (a, b, s) =>
              exists q, get_pathref fuel m index = Done (q, m)
                        /\ load (handle m) q = Some a
                        /\ load (handle m) (ptr_add q 1) = Some b
                        /\ load_cstr (handle m) (ptr_add q 2) = Some s
          | None => get_pathref fuel m index = Done (Null, m)
          end).
Proof.
  intros fuel m rs W L.
  assert (Ns : forall i a b s, nth_error rs i = Some (a, b, s) -> no_nul s).
  { intros i a b s E. apply nth_error_In in E.
    rewrite Forall_forall in W. exact (W _ E). }
  split.
  - intros D scp v scp' V. pose proof (wrap32_range v) as R.
    pose proof (dict_ref_record InIdent rs (wrap32 v) W L (proj1 R)) as X.
    unfold get_identref, ensure_ident_dict. rewrite D. cbn [obind]. rewrite V. cbn [obind].
    rewrite D.
    destruct (nth_error rs (Z.to_nat (wrap32 v))) as [[[a b] s]|] eqn:E.
    + destruct X as (o & rest & X0 & X1 & X2 & X3). exists (InIdent o).
      rewrite X0. cbn [obind]. split; [reflexivity|].
      unfold read_tz, load, load_cstr, mem_from, ptr_add, dict_block. rewrite D, X1, X2, X3.
      cbn [obind must]. split; [reflexivity|]. apply until_nul_string. eapply Ns; eauto.
    + rewrite X. reflexivity.
  - intros D index I.
    pose proof (dict_ref_record InPath rs index W L I) as X.
    unfold get_pathref. rewrite D. cbn [obind]. rewrite D.
    destruct (nth_error rs (Z.to_nat index)) as [[[a b] s]|] eqn:E.
    + destruct X as (o & rest & X0 & X1 & X2 & X3). exists (InPath o).
      rewrite X0. cbn [obind]. split; [reflexivity|].
      unfold load, load_cstr, mem_from, ptr_add, dict_block. rewrite D, X1, X2, X3.
      split; [reflexivity|]. split; [reflexivity|]. apply until_nul_string. eapply Ns; eauto.
    + rewrite X. reflexivity.
Qed.

End Loaded.

(** ** The entries of a tree *)

Section Entries.
Context {host : Host}.

Variable total : Z.
Hypothesis total_range : total < 2 ^ 64.

Lemma entries_prologue_count (p : packed_git) (offset start count : Z) (hdr : bool) (f : frame) :
  entries_prologue p offset start count hdr = Done (Some f) -> f_count f = count.
Proof.
  unfold entries_prologue, use_pack. intros E.
  bind_case E as r Er. destruct r as [k|]; [|discriminate].
  bind_case E as [v scp] Ev. destruct (_ || _); [discriminate|].
  inversion E; reflexivity.
Qed.

(** A loop that runs to its end has emitted one entry for each unit of
    [count], each of the form mode, space, name, NUL, 20 hash bytes. *)
Lemma entries_loop_entries (fuel : nat) :
  forall m f d m' d',
    dest_inv total d -> 0 <= f_count f < 2 ^ 32 ->
    entries_loop fuel m f d = Done (0, m', d') ->
    exists es, len es = f_count f /\ Forall entry_ok es
               /\ emitted d' = emitted d ++ map Some (flat_map entry_bytes es).
Proof.
  induction fuel as [|k IH]; intros m f d m' d' I C E; cbn [entries_loop] in E;
    [discriminate|].
  destruct (Z.eqb_spec (f_count f) 0) as [C0|C0].
  { inversion E; subst. exists []. rewrite C0. cbn. rewrite app_nil_r.
    repeat split. constructor. }
  bind_case E as [[sr m1] d1] Es. destruct sr as [ret|f'].
  { inversion E; subst. apply entries_step_return in Es. contradiction. }
  unfold entries_step in Es.
  destruct (frame_window (handle m) f) as [src avail].
  destruct (_ <? 20); [discriminate|].
  bind_case Es as [v scp] Ev.
  destruct (_ =? _); [discriminate|].
  destruct (_ && _).
  - unfold skip_entry in Es. bind_case Es as b Eb. bind_case Es as scp1 E1.
    inversion Es; subst; clear Es.
    apply IH in E; auto.
  - destruct (negb _).
    + unfold emit_entry in Es.
      bind_case Es as [path m2] Ep. bind_case Es as [sha1 scp1] Esha.
      destruct (_ || _); [discriminate|].
      bind_case Es as p0 E0. bind_case Es as p1 E1. bind_case Es as name En.
      bind_case Es as [da l] Eda.
      destruct (Z.gtb_spec (l + 20) (sizep da)) as [|G]; [discriminate|].
      bind_case Es as h Eh. apply must_done, load_n_length in Eh.
      destruct (emit_entry_fits total d da _ h l total_range I Eh Eda G)
        as (r & d3 & St & Ad & I3 & Em & _).
      rewrite St in Es. cbn [obind] in Es. rewrite Ad in Es. cbn [obind] in Es.
      inversion Es; subst; clear Es.
      apply IH in E; auto.
      2:{ cbn [next_frame f_count]. rewrite wrap32_small by lia. lia. }
      destruct E as (es & Le & Fe & Ee).
      cbn [next_frame f_count] in Le. rewrite wrap32_small in Le by lia.
      exists ((Z.lor (Z.shiftl p0 8) p1, name, h) :: es).
      split; [unfold len in *; cbn [length]; lia|]. split.
      * constructor; [|assumption]. split; [|assumption].
        apply must_done in En. unfold load_cstr in En.
        destruct (mem_from _ _); [|discriminate].
        exact (proj1 (until_nul_split _ _ En)).
      * rewrite Ee, Em. cbn [flat_map entry_bytes].
        rewrite <- app_assoc, <- map_app. reflexivity.
    + unfold copy_range in Es.
      bind_case Es as [v2 scp1] Ev2.
      destruct (_ =? 0); [discriminate|].
      bind_case Es as [off scp2] Ec.
      destruct (_ =? 0); [discriminate|].
      destruct (_ >=? _).
      * inversion Es; subst; clear Es. apply IH in E; auto.
      * set (cc := wrap32 (Z.shiftr (wrap32 v2) 1 - f_start f)) in *.
        pose proof (wrap32_range (Z.shiftr (wrap32 v2) 1 - f_start f)) as Rc.
        fold cc in Rc.
        set (c1 := if cc >? f_count f then f_count f else cc) in *.
        assert (R1 : 0 <= c1 <= f_count f).
        { subst c1. destruct (Z.gtb_spec cc (f_count f)); lia. }
        bind_case Es as [[ret m2] d2] Er.
        destruct (Z.eqb_spec ret 0) as [->|]; cbn [negb] in Es; [|discriminate].
        inversion Es; subst; clear Es.
        unfold decode_entries_with in Er. bind_case Er as pf Epf.
        destruct pf as [f2|]; [|discriminate].
        pose proof (entries_prologue_count _ _ _ _ _ _ Epf) as C2.
        pose proof (entries_loop_inv total total_range _ _ _ _ _ _ _ I Er) as I2.
        apply IH in Er; auto; [|lia].
        destruct Er as (es1 & L1 & F1 & E1).
        apply IH in E; auto.
        2:{ cbn [next_frame f_count]. rewrite wrap32_small by lia. lia. }
        destruct E as (es2 & L2 & F2 & E2).
        cbn [next_frame f_count] in L2. rewrite wrap32_small in L2 by lia.
        exists (es1 ++ es2). split; [rewrite len_app; lia|].
        split; [apply Forall_app; auto|].
        rewrite E2, E1, flat_map_app, map_app, app_assoc. reflexivity.
Qed.

End Entries.

Section Tree.
Context {host : Host}.

Lemma entries_loop_ret (fuel : nat) :
  forall m f d r m' d',
    entries_loop fuel m f d = Done (r, m', d') -> r = 0 \/ r = -1.
Proof.
  induction fuel as [|k IH]; intros m f d r m' d' E; cbn [entries_loop] in E;
    [discriminate|].
  destruct (_ =? 0); [inversion E; auto|].
  bind_case E as [[sr m1] d1] Es. destruct sr as [ret|f']; [|eapply IH; eauto].
  inversion E; subst; clear E. right.
  unfold entries_step in Es.
  destruct (frame_window (handle m) f) as [src avail].
  destruct (_ <? 20); [inversion Es; reflexivity|].
  bind_case Es as [v scp] Ev.
  destruct (_ =? _); [inversion Es; reflexivity|].
  destruct (_ && _).
  - unfold skip_entry in Es. bind_case Es as b Eb. bind_case Es as scp1 E1. discriminate.
  - destruct (negb _).
    + unfold emit_entry in Es.
      bind_case Es as [path m2] Ep. bind_case Es as [sha1 scp1] Esha.
      destruct (_ || _); [inversion Es; reflexivity|].
      bind_case Es as p0 E0. bind_case Es as p1 E1. bind_case Es as name En.
      bind_case Es as [da l] Eda.
      destruct (_ >? _); [inversion Es; reflexivity|].
      bind_case Es as h Eh. bind_case Es as r0 Er. bind_case Es as d2 Ed2. discriminate.
    + unfold copy_range in Es.
      bind_case Es as [v2 scp1] Ev2.
      destruct (_ =? 0); [inversion Es; reflexivity|].
      bind_case Es as [off scp2] Ec.
      destruct (_ =? 0); [inversion Es; reflexivity|].
      destruct (_ >=? _); [discriminate|].
      bind_case Es as [[ret m2] d2] Er.
      destruct (Z.eqb_spec ret 0); cbn [negb] in Es; [discriminate|].
      inversion Es; subst; clear Es.
      unfold decode_entries_with in Er. bind_case Er as pf Epf.
      destruct pf as [f2|]; [|inversion Er; reflexivity].
      apply IH in Er. destruct Er; [contradiction|assumption].
Qed.

(** X13: a tree that is returned has exactly the declared number of
    entries, one after the other, each made of the mode in octal, a space,
    a name without NUL, a NUL and 20 hash bytes; together they are [size]
    bytes and the NUL of [xmallocz] follows the last one. *)
Theorem tree_has_declared_entries :
  forall (fuel : nat) (m : machine) (offset size : Z) (blk : list (option Z))
         (m' : machine),
    0 <= size < 2 ^ 64 ->
    pv4_get_tree fuel m offset size = Done (Some blk, m') ->
    exists v scp es,
      varint_at (handle m) offset = Done (v, scp)
      /\ len es = wrap32 v
      /\ Forall entry_ok es
      /\ blk = map Some (flat_map entry_bytes es) ++ [Some 0]
      /\ len (flat_map entry_bytes es) = size.
Proof.
  intros fuel m offset size blk m' S E. unfold pv4_get_tree, use_pack in E.
  bind_case E as [v scp] Ev. destruct (_ =? _); [discriminate|].
  bind_case E as [[ret m1] d1] Ed.
  destruct (_ || _) eqn:G; [discriminate|].
  apply orb_false_iff in G. destruct G as [G1 G]. apply negb_false_iff, Z.eqb_eq in G.
  apply Z.ltb_ge in G1.
  inversion E; subst; clear E.
  pose proof (xmallocz_inv size (proj1 S)) as I0.
  pose proof (decode_entries_inv size (proj2 S) _ _ _ _ _ _ _ _ _ _ I0 Ed) as I1.
  unfold decode_entries, decode_entries_with in Ed.
  bind_case Ed as pf Epf. destruct pf as [f|]; [|inversion Ed; lia].
  pose proof (entries_prologue_count _ _ _ _ _ _ Epf) as C.
  destruct (entries_loop_ret _ _ _ _ _ _ _ Ed) as [->| ->]; [|lia].
  pose proof (wrap32_range v) as R.
  assert (Cf : 0 <= f_count f < 2 ^ 32) by lia.
  destruct (entries_loop_entries size (proj2 S) _ _ _ _ _ _ I0 Cf Ed)
    as (es & Le & Fe & Ee).
  exists v, scp, es. split; [exact Ev|]. split; [lia|]. split; [assumption|].
  destruct I1 as (bs & junk & He & Hr & Hj & Ht).
  assert (junk = []) by (destruct junk; [reflexivity|unfold len in Hj; simpl in Hj; lia]).
  subst junk. cbn [xmallocz emitted app] in Ee.
  unfold block. rewrite Ee, Hr. split; [reflexivity|].
  rewrite Ee in He.
  assert (Inj : forall l1 l2 : list Z, map Some l1 = map Some l2 -> l1 = l2).
  { induction l1; destruct l2; simpl; intros X; try discriminate; auto.
    inversion X; subst. f_equal; auto. }
  apply Inj in He. rewrite He. lia.
Qed.

End Tree.

Section Returns.
Context {host : Host}.

(** X14: [decode_entries] returns 0 or -1 and never moves the write pointer
    out of the buffer: whatever it returns, stored bytes lie before the
    pointer, [sizep] bytes and the final NUL after it.  When it returns 0 it
    has appended exactly [count] entries and taken their length off
    [sizep]. *)
Theorem decode_entries_returns :
  forall (total : Z) (fuel : nat) (m : machine) (offset start count : Z) (d : dest)
         (parse_hdr : bool) (r : Z) (m' : machine) (d' : dest),
    total < 2 ^ 64 -> dest_inv total d -> 0 <= count < 2 ^ 32 ->
    decode_entries fuel m offset start count d parse_hdr = Done (r, m', d') ->
    dest_inv total d'
    /\ (r = 0 \/ r = -1)
    /\ (r = 0 ->
        exists es, len es = count /\ Forall entry_ok es
                   /\ emitted d' = emitted d ++ map Some (flat_map entry_bytes es)
                   /\ sizep d' = sizep d - len (flat_map entry_bytes es)).
Proof.
  intros total fuel m offset start count d parse_hdr r m' d' T I C E.
  pose proof (decode_entries_inv total T _ _ _ _ _ _ _ _ _ _ I E) as I'.
  split; [exact I'|].
  unfold decode_entries, decode_entries_with in E.
  bind_case E as pf Epf. destruct pf as [f|].
  2:{ inversion E; subst. split; [auto|]. intros X; lia. }
  split; [eapply entries_loop_ret; eauto|].
  intros ->. pose proof (entries_prologue_count _ _ _ _ _ _ Epf) as Cf.
  assert (Cr : 0 <= f_count f < 2 ^ 32) by lia.
  destruct (entries_loop_entries total T _ _ _ _ _ _ I Cr E) as (es & Le & Fe & Ee).
  exists es. split; [lia|]. split; [assumption|]. split; [assumption|].
  destruct I as (bs & junk & He & Hr & Hj & Ht).
  destruct I' as (bs' & junk' & He' & Hr' & Hj' & Ht').
  rewrite He, He', <- map_app in Ee.
  assert (Inj : forall l1 l2 : list Z, map Some l1 = map Some l2 -> l1 = l2).
  { induction l1; destruct l2; simpl; intros X; try discriminate; auto.
    inversion X; subst. f_equal; auto. }
  apply Inj in Ee. rewrite Ee, len_app in Ht'. lia.
Qed.

Lemma varint_more_skip (bs : list byte) :
  forall val n v n', varint_more bs val n = Some (v, n') -> n' <> 0 ->
                     skip_varint bs n = Done n'.
Proof.
  induction bs as [|c rest IH]; intros val n v n' E N; cbn [varint_more] in E.
  - destruct (_ || _); [inversion E; subst; contradiction|discriminate].
  - destruct (_ || _); [inversion E; subst; contradiction|].
    cbn [skip_varint]. destruct (Z.testbit c 7).
    + eapply IH; eauto.
    + inversion E; subst. reflexivity.
Qed.

End Returns.

(** ** Decoding again *)

Lemma pack_le_refl (m : machine) : pack_le m m.
Proof. unfold pack_le. repeat split; auto. Qed.

Lemma pack_le_trans (m1 m2 m3 : machine) :
  pack_le m1 m2 -> pack_le m2 m3 -> pack_le m1 m3.
Proof.
  unfold pack_le. intros (A1 & A2 & A3 & A4 & A5) (B1 & B2 & B3 & B4 & B5).
  repeat split; try congruence; auto.
Qed.

Lemma same_pack_le (m m' : machine) : same_pack m m' -> pack_le m m'.
Proof. unfold same_pack, pack_le. intros (A1 & A2 & A3 & A4 & A5 & _). auto. Qed.

Lemma pack_le_xmalloc (m a : machine) : pack_le m a -> pack_le m (xmalloc a).
Proof. unfold pack_le, xmalloc. cbn [handle]. auto. Qed.

Lemma xmalloc_pack_le (m a : machine) : pack_le m a -> pack_le (xmalloc m) a.
Proof. unfold pack_le, xmalloc. cbn [handle]. auto. Qed.

Lemma varint_at_le (m a : machine) (scp : Z) :
  pack_le m a -> varint_at (handle a) scp = varint_at (handle m) scp.
Proof. intros (A & _). unfold varint_at. rewrite A. reflexivity. Qed.

Lemma get_sha1ref_le (m a : machine) (buf : Z) :
  pack_le m a -> get_sha1ref (handle a) buf = get_sha1ref (handle m) buf.
Proof.
  intros L. unfold get_sha1ref. rewrite (varint_at_le _ _ _ L).
  destruct L as (A & B & _). unfold load, mem_from. rewrite A, B. reflexivity.
Qed.

Lemma mem_from_le (m a : machine) (q : ptr) (bs : list byte) :
  pack_le m a -> mem_from (handle m) q = Some bs -> bs <> [] ->
  mem_from (handle a) q = Some bs.
Proof.
  intros (A & B & C & D & E) M N. destruct q; cbn [mem_from] in *.
  - discriminate.
  - rewrite A. assumption.
  - rewrite C. assumption.
  - destruct (ident_dict (handle m)) as [dct|] eqn:I.
    + rewrite (D _ eq_refl). assumption.
    + exfalso. cbn [dict_block] in M. unfold at_off in M.
      destruct (_ && _); [|discriminate]. inversion M as [X].
      rewrite skipn_nil in X. congruence.
  - destruct (path_dict (handle m)) as [dct|] eqn:I.
    + rewrite (E _ eq_refl). assumption.
    + exfalso. cbn [dict_block] in M. unfold at_off in M.
      destruct (_ && _); [|discriminate]. inversion M as [X].
      rewrite skipn_nil in X. congruence.
Qed.

Lemma load_le (m a : machine) (q : ptr) (b : byte) :
  pack_le m a -> load (handle m) q = Some b -> load (handle a) q = Some b.
Proof.
  intros L E. unfold load in *. destruct (mem_from (handle m) q) as [bs|] eqn:M; [|discriminate].
  destruct bs as [|c bs]; [discriminate|].
  rewrite (mem_from_le _ _ _ _ L M); [assumption|discriminate].
Qed.

Lemma load_n_le (m a : machine) (q : ptr) (h : list byte) :
  pack_le m a -> load_n (handle m) q 20 = Some h -> load_n (handle a) q 20 = Some h.
Proof.
  intros L E. unfold load_n in *. destruct (mem_from (handle m) q) as [bs|] eqn:M; [|discriminate].
  destruct bs as [|c bs]; [discriminate|].
  rewrite (mem_from_le _ _ _ _ L M); [assumption|discriminate].
Qed.

Lemma load_cstr_le (m a : machine) (q : ptr) (s : list byte) :
  pack_le m a -> load_cstr (handle m) q = Some s -> load_cstr (handle a) q = Some s.
Proof.
  intros L E. unfold load_cstr in *. destruct (mem_from (handle m) q) as [bs|] eqn:M; [|discriminate].
  destruct bs as [|c bs]; [discriminate|].
  rewrite (mem_from_le _ _ _ _ L M); [assumption|discriminate].
Qed.

Lemma read_tz_le (m a : machine) (q : ptr) (tz : Z) :
  pack_le m a -> read_tz (handle m) q = Done tz -> read_tz (handle a) q = Done tz.
Proof.
  intros L E. unfold read_tz in *. bind_case E as i0 E0. bind_case E as i1 E1.
  must_inv E0. must_inv E1.
  rewrite (load_le _ _ _ _ L E0), (load_le _ _ _ _ L E1). exact E.
Qed.

Section Again.
Context {host : Host}.
Hypothesis index_pack : index_only host.

Lemma inflate_loop_le (m a : machine) (fuel : nat) :
  pack_le m a ->
  forall z curpos avail out,
    inflate_loop fuel (handle a) z curpos avail out
    = inflate_loop fuel (handle m) z curpos avail out.
Proof.
  intros (A & _). induction fuel as [|k IH]; intros z curpos avail out;
    cbn [inflate_loop]; [reflexivity|].
  rewrite A. destruct (at_off (pack_data (handle m)) curpos) as [input|]; [|reflexivity].
  cbn [obind must]. destruct (git_inflate z input avail) as [[[z' st] used] produced].
  destruct (_ && _); [apply IH|reflexivity].
Qed.

Lemma copy_source_le (m a : machine) (scp cc old : Z) :
  pack_le m a ->
  copy_source (handle a) scp cc old = copy_source (handle m) scp cc old.
Proof.
  intros L. unfold copy_source. rewrite (varint_at_le _ _ _ L).
  destruct L as (A & B & C & _).
  destruct (Z.testbit cc 0); [|reflexivity].
  destruct (varint_at (handle m) scp) as [[v scp1]| | |]; try reflexivity.
  cbn [obind]. unfold load_n, mem_from. rewrite A.
  destruct (index_pack [] (wrap32 (wrap32 v - 1)) (handle a) (handle m) A B C) as [_ N].
  rewrite N. destruct (_ =? 0); [|reflexivity].
  destruct (at_off (pack_data (handle m)) scp1) as [bs|]; [|reflexivity].
  destruct (20 <=? length bs)%nat; [|reflexivity]. cbn [obind must].
  destruct (index_pack (firstn 20 bs) 0 (handle a) (handle m) A B C) as [F _].
  rewrite F. reflexivity.
Qed.

Lemma entries_prologue_le (m a : machine) (offset start count : Z) (hdr : bool) :
  pack_le m a ->
  entries_prologue (handle a) offset start count hdr
  = entries_prologue (handle m) offset start count hdr.
Proof.
  intros L. unfold entries_prologue, use_pack.
  destruct L as (A & _). unfold varint_at. rewrite A. reflexivity.
Qed.

Lemma frame_window_le (m a : machine) (f : frame) :
  pack_le m a -> frame_window (handle a) f = frame_window (handle m) f.
Proof. intros (A & _). unfold frame_window, use_pack. rewrite A. reflexivity. Qed.

Lemma get_identref_sim fuel m scp q scp' m1 :
  get_identref fuel m scp = Done (q, scp', m1) ->
  forall a fuel', pack_le m1 a -> get_identref fuel' a scp = Done (q, scp', a).
Proof.
  intros E a fuel' L. unfold get_identref in E.
  bind_case E as m2 E1. bind_case E as [v s] Ev. bind_case E as q0 Eq.
  inversion E; subst; clear E.
  destruct (dict_ref_loaded _ _ _ _ Eq) as [dct D].
  pose proof (proj1 (proj2 (proj2 (proj2 L))) _ D) as Da.
  unfold get_identref, ensure_ident_dict. rewrite Da. cbn [obind].
  rewrite (varint_at_le _ _ _ L), Ev. cbn [obind]. rewrite Da, <- D, Eq. reflexivity.
Qed.

Lemma get_pathref_sim fuel m index q m1 :
  get_pathref fuel m index = Done (q, m1) ->
  forall a fuel', pack_le m1 a -> get_pathref fuel' a index = Done (q, a).
Proof.
  intros E a fuel' L. unfold get_pathref in E.
  bind_case E as m2 E1. bind_case E as q0 Eq. inversion E; subst; clear E.
  destruct (dict_ref_loaded _ _ _ _ Eq) as [dct D].
  pose proof (proj2 (proj2 (proj2 (proj2 L))) _ D) as Da.
  unfold get_pathref. rewrite Da. cbn [obind]. rewrite Da, <- D, Eq. reflexivity.
Qed.

Lemma emit_entry_sim fuel m f d src avail scp what r m1 d1 :
  emit_entry fuel m f d src avail scp what = Done (r, m1, d1) ->
  forall a fuel', pack_le m1 a ->
    emit_entry fuel' a f d src avail scp what = Done (r, a, d1).
Proof.
  intros E a fuel' L. unfold emit_entry in E.
  bind_case E as [path m2] Ep. bind_case E as [sha1 scp1] Es.
  assert (m2 = m1).
  { destruct (_ || _); [inversion E; reflexivity|].
    bind_case E as p0 E0. bind_case E as p1 E1. bind_case E as name En.
    bind_case E as [da l] Eda. destruct (_ >? _); [inversion E; reflexivity|].
    bind_case E as h Eh. bind_case E as r0 Er. bind_case E as d2 Ed2.
    inversion E; reflexivity. }
  subst m2. unfold emit_entry.
  rewrite (get_pathref_sim _ _ _ _ _ Ep a fuel' L). cbn [obind].
  rewrite (get_sha1ref_le _ _ _ L), Es. cbn [obind].
  destruct (_ || _); [inversion E; reflexivity|].
  bind_case E as p0 E0. must_inv E0. rewrite (load_le _ _ _ _ L E0). cbn [obind must].
  bind_case E as p1 E1. must_inv E1. rewrite (load_le _ _ _ _ L E1). cbn [obind must].
  bind_case E as name En. must_inv En. rewrite (load_cstr_le _ _ _ _ L En). cbn [obind must].
  bind_case E as [da l] Eda. rewrite Eda. cbn [obind].
  destruct (_ >? _); [inversion E; reflexivity|].
  bind_case E as h Eh. must_inv Eh. rewrite (load_n_le _ _ _ _ L Eh). cbn [obind must].
  bind_case E as r0 Er. rewrite Er. cbn [obind].
  bind_case E as d2 Ed2. rewrite Ed2. cbn [obind].
  inversion E; reflexivity.
Qed.

Lemma copy_range_sim rec m f d src avail scp what r m1 d1 :
  replays rec ->
  copy_range rec m f d src avail scp what = Done (r, m1, d1) ->
  forall a, pack_le m a -> pack_le m1 a ->
    copy_range rec a f d src avail scp what = Done (r, a, d1).
Proof.
  intros K E a L L1. unfold copy_range in *.
  rewrite (varint_at_le _ _ _ L).
  bind_case E as [v2 scp1] Ev2. rewrite Ev2. cbn [obind].
  destruct (_ =? 0); [inversion E; reflexivity|].
  rewrite (copy_source_le _ _ _ _ _ L).
  bind_case E as [off scp2] Ec. rewrite Ec. cbn [obind].
  destruct (_ =? 0); [inversion E; reflexivity|].
  destruct (_ >=? _); [inversion E; reflexivity|].
  bind_case E as [[ret m2] d2] Er.
  assert (m2 = m1) by (destruct (negb _); inversion E; reflexivity). subst m2.
  rewrite (K _ _ _ _ _ _ _ _ Er a L L1). cbn [obind].
  destruct (negb _); inversion E; reflexivity.
Qed.

Lemma entries_step_sim rec fuel m f d r m1 d1 :
  replays rec ->
  entries_step rec fuel m f d = Done (r, m1, d1) ->
  forall a fuel', pack_le m a -> pack_le m1 a ->
    entries_step rec fuel' a f d = Done (r, a, d1).
Proof.
  intros K E a fuel' L L1. unfold entries_step in *.
  rewrite (frame_window_le _ _ _ L).
  destruct (frame_window (handle m) f) as [src avail].
  destruct (_ <? 20); [inversion E; reflexivity|].
  rewrite (varint_at_le _ _ _ L).
  bind_case E as [v scp] Ev. rewrite Ev. cbn [obind].
  destruct (_ =? _); [inversion E; reflexivity|].
  destruct (_ && _).
  - unfold skip_entry in *. destruct L as (A & _).
    unfold load, mem_from. rewrite A.
    unfold load, mem_from in E.
    bind_case E as b Eb. rewrite Eb. cbn [obind].
    bind_case E as scp1 E1. rewrite E1. cbn [obind]. inversion E; reflexivity.
  - destruct (negb _).
    + eapply emit_entry_sim; eauto.
    + eapply copy_range_sim; eauto.
Qed.

Lemma entries_loop_sim (fuel : nat) :
  forall m f d r m' d',
    entries_loop fuel m f d = Done (r, m', d') ->
    forall a, pack_le m a -> pack_le m' a -> entries_loop fuel a f d = Done (r, a, d').
Proof.
  induction fuel as [|k IH]; intros m f d r m' d' E a L L'; cbn [entries_loop] in *;
    [discriminate|].
  destruct (_ =? 0); [inversion E; reflexivity|].
  bind_case E as [[sr m1] d1] Es.
  assert (K : replays (fun m' o s c d' => decode_entries_with (entries_loop k) m' o s c d' true)).
  { intros m0 o s c d0 r0 m2 d2 E0 a0 L0 L2. unfold decode_entries_with in *.
    rewrite (entries_prologue_le _ _ _ _ _ _ L0).
    bind_case E0 as pf Epf. rewrite Epf. cbn [obind].
    destruct pf as [f0|]; [eapply IH; eauto|inversion E0; reflexivity]. }
  assert (L1 : pack_le m1 a).
  { destruct sr as [ret|f']; [inversion E; subst; assumption|].
    apply entries_loop_same in E. eapply pack_le_trans; [apply same_pack_le; exact E|exact L']. }
  rewrite (entries_step_sim _ _ _ _ _ _ _ _ K Es a k L L1). cbn [obind].
  destruct sr as [ret|f']; [inversion E; reflexivity|].
  eapply IH; eauto.
Qed.

Lemma emit_parents_le (m a : machine) (n : nat) :
  pack_le m a ->
  forall scp d x, emit_parents n (handle m) scp d = Done x ->
                  emit_parents n (handle a) scp d = Done x.
Proof.
  intros L. induction n as [|n IH]; intros scp d x E; cbn [emit_parents] in *; [assumption|].
  rewrite (get_sha1ref_le _ _ _ L).
  bind_case E as [sha1 scp1] Es. rewrite Es. cbn [obind].
  bind_case E as h Eh. must_inv Eh. rewrite (load_n_le _ _ _ _ L Eh). cbn [obind must].
  bind_case E as d1 Ed. rewrite Ed. cbn [obind]. apply IH. assumption.
Qed.

(** X16: decoding again gives the same object.  Dictionaries are loaded
    while the first object is decoded; another call for the same object, from
    the resulting handle or from any handle of the same pack that has at
    least those dictionaries loaded, returns the same bytes and loads
    nothing.  (The pack index is to depend on the pack and its hash table
    only.) *)
Theorem decoding_again_gives_the_same :
  forall (fuel : nat) (m : machine) (offset size : Z) (blk : list (option Z))
         (m' a : machine),
    pack_le m' a ->
    (pv4_get_commit fuel m offset size = Done (Some blk, m') ->
     pv4_get_commit fuel a offset size = Done (Some blk, xmalloc a))
    /\ (pv4_get_tree fuel m offset size = Done (Some blk, m') ->
        pv4_get_tree fuel a offset size = Done (Some blk, xmalloc a)).
Proof.
  intros fuel m offset size blk m' a L'. split.
  - intros E. unfold pv4_get_commit, use_pack in *.
    bind_case E as [sha1 scp1] Etree.
    bind_case E as h Eh.
    bind_case E as d1 Ed1.
    bind_case E as [v scp2] Ev.
    bind_case E as [scp3 d2] Ed2.
    bind_case E as [ct scp4] Ect.
    bind_case E as [[ident scp5] m1] Eci.
    bind_case E as ctz Ectz.
    bind_case E as [delta scp6] Edelta.
    bind_case E as [[ident' scp7] m2] Eai.
    bind_case E as atz Eatz.
    bind_case E as aname Eaname.
    bind_case E as d3 Ed3.
    bind_case E as cname Ecname.
    bind_case E as d4 Ed4.
    destruct (_ >? _) eqn:G; [discriminate|].
    bind_case E as [[st out] curpos] Einf.
    bind_case E as r Er.
    destruct (_ || _) eqn:G2; [discriminate|]. inversion E; subst blk m'; clear E.
    pose proof (same_pack_le _ _ (get_identref_same _ _ _ _ _ _ Eci)) as S1.
    pose proof (same_pack_le _ _ (get_identref_same _ _ _ _ _ _ Eai)) as S2.
    assert (L2 : pack_le m2 (xmalloc a)) by (apply pack_le_xmalloc; assumption).
    assert (L1 : pack_le m1 (xmalloc a)) by (eapply pack_le_trans; eauto).
    assert (L0 : pack_le (xmalloc m) (xmalloc a)) by (eapply pack_le_trans; eauto).
    must_inv Eh. must_inv Eaname. must_inv Ecname.
    rewrite (get_sha1ref_le _ _ _ L0), Etree. cbn [obind].
    rewrite (load_n_le _ _ _ _ L0 Eh). cbn [obind must].
    rewrite Ed1. cbn [obind].
    rewrite (varint_at_le _ _ _ L0), Ev. cbn [obind].
    rewrite (emit_parents_le _ _ _ L0 _ _ _ Ed2). cbn [obind].
    rewrite (varint_at_le _ _ _ L0), Ect. cbn [obind].
    rewrite (get_identref_sim _ _ _ _ _ _ Eci (xmalloc a) fuel L1). cbn [obind].
    rewrite (read_tz_le _ _ _ _ L1 Ectz). cbn [obind].
    rewrite (varint_at_le _ _ _ L1), Edelta. cbn [obind].
    rewrite (get_identref_sim _ _ _ _ _ _ Eai (xmalloc a) fuel L2). cbn [obind].
    rewrite (read_tz_le _ _ _ _ L2 Eatz). cbn [obind].
    rewrite (load_cstr_le _ _ _ _ L2 Eaname). cbn [obind must].
    rewrite Ed3. cbn [obind].
    rewrite (load_cstr_le _ _ _ _ L2 Ecname). cbn [obind must].
    rewrite Ed4. cbn [obind].
    rewrite (proj1 L0). cbn [handle xmalloc] in *. rewrite G.
    rewrite (inflate_loop_le _ _ _ L2), Einf. cbn [obind].
    rewrite Er. cbn [obind]. rewrite G2. reflexivity.
  - intros E. unfold pv4_get_tree, use_pack in *.
    bind_case E as [v scp] Ev.
    destruct (_ =? _) eqn:G; [discriminate|].
    bind_case E as [[ret m1] d1] Ed.
    destruct (_ || _) eqn:G2; [discriminate|]. inversion E; subst blk m'; clear E.
    pose proof (same_pack_le _ _ (decode_entries_same _ _ _ _ _ _ _ _ _ _ Ed)) as S0.
    assert (L1 : pack_le m1 (xmalloc a)) by (apply pack_le_xmalloc; assumption).
    assert (L0 : pack_le (xmalloc m) (xmalloc a)) by (eapply pack_le_trans; eauto).
    assert (Lm : pack_le m a) by (destruct L0 as (A & B & C & D & F); repeat split; auto).
    rewrite (varint_at_le _ _ _ Lm), Ev. cbn [obind]. rewrite G.
    unfold decode_entries, decode_entries_with in *.
    rewrite (entries_prologue_le _ _ _ _ _ _ L0).
    bind_case Ed as pf Epf. rewrite Epf. cbn [obind].
    destruct pf as [f|].
    + rewrite (entries_loop_sim _ _ _ _ _ _ _ Ed (xmalloc a) L0 L1). cbn [obind].
      rewrite G2. reflexivity.
    + inversion Ed; subst. cbn [obind]. rewrite G2. reflexivity.
Qed.

End Again.

(** ** A range of a tree is a slice of the tree *)

Lemma wrap64_sub_l (x y : Z) : wrap64 (wrap64 x - y) = wrap64 (x - y).
Proof. unfold wrap64. apply Zminus_mod_idemp_l. Qed.

Lemma wrap32_add_l (x y : Z) : wrap32 (wrap32 x + y) = wrap32 (x + y).
Proof. unfold wrap32. apply Zplus_mod_idemp_l. Qed.

Lemma windowed_fresh (p : packed_git) (f : frame) :
  f_avail f = wrap64 (len (pack_data p) - f_offset f) \/ f_avail f < 20 ->
  windowed p f.
Proof.
  unfold windowed, frame_window, use_pack. intros [E|E].
  - destruct (_ <? 20); [reflexivity|]. rewrite E. reflexivity.
  - destruct (Z.ltb_spec (f_avail f) 20); [reflexivity|lia].
Qed.

Lemma next_frame_windowed (p : packed_git) (f : frame) (scp start count co : Z) :
  windowed p f ->
  windowed p (next_frame f (f_offset f) scp (snd (frame_window p f)) start count co).
Proof.
  intros W. apply windowed_fresh. left. rewrite W. cbn [snd next_frame f_avail f_offset].
  rewrite wrap64_sub_l. f_equal. lia.
Qed.

Lemma next_frame_windowed_rec (p : packed_git) (f : frame) (scp start count co : Z) :
  windowed p (next_frame f (f_offset f) scp (wrap64 (scp - f_offset f)) start count co).
Proof.
  apply windowed_fresh. right. cbn [next_frame f_avail].
  rewrite wrap64_sub_l, Z.sub_diag. change (wrap64 0) with 0. lia.
Qed.

Section Windows.
Context {host : Host}.

Lemma entries_prologue_frame (p : packed_git) (offset start count : Z) (hdr : bool) (f : frame) :
  entries_prologue p offset start count hdr = Done (Some f) ->
  windowed p f /\ f_start f = start /\ f_count f = count /\ f_copy_objoffset f = 0
  /\ forall start' count' f',
       entries_prologue p offset start' count' hdr = Done (Some f') ->
       f_offset f' = f_offset f.
Proof.
  unfold entries_prologue, use_pack. intros E.
  bind_case E as r Er. destruct r as [k|]; [|discriminate].
  bind_case E as [v scp] Ev. destruct (_ || _); [discriminate|].
  inversion E; subst; clear E. cbn [f_start f_count f_copy_objoffset f_offset].
  split.
  { apply windowed_fresh. left. cbn [f_avail f_offset]. rewrite wrap64_sub_l. f_equal. lia. }
  repeat split. intros start' count' f' E'. rewrite Er in E'. cbn [obind] in E'.
  rewrite Ev in E'. cbn [obind] in E'. destruct (_ || _); [discriminate|].
  inversion E'; reflexivity.
Qed.

Lemma get_pathref_fixed fuel m index q m1 :
  path_dict (handle m) <> None -> get_pathref fuel m index = Done (q, m1) -> m1 = m.
Proof.
  intros P E. unfold get_pathref in E.
  destruct (path_dict (handle m)); [|contradiction]. cbn [obind] in E.
  bind_case E as q0 Eq. inversion E; reflexivity.
Qed.

Lemma entries_loop_fixed (fuel : nat) :
  forall m f d r m' d',
    path_dict (handle m) <> None ->
    entries_loop fuel m f d = Done (r, m', d') -> m' = m.
Proof.
  induction fuel as [|k IH]; intros m f d r m' d' P E; cbn [entries_loop] in E;
    [discriminate|].
  destruct (_ =? 0); [inversion E; reflexivity|].
  bind_case E as [[sr m1] d1] Es.
  assert (m1 = m).
  { unfold entries_step in Es.
    destruct (frame_window (handle m) f) as [src avail].
    destruct (_ <? 20); [inversion Es; reflexivity|].
    bind_case Es as [v scp] Ev.
    destruct (_ =? _); [inversion Es; reflexivity|].
    destruct (_ && _).
    - unfold skip_entry in Es. bind_case Es as b Eb. bind_case Es as scp1 E1.
      inversion Es; reflexivity.
    - destruct (negb _).
      + unfold emit_entry in Es.
        bind_case Es as [path m2] Ep. apply get_pathref_fixed in Ep; auto. subst m2.
        bind_case Es as [sha1 scp1] Esha.
        destruct (_ || _); [inversion Es; reflexivity|].
        bind_case Es as p0 E0. bind_case Es as p1 E1. bind_case Es as name En.
        bind_case Es as [da l] Eda.
        destruct (_ >? _); [inversion Es; reflexivity|].
        bind_case Es as h Eh. bind_case Es as r0 Er. bind_case Es as d2 Ed2.
        inversion Es; reflexivity.
      + unfold copy_range in Es.
        bind_case Es as [v2 scp1] Ev2.
        destruct (_ =? 0); [inversion Es; reflexivity|].
        bind_case Es as [off scp2] Ec.
        destruct (_ =? 0); [inversion Es; reflexivity|].
        destruct (_ >=? _); [inversion Es; reflexivity|].
        bind_case Es as [[ret m2] d2] Er.
        assert (m2 = m).
        { unfold decode_entries_with in Er. bind_case Er as pf Epf.
          destruct pf as [f2|]; [eapply IH; eauto|inversion Er; reflexivity]. }
        destruct (negb _); inversion Es; subst; reflexivity. }
  subst m1. destruct sr as [ret|f']; [inversion E; reflexivity|]. eapply IH; eauto.
Qed.

(** The cursor after a skipped hash reference is where [get_sha1ref] puts
    it. *)
Lemma skip_entry_cursor (m : machine) (f : frame) (d : dest) (src avail scp : Z)
    (q : ptr) (scp' : Z) :
  get_sha1ref (handle m) scp = Done (q, scp') ->
  skip_entry m f d src avail scp
  = Done (Continue (next_frame f src scp' avail (wrap32 (f_start f - 1)) (f_count f)
                      (f_copy_objoffset f)), m, d).
Proof.
  intros E. unfold get_sha1ref in E. unfold skip_entry.
  bind_case E as b Eb. rewrite Eb. cbn [obind].
  destruct (Z.eqb_spec b 0) as [->|Nb].
  - inversion E; subst. cbn [obind]. replace (scp + 1 + 20) with (scp + 21) by lia.
    reflexivity.
  - bind_case E as [v s] Ev. destruct (_ || _) eqn:G; [discriminate|].
    inversion E; subst; clear E.
    apply orb_false_iff in G. destruct G as [G _]. apply Z.ltb_ge in G.
    unfold varint_at in Ev. bind_case Ev as bs Ebs. rewrite Ebs. cbn [obind].
    bind_case Ev as [v' n] Ed. inversion Ev; subst; clear Ev.
    must_inv Ed.
    assert (Nn : n <> 0).
    { intros ->. destruct (decode_varint_consumed _ _ _ Ed) as [[-> _]|]; [|lia].
      change (wrap32 0) with 0 in G. lia. }
    assert (K : skip_varint bs 0 = Done n).
    { unfold decode_varint in Ed. destruct bs as [|c rest]; [discriminate|].
      cbn [skip_varint]. destruct (Z.testbit c 7).
      - eapply varint_more_skip; eauto.
      - inversion Ed; subst. reflexivity. }
    rewrite K. reflexivity.
Qed.

End Windows.

Lemma next_frame_windowed_at (p : packed_git) (f : frame) (src scp start count co : Z) :
  f_offset f = src ->
  windowed p (next_frame f src scp (wrap64 (len (pack_data p) - src)) start count co).
Proof.
  intros <-. apply windowed_fresh. left. cbn [next_frame f_avail f_offset].
  rewrite wrap64_sub_l. f_equal. lia.
Qed.

Lemma next_frame_windowed_forced (p : packed_git) (f : frame) (src scp start count co : Z) :
  windowed p (next_frame f src scp (wrap64 (scp - src)) start count co).
Proof.
  apply windowed_fresh. right. cbn [next_frame f_avail].
  rewrite wrap64_sub_l, Z.sub_diag. change (wrap64 0) with 0. lia.
Qed.

Lemma skipn_all_len {A} (n : nat) (l : list A) : length l = n -> skipn n l = [].
Proof. intros <-. apply skipn_all. Qed.

Lemma shiftr1_range (x : Z) : 0 <= x < 2 ^ 32 -> 0 <= Z.shiftr x 1 < 2 ^ 31.
Proof.
  intros R. rewrite Z.shiftr_div_pow2 by lia. change (2 ^ 1) with 2. split.
  - apply Z.div_pos; lia.
  - apply Z.div_lt_upper_bound; lia.
Qed.

Lemma ahead_next (p : packed_git) (s : Z) (fa fb : frame)
    (src scp ava avb sa ca sb cb co : Z) :
  f_offset fa = src -> f_offset fb = src ->
  windowed p (next_frame fa src scp ava sa ca co) ->
  windowed p (next_frame fb src scp avb sb cb co) ->
  0 <= s -> 0 <= sb -> sa = sb + s -> sa < 2 ^ 32 ->
  0 <= ca -> cb = s + ca -> cb < 2 ^ 32 ->
  ahead p s (next_frame fa src scp ava sa ca co) (next_frame fb src scp avb sb cb co).
Proof.
  intros Oa Ob Wa Wb H1 H2 H3 H4 H5 H6 H7. unfold ahead.
  split; [exact Wa|]. split; [exact Wb|].
  cbn [next_frame f_offset f_copy_objoffset f_start f_count].
  repeat split; try assumption; lia.
Qed.

Lemma skipn_cons_Z {A} (s : Z) (x : A) (l : list A) :
  0 < s -> skipn (Z.to_nat s) (x :: l) = skipn (Z.to_nat (s - 1)) l.
Proof.
  intros Hs. replace (Z.to_nat s) with (S (Z.to_nat (s - 1))) by lia. reflexivity.
Qed.

Lemma skipn_app_Z {A} (s : Z) (l1 l2 : list A) :
  len l1 <= s -> skipn (Z.to_nat s) (l1 ++ l2) = skipn (Z.to_nat (s - len l1)) l2.
Proof.
  intros L. rewrite skipn_app.
  rewrite skipn_all2 by (unfold len in L; lia). cbn [app].
  f_equal. unfold len in *. lia.
Qed.

Lemma skipn_app_keep {A} (s : Z) (l1 l2 : list A) :
  0 <= s <= len l1 -> skipn (Z.to_nat s) (l1 ++ l2) = skipn (Z.to_nat s) l1 ++ l2.
Proof.
  intros L. rewrite skipn_app.
  replace (Z.to_nat s - length l1)%nat with O by (unfold len in L; lia). reflexivity.
Qed.

Section Slice.
Context {host : Host}.
Variables TA TB : Z.
Hypothesis TA_range : TA < 2 ^ 64.
Hypothesis TB_range : TB < 2 ^ 64.

Lemma entries_loop_slice (fuel : nat) :
  forall m s fa fb da db ma mb da' db',
    path_dict (handle m) <> None ->
    ahead (handle m) s fa fb ->
    dest_inv TA da -> dest_inv TB db ->
    entries_loop fuel m fa da = Done (0, ma, da') ->
    entries_loop fuel m fb db = Done (0, mb, db') ->
    exists es,
      len es = f_count fb /\ Forall entry_ok es
      /\ emitted db' = emitted db ++ map Some (flat_map entry_bytes es)
      /\ emitted da' = emitted da ++ map Some (flat_map entry_bytes (skipn (Z.to_nat s) es)).
Proof.
  induction fuel as [|k IH]; intros m s fa fb da db ma mb da' db' P H Ia Ib EA EB;
    [discriminate|].
  pose proof H as (Wa & Wb & Ho & Hc & Hs & Hsb & Hst & Hsa & Hca & Hcb & Hcr).
  destruct (Z.eq_dec (f_count fa) 0) as [Ca0|Ca0].
  { cbn [entries_loop] in EA. rewrite Ca0 in EA. change (0 =? 0) with true in EA.
    inversion EA; subst ma da'; clear EA.
    assert (Cr : 0 <= f_count fb < 2 ^ 32) by lia.
    destruct (entries_loop_entries TB TB_range _ _ _ _ _ _ Ib Cr EB) as (es & Le & Fe & Ee).
    exists es. split; [assumption|]. split; [assumption|]. split; [assumption|].
    rewrite skipn_all_len by (unfold len in Le; lia). cbn. rewrite app_nil_r. reflexivity. }
  cbn [entries_loop] in EA, EB.
  destruct (Z.eqb_spec (f_count fa) 0); [contradiction|].
  destruct (Z.eqb_spec (f_count fb) 0); [lia|].
  bind_case EA as [[sra m1a] d1a] EsA. bind_case EB as [[srb m1b] d1b] EsB.
  destruct sra as [ret|fa'].
  { inversion EA; subst. apply entries_step_return in EsA. contradiction. }
  destruct srb as [ret|fb'].
  { inversion EB; subst. apply entries_step_return in EsB. contradiction. }
  destruct (entries_step_continue _ _ _ _ _ _ _ _ EsA) as (what & scp & RA).
  assert (RB : reads_record (handle m) fb what scp).
  { destruct RA as (A1 & v & A2 & A3 & A4). unfold reads_record.
    rewrite Wb. rewrite Wa in A1. cbn [snd] in *. rewrite <- Ho.
    split; [assumption|]. exists v. auto. }
  rewrite (entries_step_dispatch _ _ _ _ _ _ _ RA) in EsA.
  rewrite (entries_step_dispatch _ _ _ _ _ _ _ RB) in EsB.
  assert (Wa' := Wa). assert (Wb' := Wb). unfold windowed in Wa', Wb'.
  rewrite Wa' in EsA. rewrite Wb' in EsB. cbn [snd] in EsA, EsB. rewrite Ho in EsA.
  clear Wa' Wb'.
  set (src := f_offset fb) in *.
  set (avail := wrap64 (len (pack_data (handle m)) - src)) in *.
  pose proof (entries_loop_inv TA TA_range k) as InvA.
  pose proof (entries_loop_inv TB TB_range k) as InvB.
  assert (What : 0 <= what < 2 ^ 32).
  { destruct RA as (_ & v & _ & -> & _). apply wrap32_range. }
  destruct (Z.testbit what 0) eqn:TW; cbn [negb andb] in EsA, EsB.
  - (* a copy record *)
    unfold copy_range in EsA, EsB.
    bind_case EsB as [v2 scp1] Ev2. rewrite Ev2 in EsA. cbn [obind] in EsA.
    destruct (Z.eqb_spec (wrap32 v2) 0); [discriminate|].
    rewrite Hc in EsA.
    bind_case EsB as [off scp2] Ec. rewrite Ec in EsA. cbn [obind] in EsA.
    destruct (Z.eqb_spec off 0); [discriminate|].
    pose proof (shiftr1_range _ (wrap32_range v2)) as Rn.
    pose proof (shiftr1_range _ What) as Rc0.
    set (cn := Z.shiftr (wrap32 v2) 1) in *.
    set (c0 := Z.shiftr what 1) in *.
    destruct (Z.geb_spec (f_start fb) cn) as [Gb|Gb];
      destruct (Z.geb_spec (f_start fa) cn) as [Ga|Ga].
    + (* the whole range lies before both starts *)
      inversion EsA; subst fa' m1a d1a; clear EsA.
      inversion EsB; subst fb' m1b d1b; clear EsB.
      refine (IH m s _ _ _ _ _ _ _ _ P _ Ia Ib EA EB).
      apply ahead_next; auto; try apply next_frame_windowed_at; auto;
        rewrite ?wrap32_small by lia; lia.
    + lia.
    + (* skipped as a whole on one side, decoded from [f_start fb] on the other *)
      inversion EsA; subst fa' m1a d1a; clear EsA.
      rewrite (wrap32_small (cn - f_start fb)) in EsB by lia.
      destruct (Z.gtb_spec (cn - f_start fb) (f_count fb)) as [|_]; [lia|].
      bind_case EsB as [[ret m2] d2] Er.
      destruct (Z.eqb_spec ret 0) as [->|]; cbn [negb] in EsB; [|discriminate].
      inversion EsB; subst fb' m1b d1b; clear EsB.
      unfold decode_entries_with in Er. bind_case Er as pf Epf.
      destruct pf as [g|]; [|discriminate].
      destruct (entries_prologue_frame _ _ _ _ _ _ Epf) as (_ & _ & Cg & _).
      pose proof (entries_loop_fixed _ _ _ _ _ _ _ P Er). subst m2.
      pose proof (InvB _ _ _ _ _ _ Ib Er) as Ib2.
      assert (Cr : 0 <= f_count g < 2 ^ 32) by lia.
      destruct (entries_loop_entries TB TB_range _ _ _ _ _ _ Ib Cr Er) as (es1 & L1 & F1 & E1).
      assert (AH : ahead (handle m) (f_start fa - cn)
                     (next_frame fa src scp2 avail (wrap32 (f_start fa - cn)) (f_count fa) off)
                     (next_frame fb src scp2 (wrap64 (scp2 - src)) 0
                        (wrap32 (f_count fb - (cn - f_start fb))) off)).
      { apply ahead_next; auto;
          try apply next_frame_windowed_at; try apply next_frame_windowed_forced; auto;
          rewrite ?wrap32_small by lia; lia. }
      destruct (IH m _ _ _ _ _ _ _ _ _ P AH Ia Ib2 EA EB) as (es2 & L2 & F2 & E2 & E3).
      cbn [next_frame f_count] in L2. rewrite wrap32_small in L2 by lia.
      exists (es1 ++ es2). split; [rewrite len_app; lia|].
      split; [apply Forall_app; auto|]. split.
      * rewrite E2, E1, flat_map_app, map_app, app_assoc. reflexivity.
      * rewrite E3. rewrite skipn_app_Z by lia. do 4 f_equal. lia.
    + (* decoded on both sides *)
      rewrite (wrap32_small (cn - f_start fb)) in EsB by lia.
      rewrite (wrap32_small (cn - f_start fa)) in EsA by lia.
      set (ca := if cn - f_start fa >? f_count fa then f_count fa else cn - f_start fa) in *.
      set (cb := if cn - f_start fb >? f_count fb then f_count fb else cn - f_start fb) in *.
      assert (Cab : cb = s + ca /\ 0 < ca <= f_count fa).
      { subst ca cb. destruct (Z.gtb_spec (cn - f_start fa) (f_count fa));
          destruct (Z.gtb_spec (cn - f_start fb) (f_count fb)); lia. }
      destruct Cab as [Cab Cpos].
      bind_case EsA as [[reta m2a] d2a] ErA.
      destruct (Z.eqb_spec reta 0) as [->|]; cbn [negb] in EsA; [|discriminate].
      inversion EsA; subst fa' m1a d1a; clear EsA.
      bind_case EsB as [[retb m2b] d2b] ErB.
      destruct (Z.eqb_spec retb 0) as [->|]; cbn [negb] in EsB; [|discriminate].
      inversion EsB; subst fb' m1b d1b; clear EsB.
      unfold decode_entries_with in ErA, ErB.
      bind_case ErA as pfa Epa. destruct pfa as [ga|]; [|discriminate].
      bind_case ErB as pfb Epb. destruct pfb as [gb|]; [|discriminate].
      destruct (entries_prologue_frame _ _ _ _ _ _ Epa) as (Wga & Sga & Cga & Oga & _).
      destruct (entries_prologue_frame _ _ _ _ _ _ Epb) as (Wgb & Sgb & Cgb & Ogb & Same).
      pose proof (Same _ _ _ Epa) as Off.
      pose proof (wrap32_range (c0 + f_start fb)) as Rsb.
      assert (Cbpos : 0 < cb) by lia.
      destruct (entries_prologue_checks _ _ _ _ _ _ (proj1 Rsb) (or_intror Cbpos) Epb)
        as (_ & vn & _ & _ & _ & _ & B1 & B2 & _).
      pose proof (wrap32_range vn) as Rvn.
      assert (Sab : wrap32 (c0 + f_start fa) = wrap32 (c0 + f_start fb) + s).
      { rewrite Hst, Z.add_assoc, <- wrap32_add_l. apply wrap32_small. lia. }
      assert (AHg : ahead (handle m) s ga gb).
      { unfold ahead. rewrite Sga, Sgb, Cga, Cgb, Oga, Ogb.
        repeat split; auto; lia. }
      pose proof (entries_loop_fixed _ _ _ _ _ _ _ P ErA). subst m2a.
      pose proof (entries_loop_fixed _ _ _ _ _ _ _ P ErB). subst m2b.
      pose proof (InvA _ _ _ _ _ _ Ia ErA) as Ia2.
      pose proof (InvB _ _ _ _ _ _ Ib ErB) as Ib2.
      destruct (IH m _ _ _ _ _ _ _ _ _ P AHg Ia Ib ErA ErB) as (es1 & L1 & F1 & E1 & E1a).
      assert (AH : ahead (handle m) 0
                     (next_frame fa src scp2 (wrap64 (scp2 - src)) 0
                        (wrap32 (f_count fa - ca)) off)
                     (next_frame fb src scp2 (wrap64 (scp2 - src)) 0
                        (wrap32 (f_count fb - cb)) off)).
      { apply ahead_next; auto; try apply next_frame_windowed_forced;
          rewrite ?wrap32_small by lia; lia. }
      destruct (IH m _ _ _ _ _ _ _ _ _ P AH Ia2 Ib2 EA EB) as (es2 & L2 & F2 & E2 & E2a).
      cbn [next_frame f_count] in L2. rewrite wrap32_small in L2 by lia.
      change (Z.to_nat 0) with O in E2a. cbn [skipn] in E2a.
      exists (es1 ++ es2). split; [rewrite len_app; lia|].
      split; [apply Forall_app; auto|]. split.
      * rewrite E2, E1, flat_map_app, map_app, app_assoc. reflexivity.
      * rewrite E2a, E1a, skipn_app_keep by lia.
        rewrite flat_map_app, map_app, app_assoc. reflexivity.
  - (* a single entry *)
    destruct (Z.eqb_spec (f_start fb) 0) as [Sb0|Sb0];
      destruct (Z.eqb_spec (f_start fa) 0) as [Sa0|Sa0]; cbn [negb] in EsA, EsB.
    + (* emitted on both sides *)
      assert (s = 0) by lia. subst s.
      unfold emit_entry in EsA, EsB.
      bind_case EsB as [path m2] Ep. rewrite Ep in EsA. cbn [obind] in EsA.
      pose proof (get_pathref_fixed _ _ _ _ _ P Ep). subst m2.
      bind_case EsB as [sha1 scp1] Es. rewrite Es in EsA. cbn [obind] in EsA.
      destruct (_ || _); [discriminate|].
      bind_case EsB as p0 E0. rewrite E0 in EsA. cbn [obind] in EsA.
      bind_case EsB as p1 E1. rewrite E1 in EsA. cbn [obind] in EsA.
      bind_case EsB as name En. rewrite En in EsA. cbn [obind] in EsA.
      bind_case EsB as [dbx lb] Edb. bind_case EsA as [dax la] Eda.
      destruct (Z.gtb_spec (lb + 20) (sizep dbx)) as [|Gb]; [discriminate|].
      destruct (Z.gtb_spec (la + 20) (sizep dax)) as [|Ga]; [discriminate|].
      bind_case EsB as h Eh. rewrite Eh in EsA. cbn [obind] in EsA.
      pose proof (load_n_length _ _ _ _ (must_done _ _ Eh)) as Lh.
      destruct (emit_entry_fits TA da dax _ h la TA_range Ia Lh Eda Ga)
        as (ra & da2 & Sta & Ada & Ia2 & Ema & _).
      destruct (emit_entry_fits TB db dbx _ h lb TB_range Ib Lh Edb Gb)
        as (rb & db2 & Stb & Adb & Ib2 & Emb & _).
      rewrite Sta in EsA. cbn [obind] in EsA. rewrite Ada in EsA. cbn [obind] in EsA.
      rewrite Stb in EsB. cbn [obind] in EsB. rewrite Adb in EsB. cbn [obind] in EsB.
      inversion EsA; subst fa' m1a d1a; clear EsA.
      inversion EsB; subst fb' m1b d1b; clear EsB.
      assert (AH : ahead (handle m) 0
                     (next_frame fa src scp1 avail (f_start fa) (wrap32 (f_count fa - 1))
                        (f_copy_objoffset fb))
                     (next_frame fb src scp1 avail (f_start fb) (wrap32 (f_count fb - 1))
                        (f_copy_objoffset fb))).
      { apply ahead_next; auto; try apply next_frame_windowed_at; auto;
          rewrite ?wrap32_small by lia; lia. }
      rewrite Hc in EA.
      destruct (IH m _ _ _ _ _ _ _ _ _ P AH Ia2 Ib2 EA EB) as (es & Le & Fe & Ee & Ea).
      cbn [next_frame f_count] in Le. rewrite wrap32_small in Le by lia.
      change (Z.to_nat 0) with O in *. cbn [skipn] in *.
      assert (Nn : no_nul name).
      { apply must_done in En. unfold load_cstr in En.
        destruct (mem_from _ _); [|discriminate].
        exact (proj1 (until_nul_split _ _ En)). }
      exists ((Z.lor (Z.shiftl p0 8) p1, name, h) :: es).
      split; [unfold len in *; cbn [length]; lia|].
      split; [constructor; [split; assumption|assumption]|].
      cbn [flat_map entry_bytes]. split.
      * rewrite Ee, Emb, <- app_assoc, <- map_app. reflexivity.
      * rewrite Ea, Ema, <- app_assoc, <- map_app. reflexivity.
    + (* skipped on one side, emitted on the other *)
      unfold emit_entry in EsB.
      bind_case EsB as [path m2] Ep.
      pose proof (get_pathref_fixed _ _ _ _ _ P Ep). subst m2.
      bind_case EsB as [sha1 scp1] Es.
      rewrite (skip_entry_cursor _ _ _ _ _ _ _ _ Es) in EsA.
      inversion EsA; subst fa' m1a d1a; clear EsA.
      destruct (_ || _); [discriminate|].
      bind_case EsB as p0 E0. bind_case EsB as p1 E1. bind_case EsB as name En.
      bind_case EsB as [dbx lb] Edb.
      destruct (Z.gtb_spec (lb + 20) (sizep dbx)) as [|Gb]; [discriminate|].
      bind_case EsB as h Eh.
      pose proof (load_n_length _ _ _ _ (must_done _ _ Eh)) as Lh.
      destruct (emit_entry_fits TB db dbx _ h lb TB_range Ib Lh Edb Gb)
        as (rb & db2 & Stb & Adb & Ib2 & Emb & _).
      rewrite Stb in EsB. cbn [obind] in EsB. rewrite Adb in EsB. cbn [obind] in EsB.
      inversion EsB; subst fb' m1b d1b; clear EsB.
      rewrite Hc in EA.
      assert (AH : ahead (handle m) (s - 1)
                     (next_frame fa src scp1 avail (wrap32 (f_start fa - 1)) (f_count fa)
                        (f_copy_objoffset fb))
                     (next_frame fb src scp1 avail (f_start fb) (wrap32 (f_count fb - 1))
                        (f_copy_objoffset fb))).
      { apply ahead_next; auto; try apply next_frame_windowed_at; auto;
          rewrite ?wrap32_small by lia; lia. }
      destruct (IH m _ _ _ _ _ _ _ _ _ P AH Ia Ib2 EA EB) as (es & Le & Fe & Ee & Ea).
      cbn [next_frame f_count] in Le. rewrite wrap32_small in Le by lia.
      assert (Nn : no_nul name).
      { apply must_done in En. unfold load_cstr in En.
        destruct (mem_from _ _); [|discriminate].
        exact (proj1 (until_nul_split _ _ En)). }
      exists ((Z.lor (Z.shiftl p0 8) p1, name, h) :: es).
      split; [unfold len in *; cbn [length]; lia|].
      split; [constructor; [split; assumption|assumption]|].
      split.
      * cbn [flat_map entry_bytes]. rewrite Ee, Emb, <- app_assoc, <- map_app. reflexivity.
      * rewrite skipn_cons_Z by lia. exact Ea.
    + lia.
    + (* skipped on both sides *)
      unfold skip_entry in EsA, EsB.
      bind_case EsB as b Eb. rewrite Eb in EsA. cbn [obind] in EsA.
      bind_case EsB as scp1 E1. rewrite E1 in EsA. cbn [obind] in EsA.
      inversion EsA; subst fa' m1a d1a; clear EsA.
      inversion EsB; subst fb' m1b d1b; clear EsB.
      rewrite Hc in EA.
      refine (IH m s _ _ _ _ _ _ _ _ P _ Ia Ib EA EB).
      apply ahead_next; auto; try apply next_frame_windowed_at; auto;
        rewrite ?wrap32_small by lia; lia.
Qed.

End Slice.

Section Ranges.
Context {host : Host}.

(** X17: a range of a tree is a slice of the tree.  Decoding [count]
    entries from entry [start + s] on gives the entries that decoding
    [s + count] entries from entry [start] on gives after its first [s]:
    what is skipped (single entries, whole copy records, the head of a copy
    range) is exactly what the longer decode emits first.  Both decodes run
    on a handle whose path dictionary is loaded and write to buffers of
    their own. *)
Theorem tree_range_is_a_slice :
  forall (TA TB : Z) (fuel : nat) (m : machine) (offset start s count : Z)
         (da db : dest) (parse_hdr : bool) (ma mb : machine) (da' db' : dest),
    TA < 2 ^ 64 -> TB < 2 ^ 64 ->
    path_dict (handle m) <> None ->
    0 <= start -> 0 <= s -> 0 <= count ->
    start + s < 2 ^ 32 -> s + count < 2 ^ 32 ->
    dest_inv TA da -> dest_inv TB db ->
    decode_entries fuel m offset (start + s) count da parse_hdr = Done (0, ma, da') ->
    decode_entries fuel m offset start (s + count) db parse_hdr = Done (0, mb, db') ->
    exists es,
      len es = s + count /\ Forall entry_ok es
      /\ emitted db' = emitted db ++ map Some (flat_map entry_bytes es)
      /\ emitted da' = emitted da ++ map Some (flat_map entry_bytes (skipn (Z.to_nat s) es)).
Proof.
  intros TA TB fuel m offset start s count da db parse_hdr ma mb da' db'
         HTA HTB P S0 S1 C0 R1 R2 Ia Ib EA EB.
  unfold decode_entries, decode_entries_with in EA, EB.
  bind_case EA as pfa Epa. destruct pfa as [fa|]; [|discriminate].
  bind_case EB as pfb Epb. destruct pfb as [fb|]; [|discriminate].
  destruct (entries_prologue_frame _ _ _ _ _ _ Epa) as (Wa & Sa & Ca & Oa & _).
  destruct (entries_prologue_frame _ _ _ _ _ _ Epb) as (Wb & Sb & Cb & Ob & Same).
  pose proof (Same _ _ _ Epa) as Off.
  assert (AH : ahead (handle m) s fa fb).
  { unfold ahead. rewrite Sa, Sb, Ca, Cb, Oa, Ob. repeat split; auto; lia. }
  destruct (entries_loop_slice TA TB HTA HTB fuel _ _ _ _ _ _ _ _ _ _ P AH Ia Ib EA EB)
    as (es & Le & Fe & Eb & Ea).
  exists es. rewrite Cb in Le. auto.
Qed.

End Ranges.

Section Skips.
Context {host : Host}.

(** X15: skipping an entry steps over the same bytes as emitting it reads.
    When the hash reference at [scp] can be read by [get_sha1ref], the skip
    branch (21 bytes for the inline form, otherwise the loop over the
    continuation bits) leaves the cursor where [get_sha1ref] leaves it,
    takes one off [start] and touches neither the state nor the
    destination; so wherever the emit branch goes on, the skip branch goes
    on too, to a frame at the same offset with the same window and the same
    copy source. *)
Theorem skip_entry_agrees_with_emit_entry :
  forall (fuel : nat) (m : machine) (f : frame) (d : dest) (src avail scp what : Z),
    (forall q scp',
        get_sha1ref (handle m) scp = Done (q, scp') ->
        skip_entry m f d src avail scp
        = Done (Continue (next_frame f src scp' avail (wrap32 (f_start f - 1)) (f_count f)
                            (f_copy_objoffset f)), m, d))
    /\ (forall fe m1 d1,
        emit_entry fuel m f d src avail scp what = Done (Continue fe, m1, d1) ->
        exists fs,
          skip_entry m f d src avail scp = Done (Continue fs, m, d)
          /\ f_offset fs = f_offset fe /\ f_avail fs = f_avail fe
          /\ f_copy_objoffset fs = f_copy_objoffset fe
          /\ f_start fs = wrap32 (f_start f - 1) /\ f_count fs = f_count f).
Proof.
  intros fuel m f d src avail scp what. split.
  - intros q scp' E. eapply skip_entry_cursor; eauto.
  - intros fe m1 d1 E. unfold emit_entry in E.
    bind_case E as [path m2] Ep. bind_case E as [sha1 scp1] Es.
    pose proof (same_pack_le _ _ (get_pathref_same _ _ _ _ _ Ep)) as L.
    rewrite (get_sha1ref_le _ _ _ L) in Es.
    destruct (_ || _); [discriminate|].
    bind_case E as p0 E0. bind_case E as p1 E1. bind_case E as name En.
    bind_case E as [d2 l] Ed2. destruct (_ >? _); [discriminate|].
    bind_case E as h Eh. bind_case E as r Er. bind_case E as d3 Ed3.
    inversion E; subst fe m1 d1; clear E.
    eexists. split; [eapply skip_entry_cursor; eauto|].
    cbn [next_frame f_offset f_avail f_copy_objoffset f_start f_count].
    repeat split.
Qed.

End Skips.

Section Wire.
Context {host : Host}.

(** X18: from the wire to the lookup.  On a handle without identity
    dictionary, when the dictionary section (right after the hash table)
    inflates to whole records, the last with a string of at least one byte,
    the first [get_identref] loads them (two more live blocks, the end
    offset recorded) and reads back the record its index names: its two
    prefix bytes as the timezone and its string; an index past the records
    gives NULL. *)
Theorem first_lookup_loads_and_reads :
  forall (fuel : nat) (m : machine) (dict_size cp curpos1 : Z)
         (rs : list (byte * byte * list byte)) (a b : byte) (s : list byte)
         (scp v scp' : Z),
    ident_dict (handle m) = None ->
    Forall well_formed_record rs -> no_nul s -> s <> [] ->
    dict_size = len (encode_records (rs ++ [(a, b, s)])) -> dict_size < 2 ^ 32 ->
    varint_at (handle m) (wrap32 (12 + num_objects (handle m) * 20))
    = Done (dict_size, cp) ->
    inflate_loop fuel (handle m) git_inflate_init
                 (wrap32 (12 + num_objects (handle m) * 20)
                  + (cp - wrap32 (12 + num_objects (handle m) * 20)))
                 (wrap64 (dict_size + 1)) []
    = Done (Z_STREAM_END, encode_records (rs ++ [(a, b, s)]), curpos1) ->
    varint_at (handle m) scp = Done (v, scp') ->
    match nth_error (rs ++ [(a, b, s)]) (Z.to_nat (wrap32 v)) with
    | Some (a', b', s') =>
        exists q m1,
          get_identref fuel m scp = Done (q, scp', m1)
          /\ ident_dict (handle m1) = Some (dict_of (rs ++ [(a, b, s)]))
          /\ ident_dict_end (handle m1) = curpos1
          /\ live m1 = live m + 2
          /\ read_tz (handle m1) q = Done (to_int16 (Z.lor (Z.shiftl a' 8) b'))
          /\ load_cstr (handle m1) (ptr_add q 2) = Some s'
    | None =>
        exists m1, get_identref fuel m scp = Done (Null, scp', m1)
                   /\ live m1 = live m + 2
    end.
Proof.
  intros fuel m dict_size cp curpos1 rs a b s scp v scp' N W Ns Ne Hsize Hlt V I Vs.
  set (all := rs ++ [(a, b, s)]) in *.
  assert (Wall : Forall well_formed_record all).
  { apply Forall_app. split; [assumption|]. constructor; [exact Ns|constructor]. }
  assert (Ld : load_dict fuel m (wrap32 (12 + num_objects (handle m) * 20))
               = Done (Some (dict_of all, curpos1), xmalloc (xmalloc m))).
  { rewrite (load_dict_accepts fuel m _ dict_size cp curpos1 rs a b s
               (encode_records all) eq_refl W Ns Ne Hsize ltac:(lia) V I).
    unfold dict_of. subst all. rewrite len_app. reflexivity. }
  set (m1 := set_ident (xmalloc (xmalloc m)) (dict_of all) curpos1).
  assert (En : ensure_ident_dict fuel m = Done m1).
  { unfold ensure_ident_dict, load_ident_dict. rewrite N, Ld. reflexivity. }
  assert (D : ident_dict (handle m1) = Some (dict_of all)) by reflexivity.
  assert (Vm : varint_at (handle m1) scp = Done (v, scp')) by exact Vs.
  pose proof (wrap32_range v) as R.
  assert (L32 : len (encode_records all) < 2 ^ 32) by lia.
  pose proof (dict_ref_record InIdent all (wrap32 v) Wall L32 (proj1 R)) as X.
  unfold get_identref. rewrite En. cbn [obind]. rewrite Vm. cbn [obind]. rewrite D.
  destruct (nth_error all (Z.to_nat (wrap32 v))) as [[[a' b'] s']|] eqn:E.
  - destruct X as (o & rest & X0 & X1 & X2 & X3). exists (InIdent o), m1.
    rewrite X0. cbn [obind]. split; [reflexivity|]. split; [exact D|].
    split; [reflexivity|]. split; [cbn; lia|].
    unfold read_tz, load, load_cstr, mem_from, ptr_add, dict_block. rewrite D, X1, X2, X3.
    cbn [obind must]. split; [reflexivity|]. apply until_nul_string.
    apply nth_error_In in E. rewrite Forall_forall in Wall. exact (Wall _ E).
  - exists m1. rewrite X. split; [reflexivity|]. cbn. lia.
Qed.

End Wire.

(** ** The example pack: dictionaries, skips and copies *)

Lemma ex_idents_well_formed : Forall well_formed_record ex_idents.
Proof.
  unfold ex_idents, well_formed_record, no_nul.
  repeat (apply Forall_cons; [cbn; repeat (apply Forall_cons; [discriminate|]); apply Forall_nil|]).
  apply Forall_nil.
Qed.

Lemma get_sha1ref_returns_witness :
  is_null (InTable 0) = false
  /\ ex_commit_off < ex_commit_off + 1
  /\ ((load (handle ex_machine) (InPack ex_commit_off) = Some 0
       /\ InTable 0 = InPack (ex_commit_off + 1) /\ ex_commit_off + 1 = ex_commit_off + 21)
      \/ (exists b v, load (handle ex_machine) (InPack ex_commit_off) = Some b /\ b <> 0
                      /\ varint_at (handle ex_machine) ex_commit_off
                         = Done (v, ex_commit_off + 1)
                      /\ 1 <= wrap32 v <= num_objects (handle ex_machine) + 1
                      /\ InTable 0 = InTable (wrap32 ((wrap32 v - 1) * 20)))).
Proof.
  apply (get_sha1ref_returns (handle ex_machine) ex_commit_off (InTable 0) (ex_commit_off + 1)).
  vm_compute. reflexivity.
Defined.

Lemma entries_step_moves_forward_witness :
  f_offset ex_frame_a1
  < f_offset (next_frame ex_frame_a1 (f_offset ex_frame_a1) (ex_tree_a_off + 4)
                (f_avail ex_frame_a1) 0 2 0).
Proof.
  apply (@entries_step_moves_forward ex_host (fun _ _ _ _ _ => Fault) 5%nat ex_machine
           ex_frame_a1 (xmallocz 64) _ ex_machine (xmallocz 64)).
  vm_compute. reflexivity.
Defined.

Lemma load_dict_heap_witness :
  handle (xmalloc (xmalloc ex_machine)) = handle ex_machine
  /\ live (xmalloc (xmalloc ex_machine)) = live ex_machine + 2.
Proof.
  apply (@load_dict_heap ex_host 5 ex_machine 72 (Some (dict_of ex_idents, 102))).
  vm_compute. reflexivity.
Defined.

Lemma dict_load_failure_is_fatal_witness :
  @get_identref ex_host 3 ex_small_dict_machine 0 = Die BadIdentDict.
Proof.
  apply (proj1 (@dict_load_failure_is_fatal ex_host 3 ex_small_dict_machine
                  (free (xmalloc ex_small_dict_machine)))).
  - reflexivity.
  - vm_compute. reflexivity.
Defined.

Lemma lookups_load_once_witness :
  @get_identref ex_host 0 ex_ident_machine 127 = Done (InIdent 0, 128, ex_ident_machine).
Proof.
  apply (proj1 (@lookups_load_once ex_host 5 ex_machine) 127).
  vm_compute. reflexivity.
Defined.

Lemma decode_success_heap_witness : same_pack (xmalloc ex_machine) ex_commit_machine.
Proof.
  apply (proj1 (@decode_success_heap ex_host 5 ex_machine ex_commit_off 175
                  ex_commit_blk ex_commit_machine)).
  vm_compute. reflexivity.
Defined.

Lemma copy_source_must_be_a_tree_witness :
  @decode_entries ex_host 0 ex_machine ex_commit_off 0 1 (xmallocz 64) true
  = Done (-1, ex_machine, xmallocz 64).
Proof.
  apply (@copy_source_must_be_a_tree ex_host 0 ex_machine ex_commit_off 0 1 (xmallocz 64)
           [] 1 (skipn 120 ex_bytes)).
  - vm_compute. reflexivity.
  - constructor.
  - reflexivity.
  - vm_compute. discriminate.
Defined.

Lemma self_copy_never_returns_witness :
  @decode_entries ex_host 1000 ex_loop_machine ex_commit_off 0 1 (xmallocz 64) true
  = OutOfFuel.
Proof.
  apply (@self_copy_never_returns ex_host ex_loop_machine ex_commit_off 0 1
           {| f_offset := ex_commit_off + 2; f_avail := 23; f_start := 0; f_count := 1;
              f_copy_objoffset := 0 |}
           (ex_commit_off + 3) 3 (ex_commit_off + 4) (ex_commit_off + 5)).
  - lia.
  - lia.
  - vm_compute. reflexivity.
  - split.
    + vm_compute. discriminate.
    + exists 1. split; [vm_compute; reflexivity|].
      split; [reflexivity|]. vm_compute. discriminate.
  - vm_compute. reflexivity.
  - vm_compute. discriminate.
  - vm_compute. reflexivity.
  - vm_compute. discriminate.
Defined.

Lemma commit_ident_out_of_range_faults_witness :
  @pv4_get_commit ex_host 5 ex_lost_ident_machine ex_commit_off 100 = Fault.
Proof.
  eapply (proj2 (@commit_ident_out_of_range_faults ex_host 5 ex_lost_ident_machine
                   ex_commit_off 100 (InTable 0) (ex_commit_off + 1) (repeat 17 20) _
                   0 (ex_commit_off + 2) (ex_commit_off + 2) _ 5 (ex_commit_off + 3) _
                   (dict_of ex_idents) 7 (ex_commit_off + 4) _ _ _ _ _ _ _ _ _ _)).
  Unshelve.
  all: try (vm_compute; reflexivity).
  vm_compute. discriminate.
Defined.

Lemma commit_header_leaves_a_byte_witness :
  exists f m2,
    @parse_commit ex_host 5 (xmalloc ex_machine) ex_commit_off = Done (f, m2)
    /\ len (commit_header_text f) < 175.
Proof.
  apply (@commit_header_leaves_a_byte ex_host 5 ex_machine ex_commit_off 175
           (Some ex_commit_blk) ex_commit_machine ltac:(lia)).
  vm_compute. reflexivity.
Defined.

Lemma load_dict_returns_records_witness :
  exists rs a b s,
    Forall well_formed_record rs /\ no_nul s /\ s <> []
    /\ dict_of ex_idents = dict_of (rs ++ [(a, b, s)]).
Proof.
  apply (@load_dict_returns_records ex_host 5 ex_machine 72 (dict_of ex_idents) 102
           (xmalloc (xmalloc ex_machine))).
  vm_compute. reflexivity.
Defined.

Lemma lookup_reads_the_record_witness :
  exists q,
    @get_identref ex_host 0 ex_ident_machine 129 = Done (q, 130, ex_ident_machine)
    /\ read_tz (handle ex_ident_machine) q = Done 200
    /\ load_cstr (handle ex_ident_machine) (ptr_add q 2)
       = Some (bytes_of_string "Bob <b@y> ").
Proof.
  apply (proj1 (@lookup_reads_the_record ex_host 0 ex_ident_machine ex_idents
                  ex_idents_well_formed ltac:(vm_compute; reflexivity))
           eq_refl 129 1 130).
  vm_compute. reflexivity.
Defined.

Lemma tree_has_declared_entries_witness :
  exists v scp es,
    varint_at (handle ex_machine) (ex_tree_b_off + 1) = Done (v, scp)
    /\ len es = wrap32 v
    /\ Forall entry_ok es
    /\ ex_tree_b_blk = map Some (flat_map entry_bytes es) ++ [Some 0]
    /\ len (flat_map entry_bytes es) = 64.
Proof.
  apply (@tree_has_declared_entries ex_host 20 ex_machine (ex_tree_b_off + 1) 64
           ex_tree_b_blk ex_tree_b_machine ltac:(lia)).
  vm_compute. reflexivity.
Defined.

Lemma decode_entries_returns_witness :
  dest_inv 64 ex_source_dest
  /\ (0 = 0 \/ 0 = -1)
  /\ (0 = 0 ->
      exists es, len es = 2 /\ Forall entry_ok es
                 /\ emitted ex_source_dest
                    = emitted (xmallocz 64) ++ map Some (flat_map entry_bytes es)
                 /\ sizep ex_source_dest
                    = sizep (xmallocz 64) - len (flat_map entry_bytes es)).
Proof.
  apply (@decode_entries_returns ex_host 64 19 ex_machine ex_tree_a_off 1 2 (xmallocz 64)
           true 0 ex_source_machine ex_source_dest).
  - lia.
  - apply xmallocz_inv. lia.
  - lia.
  - vm_compute. reflexivity.
Defined.

Lemma toy_host_index_only (offs : list Z) : index_only (toy_host offs).
Proof.
  intros h i p p' A B C. cbn [find_pack_entry_one nth_packed_object_offset toy_host].
  rewrite C. split; reflexivity.
Qed.

Lemma decoding_again_gives_the_same_witness :
  @pv4_get_commit ex_host 5 ex_commit_machine ex_commit_off 175
  = Done (Some ex_commit_blk, xmalloc ex_commit_machine).
Proof.
  apply (proj1 (@decoding_again_gives_the_same ex_host (toy_host_index_only _) 5 ex_machine
                  ex_commit_off 175 ex_commit_blk ex_commit_machine ex_commit_machine
                  (pack_le_refl _))).
  vm_compute. reflexivity.
Defined.

Lemma tree_range_is_a_slice_witness :
  exists da' db' es,
    len es = 1 + 2 /\ Forall entry_ok es
    /\ emitted db' = emitted (xmallocz 128) ++ map Some (flat_map entry_bytes es)
    /\ emitted da' = emitted (xmallocz 64)
                     ++ map Some (flat_map entry_bytes (skipn (Z.to_nat 1) es)).
Proof.
  eexists _, _.
  eapply (@tree_range_is_a_slice ex_host 64 128 19 ex_tree_b_machine ex_tree_a_off 0 1 2
            (xmallocz 64) (xmallocz 128) true).
  - lia.
  - lia.
  - vm_compute. discriminate.
  - lia.
  - lia.
  - lia.
  - lia.
  - lia.
  - apply xmallocz_inv. lia.
  - apply xmallocz_inv. lia.
  - vm_compute. reflexivity.
  - vm_compute. reflexivity.
Defined.

Lemma skip_entry_agrees_with_emit_entry_witness :
  @skip_entry ex_machine ex_frame_a1 (xmallocz 64) (ex_tree_a_off + 2) 100 (ex_tree_a_off + 3)
  = Done (Continue (next_frame ex_frame_a1 (ex_tree_a_off + 2) (ex_tree_a_off + 4) 100
                      (wrap32 (f_start ex_frame_a1 - 1)) (f_count ex_frame_a1)
                      (f_copy_objoffset ex_frame_a1)), ex_machine, xmallocz 64).
Proof.
  apply (proj1 (@skip_entry_agrees_with_emit_entry ex_host 5 ex_machine ex_frame_a1
                  (xmallocz 64) (ex_tree_a_off + 2) 100 (ex_tree_a_off + 3) 0)
           (InTable 0)).
  vm_compute. reflexivity.
Defined.

Lemma first_lookup_loads_and_reads_witness :
  exists q m1,
    @get_identref ex_host 5 ex_machine 129 = Done (q, 130, m1)
    /\ ident_dict (handle m1) = Some (dict_of ex_idents)
    /\ ident_dict_end (handle m1) = 102
    /\ live m1 = live ex_machine + 2
    /\ read_tz (handle m1) q = Done 200
    /\ load_cstr (handle m1) (ptr_add q 2) = Some (bytes_of_string "Bob <b@y> ").
Proof.
  apply (@first_lookup_loads_and_reads ex_host 5 ex_machine 28 73 102
           [(0, 0, bytes_of_string "Alice <a@x> ")] 0 200 (bytes_of_string "Bob <b@y> ")
           129 1 130).
  - reflexivity.
  - repeat constructor; discriminate.
  - repeat constructor; discriminate.
  - discriminate.
  - vm_compute. reflexivity.
  - lia.
  - vm_compute. reflexivity.
  - vm_compute. reflexivity.
  - vm_compute. reflexivity.
Defined.
